(** * hareactive: the listener discipline, streams and futures

    A shallow embedding of three source files of the repository:
    - the reactive base ([State], [MultiObserver], [Reactive]),
    - [Stream.ts] ([Stream.publish], the stream classes and the setter
      [def]),
    - [future.ts] ([Future.resolve], [Future.addListener], [CombineFuture]
      and the semantic representation of the futures).

    Objects are identified by natural numbers (object identity, as compared
    by [===] and [indexOf]); JavaScript values are an untyped datatype since
    the TypeScript types are erased at run time. *)

From Stdlib Require Import String ZArith List Bool Lia Permutation.
Import ListNotations.

Set Warnings "-register-all".

(** ** JavaScript values *)

Inductive jsval : Type :=
| VUndefined
| VNum (n : Z)
| VBool (b : bool)
| VStr (s : string)
| VArr (items : list jsval).

(** * The reactive base: [State], [MultiObserver], [Reactive] *)

Module FrpCommon.

Open Scope Z_scope.

Inductive State : Type := Push | Pull | OnlyPull | Inactive.

(** An observer handed to [addListener] is an object; only its identity
    matters to the listener bookkeeping. *)
Definition Observer : Type := nat.

(** The values the field [child] and the slots of a [MultiObserver]'s
    array can hold. *)
Inductive Obj : Type :=
| Undefined
| Obs (o : Observer)
| MultiObserver (listeners : list Obj).

Record Reactive : Type := mkReactive {
  child : Obj;
  nrOfListeners : Z;
  state : State
}.

(** [constructor()]: state Inactive, no listener; [child] is not
    initialised. *)
Definition new_Reactive : Reactive := mkReactive Undefined 0 Inactive.

Definition set_child (c : Obj) (r : Reactive) : Reactive :=
  mkReactive c (nrOfListeners r) (state r).

Definition set_nr (n : Z) (r : Reactive) : Reactive :=
  mkReactive (child r) n (state r).

Definition set_state (s : State) (r : Reactive) : Reactive :=
  mkReactive (child r) (nrOfListeners r) s.

(** The abstract hooks a call runs. *)
Inductive Hook : Type := Activate | Deactivate.

(** A call either returns, or throws a [TypeError] (reading [.listeners]
    of something that is not a [MultiObserver]); the object keeps the
    mutations made before the throw. *)
Inductive Completion (A : Type) : Type :=
| Normal (a : A)
| TypeError (r : Reactive).
Arguments Normal {A} a.
Arguments TypeError {A} r.

(** [l[0] === listener] *)
Definition is_listener (x : Obj) (listener : Observer) : bool :=
  match x with
  | Obs o => Nat.eqb o listener
  | _ => false
  end.

(** [l.indexOf(listener)]: the first index holding the listener. *)
Fixpoint indexOf (l : list Obj) (listener : Observer) : option nat :=
  match l with
  | [] => None
  | x :: l' =>
      if is_listener x listener then Some 0%nat
      else option_map S (indexOf l' listener)
  end.

(** [l[idx] = v] for an index inside the array. *)
Fixpoint set_index (idx : nat) (v : Obj) (l : list Obj) : list Obj :=
  match l, idx with
  | [], _ => []
  | _ :: l', O => v :: l'
  | x :: l', S i => x :: set_index i v l'
  end.

(** The last branch of [removeListener]:
    [if (idx !== -1) { if (idx !== l.length - 1) l[idx] = l[l.length - 1];
     l.length--; }] *)
Definition remove_from_array (l : list Obj) (listener : Observer) : list Obj :=
  match indexOf l listener with
  | None => l
  | Some idx =>
      let l1 :=
        if Nat.eqb idx (length l - 1) then l
        else set_index idx (nth (length l - 1) l Undefined) l in
      removelast l1
  end.

Inductive Call : Type := Add (c : Observer) | Remove (c : Observer).

Section ReactiveMethods.

(** [activate] and [deactivate] are abstract in [Reactive]. *)
Variables activate deactivate : Reactive -> Reactive.

(** [addListener(c)]; the state it returns is the [state] of the
    resulting object. *)
Definition addListener (c : Observer) (r : Reactive)
  : Completion (Reactive * list Hook) :=
  let nr := nrOfListeners r + 1 in
  let r1 := set_nr nr r in
  if nr =? 1 then
    Normal (activate (set_child (Obs c) r1), [Activate])
  else if nr =? 2 then
    Normal (set_child (MultiObserver [child r1; Obs c]) r1, [])
  else
    match child r1 with
    | MultiObserver l => Normal (set_child (MultiObserver (l ++ [Obs c])) r1, [])
    | _ => TypeError r1
    end.

(** [removeListener(listener)] *)
Definition removeListener (listener : Observer) (r : Reactive)
  : Completion (Reactive * list Hook) :=
  let nr := nrOfListeners r - 1 in
  let r1 := set_nr nr r in
  if nr =? 0 then
    Normal (deactivate (set_child Undefined r1), [Deactivate])
  else if nr =? 1 then
    match child r1 with
    | MultiObserver l =>
        let i := if is_listener (nth 0 l Undefined) listener then 1%nat else 0%nat in
        Normal (set_child (nth i l Undefined) r1, [])
    | _ => TypeError r1
    end
  else
    match child r1 with
    | MultiObserver l =>
        Normal (set_child (MultiObserver (remove_from_array l listener)) r1, [])
    | _ => TypeError r1
    end.

Definition call (k : Call) (r : Reactive) : Completion (Reactive * list Hook) :=
  match k with
  | Add c => addListener c r
  | Remove c => removeListener c r
  end.

(** A sequence of calls on one reactive; an uncaught exception ends it.
    The hooks run are collected in order. *)
Fixpoint run (calls : list Call) (r : Reactive) (log : list Hook)
  : Completion (Reactive * list Hook) :=
  match calls with
  | [] => Normal (r, log)
  | k :: rest =>
      match call k r with
      | Normal (r', hs) => run rest r' (log ++ hs)
      | TypeError r' => TypeError r'
      end
  end.

End ReactiveMethods.

(** *** [MultiObserver.push] *)

Inductive PushResult : Type :=
| Pushed (listeners : list Obj) (visited : list (Observer * jsval))
| PushTypeError
| PushOutOfFuel.

Section Push.

(** What the [push] method of an observer does to the array that holds
    it (it may call [addListener] or [removeListener] on the source). *)
Variable observer_push : Observer -> jsval -> list Obj -> list Obj.

(** [for (let i = 0; i < this.listeners.length; ++i)
      this.listeners[i].push(a);]
    The length is read again at every iteration. A slot holding a
    [MultiObserver] runs that object's own loop. *)
Fixpoint MultiObserver_push (fuel : nat) (i : nat) (ls : list Obj) (a : jsval)
    (visited : list (Observer * jsval)) : PushResult :=
  match fuel with
  | O => PushOutOfFuel
  | S fuel' =>
      if (i <? length ls)%nat then
        match nth i ls Undefined with
        | Undefined => PushTypeError
        | Obs o =>
            MultiObserver_push fuel' (S i) (observer_push o a ls) a
              (visited ++ [(o, a)])
        | MultiObserver inner =>
            match MultiObserver_push fuel' 0 inner a visited with
            | Pushed inner' visited' =>
                MultiObserver_push fuel' (S i)
                  (set_index i (MultiObserver inner') ls) a visited'
            | e => e
            end
        end
      else Pushed ls visited
  end.

(** Modelled from the spec: the fan-out of a pushed value to the
    listeners, which [Reactive] leaves to its subclasses ([push] is
    abstract there and ./behavior is not among the sources): through
    [child], guarded as [changeStateDown] is:
    [if (this.child !== undefined) this.child.push(a)]. The array in the
    result is that of the [MultiObserver], empty when there is none. *)
Definition push_child (fuel : nat) (r : Reactive) (a : jsval) : PushResult :=
  match child r with
  | Undefined => Pushed [] []
  | Obs o => Pushed [] [(o, a)]
  | MultiObserver l => MultiObserver_push fuel 0 l a []
  end.

End Push.

(** Observers whose [push] leaves the listener array alone. *)
Definition quiet : Observer -> jsval -> list Obj -> list Obj :=
  fun _ _ ls => ls.

(** An observer (number 1) whose [push] adds observer 9 to the source
    that is pushing, which holds two or more listeners:
    [this.child.listeners.push(c)]. *)
Definition appender (o : Observer) (a : jsval) (ls : list Obj) : list Obj :=
  if Nat.eqb o 1 then ls ++ [Obs 9%nat] else ls.

(** *** Reference notions used to state the properties *)

(** The hooks an edge-triggered discipline runs: [Activate] on 0 -> 1,
    [Deactivate] on 1 -> 0. *)
Fixpoint edge_hooks (count : Z) (calls : list Call) : list Hook :=
  match calls with
  | [] => []
  | Add _ :: rest =>
      (if count =? 0 then [Activate] else []) ++ edge_hooks (count + 1) rest
  | Remove _ :: rest =>
      (if count =? 1 then [Deactivate] else []) ++ edge_hooks (count - 1) rest
  end.

Fixpoint count_after (count : Z) (calls : list Call) : Z :=
  match calls with
  | [] => count
  | Add _ :: rest => count_after (count + 1) rest
  | Remove _ :: rest => count_after (count - 1) rest
  end.

(** No [removeListener] is issued while the count is zero. *)
Fixpoint balanced (count : Z) (calls : list Call) : bool :=
  match calls with
  | [] => true
  | Add _ :: rest => balanced (count + 1) rest
  | Remove _ :: rest => (0 <? count) && balanced (count - 1) rest
  end.

(** Modelled from the spec: the hooks [activate] and [deactivate], which
    [Reactive] leaves abstract, for a reactive that is not always active:
    they leave the listener bookkeeping alone, [activate] "adopts an
    initial state derived from parents" (Push, Pull or OnlyPull),
    [deactivate] "returns to Inactive". *)
Definition hooks_contract (activate deactivate : Reactive -> Reactive) : Prop :=
  (forall r, child (activate r) = child r /\
             nrOfListeners (activate r) = nrOfListeners r /\
             state (activate r) <> Inactive) /\
  (forall r, child (deactivate r) = child r /\
             nrOfListeners (deactivate r) = nrOfListeners r /\
             state (deactivate r) = Inactive).

(** The shape of [child] that the count determines. *)
Definition child_ok (r : Reactive) : Prop :=
  0 <= nrOfListeners r /\
  (nrOfListeners r = 0 -> child r = Undefined) /\
  (2 <= nrOfListeners r -> exists l, child r = MultiObserver l) /\
  (state r = Inactive <-> nrOfListeners r = 0).

(** Remove the first occurrence of an observer. *)
Fixpoint remove_first (c : Observer) (l : list Observer) : list Observer :=
  match l with
  | [] => []
  | x :: l' => if Nat.eqb x c then l' else x :: remove_first c l'
  end.

(** The attached listeners in the order they were inserted. *)
Fixpoint insertion_order (calls : list Call) (attached : list Observer)
  : list Observer :=
  match calls with
  | [] => attached
  | Add c :: rest => insertion_order rest (attached ++ [c])
  | Remove c :: rest => insertion_order rest (remove_first c attached)
  end.

(** The observers a push visits, in order. *)
Definition visited_observers (res : PushResult) : option (list Observer) :=
  match res with
  | Pushed _ visited => Some (map fst visited)
  | _ => None
  end.

(** Every [removeListener] names an observer that is attached. *)
Fixpoint targeted (calls : list Call) (attached : list Observer) : bool :=
  match calls with
  | [] => true
  | Add c :: rest => targeted rest (attached ++ [c])
  | Remove c :: rest =>
      existsb (Nat.eqb c) attached && targeted rest (remove_first c attached)
  end.

Fixpoint no_removes (calls : list Call) : bool :=
  match calls with
  | [] => true
  | Add _ :: rest => no_removes rest
  | Remove _ :: _ => false
  end.

(** The storage of a reactive holds exactly the observers [os], in this
    order: nothing, the observer itself, or a [MultiObserver] array. *)
Definition holds (r : Reactive) (os : list Observer) : Prop :=
  nrOfListeners r = Z.of_nat (length os) /\
  child r = match os with
            | [] => Undefined
            | [o] => Obs o
            | _ => MultiObserver (map Obs os)
            end.

End FrpCommon.

(** * Stream.ts: [Stream.publish] and the stream classes *)

Module StreamTs.

(** A stream object, a callback given to [subscribe], a behavior. *)
Definition ref : Type := nat.
Definition cbid : Type := nat.
Definition Behavior : Type := nat.

(** The class of a stream object fixes its [push] method. *)
Inductive Class : Type :=
| SinkStream
| MapStream (fn : jsval -> jsval)
| FilterStream (fn : jsval -> jsval)
| ScanStream (fn : jsval -> jsval -> jsval)
| SnapshotStream (behavior : Behavior)
| SnapshotWithStream (fn : jsval -> jsval -> jsval) (behavior : Behavior).

Record Stream : Type := mkStream {
  last : jsval;
  eventListeners : list ref;
  cbListeners : list cbid;
  class : Class
}.

(** What a call did, in order: [publish] entered, a callback listener
    called, [push] called on an event listener (with what that call did). *)
Inductive Event : Type :=
| EPublish (s : ref) (a : jsval)
| ECallback (s : ref) (i : nat) (cb : cbid) (a : jsval)
| EPush (s : ref) (i : nat) (target : ref) (a : jsval) (inner : list Event).

(** [if (x)]: the truthiness of a value. *)
Definition truthy (v : jsval) : bool :=
  match v with
  | VUndefined => false
  | VNum n => negb (Z.eqb n 0)
  | VBool b => b
  | VStr s => negb (String.eqb s EmptyString)
  | VArr _ => true
  end.

Section World.

(** The state of the program outside the stream objects (what callbacks
    write and behaviors read). *)
Variable Ext : Type.

Record World : Type := mkWorld {
  streams : list Stream;
  ext : Ext
}.

Inductive Result : Type :=
| Done (w : World) (trace : list Event)
| Throw (w : World) (trace : list Event)
| OutOfFuel.

Definition get (s : ref) (w : World) : option Stream := nth_error (streams w) s.

Fixpoint update (s : ref) (f : Stream -> Stream) (l : list Stream) : list Stream :=
  match l, s with
  | [], _ => []
  | x :: l', O => f x :: l'
  | x :: l', S s' => x :: update s' f l'
  end.

(** [this.last = a] *)
Definition set_last (s : ref) (a : jsval) (w : World) : World :=
  mkWorld
    (update s (fun x => mkStream a (eventListeners x) (cbListeners x) (class x))
       (streams w))
    (ext w).

(** [s.eventListeners.push(e)] *)
Definition add_eventListener (s e : ref) (w : World) : World :=
  mkWorld
    (update s (fun x => mkStream (last x) (eventListeners x ++ [e]) (cbListeners x) (class x))
       (streams w))
    (ext w).

(** [subscribe(fn)]: [this.cbListeners.push(fn)] *)
Definition subscribe (fn : cbid) (s : ref) (w : World) : World :=
  mkWorld
    (update s (fun x => mkStream (last x) (eventListeners x) (cbListeners x ++ [fn]) (class x))
       (streams w))
    (ext w).

(** [new C(...)]: a new object with empty listener arrays. *)
Definition new_Stream (c : Class) (last0 : jsval) (w : World) : ref * World :=
  (length (streams w), mkWorld (streams w ++ [mkStream last0 [] [] c]) (ext w)).

(** [map(fn)]: [const e = new MapStream(fn); this.eventListeners.push(e);
    return e;] and its siblings. *)
Definition map (fn : jsval -> jsval) (s : ref) (w : World) : ref * World :=
  let (e, w1) := new_Stream (MapStream fn) VUndefined w in
  (e, add_eventListener s e w1).

Definition filter (fn : jsval -> jsval) (s : ref) (w : World) : ref * World :=
  let (e, w1) := new_Stream (FilterStream fn) VUndefined w in
  (e, add_eventListener s e w1).

Definition scan (fn : jsval -> jsval -> jsval) (startingValue : jsval) (s : ref)
    (w : World) : ref * World :=
  let (e, w1) := new_Stream (ScanStream fn) startingValue w in
  (e, add_eventListener s e w1).

Definition merge (s otherStream : ref) (w : World) : ref * World :=
  let (e, w1) := new_Stream SinkStream VUndefined w in
  (e, add_eventListener otherStream e (add_eventListener s e w1)).

(** [snapshot(behavior, stream)]: the constructor of [SnapshotStream] runs
    [stream.eventListeners.push(this)]. *)
Definition snapshot (behavior : Behavior) (s : ref) (w : World) : ref * World :=
  let (e, w1) := new_Stream (SnapshotStream behavior) VUndefined w in
  (e, add_eventListener s e w1).

Definition snapshotWith (fn : jsval -> jsval -> jsval) (behavior : Behavior)
    (s : ref) (w : World) : ref * World :=
  let (e, w1) := new_Stream (SnapshotWithStream fn behavior) VUndefined w in
  (e, add_eventListener s e w1).

(** What a callback listener does when called: any change of the world. *)
Variable run_cb : cbid -> jsval -> World -> World.

(** Modelled from the spec: [at] of the module [./Behavior], which is not
    among the sources: "returns the current value of a Behavior", sampled
    "without side effects on the graph". *)
Variable at_ : Behavior -> World -> jsval.

(** [for (; i < l; i++) { this.cbListeners[i](a); }] with [n = l - i]
    iterations to go; the array is read at every iteration. *)
Fixpoint cb_loop (s : ref) (a : jsval) (n i : nat) (w : World) (tr : list Event)
  : Result :=
  match n with
  | O => Done w tr
  | S n' =>
      match get s w with
      | None => Throw w tr
      | Some st =>
          match nth_error (cbListeners st) i with
          | None => Throw w tr
          | Some cb =>
              cb_loop s a n' (S i) (run_cb cb a w) (tr ++ [ECallback s i cb a])
          end
      end
  end.

Section Publish.

(** The [push] method of the stream objects, for the calls [publish]
    makes. *)
Variable push' : ref -> jsval -> World -> Result.

(** [for (; i < l; i++) { this.eventListeners[i].push(a); }] *)
Fixpoint ev_loop (s : ref) (a : jsval) (n i : nat) (w : World) (tr : list Event)
  : Result :=
  match n with
  | O => Done w tr
  | S n' =>
      match get s w with
      | None => Throw w tr
      | Some st =>
          match nth_error (eventListeners st) i with
          | None => Throw w tr
          | Some e =>
              match push' e a w with
              | Done w' inner => ev_loop s a n' (S i) w' (tr ++ [EPush s i e a inner])
              | Throw w' inner => Throw w' (tr ++ [EPush s i e a inner])
              | OutOfFuel => OutOfFuel
              end
          end
      end
  end.

(** [publish(a)] *)
Definition publish_with (s : ref) (a : jsval) (w : World) : Result :=
  match get s w with
  | None => Throw w []
  | Some st =>
      let w1 := set_last s a w in
      match cb_loop s a (length (cbListeners st)) 0 w1 [EPublish s a] with
      | Done w2 tr =>
          match get s w2 with
          | None => Throw w2 tr
          | Some st2 => ev_loop s a (length (eventListeners st2)) 0 w2 tr
          end
      | r => r
      end
  end.

End Publish.

(** [push(a)], by the class of the object. *)
Fixpoint push (fuel : nat) (s : ref) (a : jsval) (w : World) : Result :=
  match fuel with
  | O => OutOfFuel
  | S fuel' =>
      match get s w with
      | None => Throw w []
      | Some st =>
          match class st with
          | SinkStream => publish_with (push fuel') s a w
          | MapStream fn => publish_with (push fuel') s (fn a) w
          | FilterStream fn =>
              if truthy (fn a) then publish_with (push fuel') s a w else Done w []
          | ScanStream fn => publish_with (push fuel') s (fn a (last st)) w
          | SnapshotStream behavior =>
              publish_with (push fuel') s (VArr [a; at_ behavior w]) w
          | SnapshotWithStream fn behavior =>
              publish_with (push fuel') s (fn a (at_ behavior w)) w
          end
      end
  end.

Definition publish (fuel : nat) : ref -> jsval -> World -> Result :=
  publish_with (push fuel).

(** Successive [publish] calls on one stream. *)
Fixpoint publish_all (fuel : nat) (s : ref) (occs : list jsval) (w : World)
    (tr : list Event) : Result :=
  match occs with
  | [] => Done w tr
  | a :: rest =>
      match publish fuel s a w with
      | Done w' tr' => publish_all fuel s rest w' (tr ++ tr')
      | Throw w' tr' => Throw w' (tr ++ tr')
      | OutOfFuel => OutOfFuel
      end
  end.

End World.

Arguments Done {Ext} w trace.
Arguments Throw {Ext} w trace.
Arguments OutOfFuel {Ext}.
Arguments mkWorld {Ext} streams ext.
Arguments streams {Ext} w.
Arguments ext {Ext} w.
Arguments get {Ext} s w.
Arguments set_last {Ext} s a w.
Arguments add_eventListener {Ext} s e w.
Arguments subscribe {Ext} fn s w.
Arguments new_Stream {Ext} c last0 w.
Arguments map {Ext} fn s w.
Arguments filter {Ext} fn s w.
Arguments scan {Ext} fn startingValue s w.
Arguments merge {Ext} s otherStream w.
Arguments snapshot {Ext} behavior s w.
Arguments snapshotWith {Ext} fn behavior s w.
Arguments cb_loop {Ext} run_cb s a n i w tr.
Arguments ev_loop {Ext} push' s a n i w tr.
Arguments publish_with {Ext} run_cb push' s a w.
Arguments push {Ext} run_cb at_ fuel s a w.
Arguments publish {Ext} run_cb at_ fuel s a w.
Arguments publish_all {Ext} run_cb at_ fuel s occs w tr.

(** The occurrences a stream published, read off what a call did. *)
Fixpoint occurrences (s : ref) (e : Event) : list jsval :=
  match e with
  | EPublish s' a => if Nat.eqb s' s then [a] else []
  | ECallback _ _ _ _ => []
  | EPush _ _ _ _ inner => flat_map (occurrences s) inner
  end.

Definition published_by (s : ref) (tr : list Event) : list jsval :=
  flat_map (occurrences s) tr.

(** The index of the listener an event called, if it called one. *)
Definition callback_index (s : ref) (e : Event) : option nat :=
  match e with
  | ECallback s' i _ _ => if Nat.eqb s' s then Some i else None
  | _ => None
  end.

Definition push_index (s : ref) (e : Event) : option nat :=
  match e with
  | EPush s' i _ _ _ => if Nat.eqb s' s then Some i else None
  | _ => None
  end.

(** A callback that records what it is called with and leaves the stream
    objects alone (a spy). *)
Definition spy (cb : cbid) (v : jsval) (w : World (list (cbid * jsval)))
  : World (list (cbid * jsval)) :=
  mkWorld (streams w) (ext w ++ [(cb, v)]).

(** A callback that calls [s.map(x => x)] on the stream it listens to. *)
Definition mapper (s : ref) (cb : cbid) (v : jsval) (w : World unit) : World unit :=
  snd (map (fun x => x) s w).

(** The calls a callback loop makes on callbacks that stay in place. *)
Fixpoint callback_events (s : ref) (a : jsval) (i : nat) (cbs : list cbid)
  : list Event :=
  match cbs with
  | [] => []
  | cb :: rest => ECallback s i cb a :: callback_events s a (S i) rest
  end.

(** A stream (object 0, of any class) with the streams
    1 = [map(f, s)], 2 = [map(g, map(f, s))], 3 = [map(x => g(f(x)), s)]
    and 4 = [map(x => x, s)] built over it. *)
Definition map_network {Ext} (k : Class) (last0 : jsval) (f g : jsval -> jsval)
    (e0 : Ext) : World Ext :=
  let w0 := mkWorld [mkStream last0 [] [] k] e0 in
  let w1 := snd (map f 0 w0) in
  let w2 := snd (map g 1 w1) in
  let w3 := snd (map (fun x => g (f x)) 0 w2) in
  snd (map (fun x => x) 0 w3).


(** A sink stream (object 0), [snapshot(b, s)] (object 1) and a callback
    subscribed to the snapshot. *)
Definition snapshot_network {Ext} (b : Behavior) (cb : cbid) (e0 : Ext) : World Ext :=
  let w0 := snd (new_Stream SinkStream VUndefined (mkWorld [] e0)) in
  let w1 := snd (snapshot b 0 w0) in
  subscribe cb 1 w1.

(** A callback listener that leaves the stream objects alone: it does not
    subscribe, attach a stream or publish. *)
Definition inert {Ext} (run_cb : cbid -> jsval -> World Ext -> World Ext) : Prop :=
  forall cb v w, streams (run_cb cb v w) = streams w.

(** [s.subscribe(cb)] for each callback of [cbs], in order. *)
Definition subscribe_all {Ext} (cbs : list cbid) (s : ref) (w : World Ext)
  : World Ext :=
  fold_left (fun w' cb => subscribe cb s w') cbs w.

(** A stream (object 0, of any class) with the streams
    1 = [map(f, s)], 2 = [map(g, map(f, s))], 3 = [map(x => g(f(x)), s)]
    and 4 = [map(x => x, s)] built over it, and subscribers on each of the
    five streams. *)
Definition subscribed_map_network {Ext} (k : Class) (last0 : jsval)
    (f g : jsval -> jsval) (cbs0 cbs1 cbs2 cbs3 cbs4 : list cbid) (e0 : Ext)
  : World Ext :=
  subscribe_all cbs4 4
    (subscribe_all cbs3 3
       (subscribe_all cbs2 2
          (subscribe_all cbs1 1
             (subscribe_all cbs0 0 (map_network k last0 f g e0))))).

(** The stream objects of that network, with any values in the fields
    [last]. *)
Definition map_network_streams (k : Class) (f g : jsval -> jsval)
    (cbs0 cbs1 cbs2 cbs3 cbs4 : list cbid) (l0 l1 l2 l3 l4 : jsval) : list Stream :=
  [mkStream l0 [1; 3; 4] cbs0 k;
   mkStream l1 [2] cbs1 (MapStream f);
   mkStream l2 [] cbs2 (MapStream g);
   mkStream l3 [] cbs3 (MapStream (fun x => g (f x)));
   mkStream l4 [] cbs4 (MapStream (fun x => x))].

(** A subscriber of stream 0 (callback 7) that records what it is called
    with and, called with 1, runs [s.publish(2)] on stream 0; that publish
    calls the callbacks with 2, which they only record. Every other
    callback is a spy. *)
Definition republisher (cb : cbid) (v : jsval) (w : World (list (cbid * jsval)))
  : World (list (cbid * jsval)) :=
  let w1 := spy cb v w in
  match v with
  | VNum 1 =>
      if Nat.eqb cb 7
      then match publish spy (fun _ _ => VUndefined) 1 0 (VNum 2) w1 with
           | Done w2 _ => w2
           | _ => w1
           end
      else w1
  | _ => w1
  end.

(** A sink stream [s] (object 0) with the subscriber 7, and [map(x => x, s)]
    (object 1) with the subscriber 8. *)
Definition reentrant_network : World (list (cbid * jsval)) :=
  let w0 := snd (new_Stream SinkStream VUndefined (mkWorld [] [])) in
  let w1 := subscribe 7 0 w0 in
  let w2 := snd (map (fun x => x) 0 w1) in
  subscribe 8 1 w2.

End StreamTs.

(** * future.ts: [Future], [CombineFuture] and the sinks *)

Module FutureTs.

(** A future object; a tick of the clock. *)
Definition ref : Type := nat.
Definition Time : Type := Z.

(** Modelled from the spec: the states of a reactive in the module
    [./common] that [future.ts] imports, which is not among the sources:
    "state in {Inactive, Push, Pull, OnlyPull, Done}". *)
Inductive State : Type := Inactive | Push | Pull | OnlyPull | Done.

(** What a listener node carries ([node.value]): a future, whose [pushS]
    is called, or an outside observer that calls its callback. *)
Inductive Listener : Type :=
| LFuture (f : ref)
| LSubscriber (cb : nat).

(** [Node]: an entry of a list of children, with its identity. *)
Record Node : Type := mkNode {
  node_id : nat;
  node_value : Listener
}.

Inductive Class : Type :=
| SinkFuture
| CombineFuture (future1 future2 : ref)
| MapFuture (f : jsval -> jsval) (parent : ref)
| MapToFuture (parent : ref)
| OfFuture
| NeverFuture.

Record Future : Type := mkFuture {
  state : State;
  value : jsval;
  children : list Node;
  parents : list ref;
  listenerNodes : list (Node * ref);
  class : Class
}.

(** What happened, in order: a future ran [resolve], a subscriber's
    callback was called. *)
Inductive Event : Type :=
| EResolve (f : ref) (val : jsval) (t : Time)
| ECallback (cb : nat) (val : jsval).

Record World : Type := mkWorld {
  heap : list Future;
  next_node : nat;
  trace : list Event
}.

Inductive Ret : Type := RVoid | RState (s : State).

Inductive Result : Type :=
| Ok (ret : Ret) (w : World)
| Throw (msg : string) (w : World)
| OutOfFuel.

Definition bind (r : Result) (k : World -> Result) : Result :=
  match r with
  | Ok _ w => k w
  | e => e
  end.

Fixpoint foreach {A : Type} (body : A -> World -> Result) (l : list A) (w : World)
  : Result :=
  match l with
  | [] => Ok RVoid w
  | x :: l' => bind (body x w) (foreach body l')
  end.

Definition get (f : ref) (w : World) : option Future := nth_error (heap w) f.

Fixpoint update (f : ref) (g : Future -> Future) (l : list Future) : list Future :=
  match l, f with
  | [], _ => []
  | x :: l', O => g x :: l'
  | x :: l', S f' => x :: update f' g l'
  end.

Definition modify (f : ref) (g : Future -> Future) (w : World) : World :=
  mkWorld (update f g (heap w)) (next_node w) (trace w).

Definition log (e : Event) (w : World) : World :=
  mkWorld (heap w) (next_node w) (trace w ++ [e]).

Definition set_state (s : State) (x : Future) : Future :=
  mkFuture s (value x) (children x) (parents x) (listenerNodes x) (class x).

Definition set_value (v : jsval) (x : Future) : Future :=
  mkFuture (state x) v (children x) (parents x) (listenerNodes x) (class x).

Definition set_children (c : list Node) (x : Future) : Future :=
  mkFuture (state x) (value x) c (parents x) (listenerNodes x) (class x).

Definition set_listenerNodes (l : list (Node * ref)) (x : Future) : Future :=
  mkFuture (state x) (value x) (children x) (parents x) l (class x).

(** [new Node(v)] *)
Definition new_Node (v : Listener) (w : World) : Node * World :=
  (mkNode (next_node w) v, mkWorld (heap w) (S (next_node w)) (trace w)).

Definition unlink (node : Node) (l : list Node) : list Node :=
  List.filter (fun n => negb (Nat.eqb (node_id n) (node_id node))) l.

Definition is_state (s s' : State) : bool :=
  match s, s' with
  | Inactive, Inactive | Push, Push | Pull, Pull | OnlyPull, OnlyPull
  | Done, Done => true
  | _, _ => false
  end.

(** Futures made by [ActiveFuture] ("stateful futures that are always
    active"). *)
Definition always_active (c : Class) : bool :=
  match c with
  | SinkFuture => true
  | _ => false
  end.

(** Modelled from the spec: the state [activate] adopts, in the missing
    [Reactive]: "the join of parent states (Push if any parent Push and
    this operator supports push; Pull if all relevant parents Pull;
    OnlyPull if any parent OnlyPull)"; otherwise the state stays. *)
Definition join (parent_states : list State) (current : State) : State :=
  if existsb (is_state OnlyPull) parent_states then OnlyPull
  else if existsb (is_state Push) parent_states then Push
  else match parent_states with
       | [] => current
       | _ => if forallb (is_state Pull) parent_states then Pull else current
       end.

Definition parent_states (w : World) (ps : list ref) : list State :=
  flat_map (fun p => match get p w with Some x => [state x] | None => [] end) ps.

(** The method calls that cross objects; [exec] below runs them. *)
Inductive Op : Type :=
| PushS (l : Listener) (t : Time) (val : jsval)
| Resolve (f : ref) (val : jsval) (t : Time)
| AddListener (f : ref) (node : Node) (t : Time)
| RemoveListener (f : ref) (node : Node)
| Activate (f : ref) (t : Time)
| Deactivate (f : ref) (done : bool).

Section Methods.

(** The calls a method makes on other objects. *)
Variable call : Op -> World -> Result.

(** [pushS(t, val)] of a listener: of each class of future in
    [future.ts], and of an outside observer, which calls its callback. *)
Definition pushS (l : Listener) (t : Time) (val : jsval) (w : World) : Result :=
  match l with
  | LSubscriber cb => Ok RVoid (log (ECallback cb val) w)
  | LFuture f =>
      match get f w with
      | None => Throw "no such object" w
      | Some x =>
          match class x with
          | CombineFuture _ _ => call (Resolve f val t) w
          | MapFuture fn _ => call (Resolve f (fn val) t) w
          | MapToFuture _ => call (Resolve f (value x) t) w
          | SinkFuture => Throw "A sink should not be pushed to." w
          | OfFuture => Throw "A PureFuture should never be pushed to." w
          | NeverFuture => Throw "A NeverFuture should never be pushed to." w
          end
      end
  end.

(** [pushSToChildren(t, val)]:
    [for (const child of this.children) child.pushS(t, val);]
    Modelled from the spec: the list of children is the missing
    "intrusive doubly-linked list of observer Nodes", visited "in
    insertion order"; the loop visits the nodes linked when it begins. *)
Definition pushSToChildren (f : ref) (t : Time) (val : jsval) (w : World) : Result :=
  match get f w with
  | None => Throw "no such object" w
  | Some x =>
      foreach (fun child => call (PushS (node_value child) t val)) (children x) w
  end.

(** [resolve(val, t)]:
    [this.deactivate(true); this.value = val; this.pushSToChildren(t, val);] *)
Definition resolve (f : ref) (val : jsval) (t : Time) (w : World) : Result :=
  bind (call (Deactivate f true) w) (fun w1 =>
    pushSToChildren f t val
      (log (EResolve f val t) (modify f (set_value val) w1))).

(** Modelled from the spec: [addListener] of the missing [Reactive]:
    "links the node into listeners; if it was empty, invokes activate()
    ... Returns current state". *)
Definition Reactive_addListener (f : ref) (node : Node) (t : Time) (w : World)
  : Result :=
  match get f w with
  | None => Throw "no such object" w
  | Some x =>
      let w1 := modify f (set_children (children x ++ [node])) w in
      bind (match children x with
            | [] => call (Activate f t) w1
            | _ => Ok RVoid w1
            end)
           (fun w2 =>
              match get f w2 with
              | Some x2 => Ok (RState (state x2)) w2
              | None => Throw "no such object" w2
              end)
  end.

(** [addListener(node, t)] of [Future]:
    [if (this.state === State.Done) { node.value.pushS(t, this.value);
     return State.Done; } else { return super.addListener(node, t); }] *)
Definition addListener (f : ref) (node : Node) (t : Time) (w : World) : Result :=
  match get f w with
  | None => Throw "no such object" w
  | Some x =>
      match state x with
      | Done =>
          match call (PushS (node_value node) t (value x)) w with
          | Ok _ w' => Ok (RState Done) w'
          | e => e
          end
      | _ => Reactive_addListener f node t w
      end
  end.

(** Modelled from the spec: [activate] of the missing [Reactive], which
    "subscribes to all parents and computes initial state as the join of
    parent states"; a future resolved while it subscribes stays Done
    ("Done is terminal"). An [ActiveFuture] overrides it in [future.ts]
    with the empty method [activate(): void {}]. *)
Definition activate (f : ref) (t : Time) (w : World) : Result :=
  match get f w with
  | None => Throw "no such object" w
  | Some x =>
      if always_active (class x) then Ok RVoid w
      else
        bind (foreach
                (fun p w0 =>
                   let (node, w1) := new_Node (LFuture f) w0 in
                   call (AddListener p node t)
                     (modify f (fun y => set_listenerNodes (listenerNodes y ++ [(node, p)]) y)
                        w1))
                (parents x) w)
             (fun w' =>
                Ok RVoid
                  (modify f
                     (fun y =>
                        match state y with
                        | Done => y
                        | s => set_state (join (parent_states w' (parents y)) s) y
                        end) w'))
  end.

(** Modelled from the spec: [deactivate(done)] of the missing [Reactive]:
    it "unsubscribes from parents" and the reactive "returns to Inactive
    (except Done)"; sinks are "always active"; with [done = true], as
    [resolve] calls it, "state=Done, parents unsubscribed". *)
Definition deactivate (f : ref) (done : bool) (w : World) : Result :=
  match get f w with
  | None => Throw "no such object" w
  | Some x =>
      bind (foreach (fun np => call (RemoveListener (snd np) (fst np)))
              (listenerNodes x) w)
           (fun w1 =>
              Ok RVoid
                (modify f
                   (fun y =>
                      set_listenerNodes []
                        (set_state
                           (if done then Done
                            else match state y with
                                 | Done => Done
                                 | s => if always_active (class y) then s else Inactive
                                 end) y)) w1))
  end.

(** Modelled from the spec: [removeListener] of the missing [Reactive]:
    "unlinks; if the list becomes empty, invokes deactivate()". *)
Definition removeListener (f : ref) (node : Node) (w : World) : Result :=
  match get f w with
  | None => Throw "no such object" w
  | Some x =>
      let w1 := modify f (set_children (unlink node (children x))) w in
      match unlink node (children x) with
      | [] => call (Deactivate f false) w1
      | _ => Ok RVoid w1
      end
  end.

End Methods.

(** The methods, with a bound on the depth of the calls between objects. *)
Fixpoint exec (fuel : nat) (op : Op) (w : World) : Result :=
  match fuel with
  | O => OutOfFuel
  | S n =>
      match op with
      | PushS l t val => pushS (exec n) l t val w
      | Resolve f val t => resolve (exec n) f val t w
      | AddListener f node t => addListener (exec n) f node t w
      | RemoveListener f node => removeListener (exec n) f node w
      | Activate f t => activate (exec n) f t w
      | Deactivate f done => deactivate (exec n) f done w
      end
  end.

(** [subscribe(callback)]: a new observer adds itself as a listener. *)
Definition subscribe (fuel : nat) (cb : nat) (f : ref) (t : Time) (w : World)
  : Result :=
  let (node, w1) := new_Node (LSubscriber cb) w in
  exec fuel (AddListener f node t) w1.

Definition new_Future (x : Future) (w : World) : ref * World :=
  (length (heap w), mkWorld (heap w ++ [x]) (next_node w) (trace w)).

(** [sinkFuture()]: [ActiveFuture]'s constructor sets the state Push. *)
Definition sinkFuture (w : World) : ref * World :=
  new_Future (mkFuture Push VUndefined [] [] [] SinkFuture) w.

(** [f1.combine(f2)]: [this.parents = cons(future1, cons(future2))]. *)
Definition combine (future1 future2 : ref) (w : World) : ref * World :=
  new_Future
    (mkFuture Inactive VUndefined [] [future1; future2] [] (CombineFuture future1 future2))
    w.

(** [Future.of(b)]: [this.state = State.Done]. *)
Definition of_ (b : jsval) (w : World) : ref * World :=
  new_Future (mkFuture Done b [] [] [] OfFuture) w.

Definition empty_World : World := mkWorld [] 0 [].

(** Two sink futures (objects 0 and 1), their [combine] (object 2) and a
    subscriber with callback [cb] on it. *)
Definition combine_network (cb : nat) (t0 : Time) : Result :=
  let w1 := snd (sinkFuture empty_World) in
  let w2 := snd (sinkFuture w1) in
  let w3 := snd (combine 0 1 w2) in
  subscribe 10 cb 2 t0 w3.

(** The world [combine_network 9 0] builds. *)
Definition combine_world : World :=
  mkWorld
    [mkFuture Push VUndefined [mkNode 1 (LFuture 2)] [] [] SinkFuture;
     mkFuture Push VUndefined [mkNode 2 (LFuture 2)] [] [] SinkFuture;
     mkFuture Push VUndefined [mkNode 0 (LSubscriber 9)] [0; 1]
       [(mkNode 1 (LFuture 2), 0); (mkNode 2 (LFuture 2), 1)]
       (CombineFuture 0 1)]
    3 [].


(** A sink future (object 0) with one subscriber. *)
Definition sink_network (cb : nat) (t0 : Time) : Result :=
  subscribe 10 cb 0 t0 (snd (sinkFuture empty_World)).

Definition state_of (f : ref) (w : World) : option State :=
  option_map state (get f w).



End FutureTs.

(** * future.ts: the semantic representation of futures *)

Module FutureSemantics.

Open Scope Z_scope.

(** The [time] of a semantic future: a number (a tick of the clock, or
    [-Infinity] for [Future.of]) or the string ["infinity"]. *)
Inductive SemTime : Type :=
| NegInfinity
| Tick (t : Z)
| InfinityString.

(** [SemanticFuture<A> = Occurrence<A> | typeof neverOccurringFuture] *)
Record SemanticFuture : Type := mkSem {
  time : SemTime;
  value : jsval
}.

Definition neverOccurringFuture : SemanticFuture := mkSem InfinityString VUndefined.

(** [future.time !== "infinity"] *)
Definition doesOccur (future : SemanticFuture) : bool :=
  match time future with
  | InfinityString => false
  | _ => true
  end.

(** [a <= b] on times, as JavaScript compares: two numbers as numbers,
    two strings as strings, and a number with the string ["infinity"] after
    converting the string to a number, which gives [NaN] and so [false]. *)
Definition time_le (a b : SemTime) : bool :=
  match a, b with
  | InfinityString, InfinityString => true
  | InfinityString, _ => false
  | _, InfinityString => false
  | NegInfinity, _ => true
  | Tick _, NegInfinity => false
  | Tick x, Tick y => x <=? y
  end.

(** The futures that [future.ts] builds without an outside event. *)
Inductive Future : Type :=
| TestFuture (time : Z) (value : jsval)
| OfFuture (value : jsval)
| NeverFuture
| SinkFuture
| CombineFuture (future1 future2 : Future)
| MapFuture (f : jsval -> jsval) (parent : Future)
| MapToFuture (value : jsval) (parent : Future).

(** [semantic()]; [None] when it throws ("The SinkFuture does not have a
    semantic representation"). *)
Fixpoint semantic (f : Future) : option SemanticFuture :=
  match f with
  | TestFuture t v => Some (mkSem (Tick t) v)
  | OfFuture v => Some (mkSem NegInfinity v)
  | NeverFuture => Some neverOccurringFuture
  | SinkFuture => None
  | CombineFuture future1 future2 =>
      match semantic future1 with
      | None => None
      | Some a =>
          match semantic future2 with
          | None => None
          | Some b => Some (if time_le (time a) (time b) then a else b)
          end
      end
  | MapFuture fn parent =>
      match semantic parent with
      | None => None
      | Some p =>
          Some (if doesOccur p then mkSem (time p) (fn (value p))
                else neverOccurringFuture)
      end
  | MapToFuture v parent =>
      match semantic parent with
      | None => None
      | Some p =>
          Some (if doesOccur p then mkSem (time p) v else neverOccurringFuture)
      end
  end.

End FutureSemantics.

(** * The reactive base: listeners that subscribe or unsubscribe during a push *)

Module FrpCommonExtra.

Import FrpCommon.

(** An observer [c] whose [push] unsubscribes it from the source that is
    pushing ([this.source.removeListener(this)], as
    [PushOnlyObserver.deactivate] does); the source holds three or more
    listeners, so [removeListener] takes its last branch on the array. *)
Definition self_remover (c : Observer) : Observer -> jsval -> list Obj -> list Obj :=
  fun o _ ls => if Nat.eqb o c then remove_from_array ls c else ls.

(** An observer [c] whose [push] subscribes the observer [d] to the source
    that is pushing; the source holds two or more listeners, so
    [addListener] runs [this.child.listeners.push(d)]. *)
Definition subscriber_of (c d : Observer) : Observer -> jsval -> list Obj -> list Obj :=
  fun o _ ls => if Nat.eqb o c then ls ++ [Obs d] else ls.

(** The calls [push(a)] a loop makes on the observers [os], in order. *)
Definition pushes (a : jsval) (os : list Observer) : list (Observer * jsval) :=
  map (fun o => (o, a)) os.

End FrpCommonExtra.

(** * Stream.ts: networks of derived streams *)

Module StreamExtra.

Import StreamTs.

(** Successive [publish] calls, each on the stream it names. *)
Fixpoint publish_each {Ext} (run_cb : cbid -> jsval -> World Ext -> World Ext)
    (at_ : Behavior -> World Ext -> jsval) (fuel : nat)
    (occs : list (ref * jsval)) (w : World Ext) (tr : list Event) : Result Ext :=
  match occs with
  | [] => Done w tr
  | (s, a) :: rest =>
      match publish run_cb at_ fuel s a w with
      | Done w' tr' => publish_each run_cb at_ fuel rest w' (tr ++ tr')
      | Throw w' tr' => Throw w' (tr ++ tr')
      | OutOfFuel => OutOfFuel
      end
  end.

(** The calls a spy records when it is called with the values [vs]. *)
Definition calls (cb : cbid) (vs : list jsval) : list (cbid * jsval) :=
  List.map (fun v => (cb, v)) vs.

(** A stream [s] (object 0, of any class) with the subscribers [cbs0] and
    [filter(p, s)] (object 1) with the subscribers [cbs1]. *)
Definition filter_network {Ext} (k : Class) (last0 : jsval) (p : jsval -> jsval)
    (cbs0 cbs1 : list cbid) (e0 : Ext) : World Ext :=
  let w0 := mkWorld [mkStream last0 [] [] k] e0 in
  let w1 := snd (filter p 0 w0) in
  subscribe_all cbs1 1 (subscribe_all cbs0 0 w1).

(** The stream objects of that network, with any values in the fields
    [last]. *)
Definition filter_network_streams (k : Class) (p : jsval -> jsval)
    (cbs0 cbs1 : list cbid) (l0 l1 : jsval) : list Stream :=
  [mkStream l0 [1] cbs0 k; mkStream l1 [] cbs1 (FilterStream p)].

(** A stream [s] (object 0, of any class) with the subscribers [cbs0] and
    [scan(fn, startingValue, s)] (object 1) with the subscribers [cbs1]. *)
Definition scan_network {Ext} (k : Class) (last0 : jsval)
    (fn : jsval -> jsval -> jsval) (startingValue : jsval)
    (cbs0 cbs1 : list cbid) (e0 : Ext) : World Ext :=
  let w0 := mkWorld [mkStream last0 [] [] k] e0 in
  let w1 := snd (scan fn startingValue 0 w0) in
  subscribe_all cbs1 1 (subscribe_all cbs0 0 w1).

Definition scan_network_streams (k : Class) (fn : jsval -> jsval -> jsval)
    (cbs0 cbs1 : list cbid) (l0 l1 : jsval) : list Stream :=
  [mkStream l0 [1] cbs0 k; mkStream l1 [] cbs1 (ScanStream fn)].

(** The successive accumulators of [fn] over the occurrences [occs],
    starting from [acc]. *)
Fixpoint scan_values (fn : jsval -> jsval -> jsval) (acc : jsval) (occs : list jsval)
  : list jsval :=
  match occs with
  | [] => []
  | a :: rest => fn a acc :: scan_values fn (fn a acc) rest
  end.

(** Two streams (objects 0 and 1, of any classes) that have no listener
    in common but [merge(s0, s1)] (object 2), with the subscribers [cbs0],
    [cbs1] and [cbs2] on the three streams. *)
Definition merge_network {Ext} (k0 k1 : Class) (last0 last1 : jsval)
    (cbs0 cbs1 cbs2 : list cbid) (e0 : Ext) : World Ext :=
  let w0 := mkWorld [mkStream last0 [] [] k0; mkStream last1 [] [] k1] e0 in
  let w1 := snd (merge 0 1 w0) in
  subscribe_all cbs2 2 (subscribe_all cbs1 1 (subscribe_all cbs0 0 w1)).

Definition merge_network_streams (k0 k1 : Class) (cbs0 cbs1 cbs2 : list cbid)
    (l0 l1 l2 : jsval) : list Stream :=
  [mkStream l0 [2] cbs0 k0; mkStream l1 [2] cbs1 k1;
   mkStream l2 [] cbs2 SinkStream].

(** A stream (object 0, of any class), [merge(s, s)] (object 1) and a spy
    subscribed to the merged stream. *)
Definition merge_self_network (k : Class) (last0 : jsval) (cb : cbid)
  : World (list (cbid * jsval)) :=
  let w0 := mkWorld [mkStream last0 [] [] k] [] in
  let w1 := snd (merge 0 0 w0) in
  subscribe cb 1 w1.

Definition merge_self_network_at (k : Class) (cb : cbid) (l0 l1 : jsval)
    (log : list (cbid * jsval)) : World (list (cbid * jsval)) :=
  mkWorld [mkStream l0 [1; 1] [] k; mkStream l1 [] [cb] SinkStream] log.

Section Sampling.

(** The state outside the streams, what a subscriber does to it and what
    a behavior reads from it. *)
Variable Ext : Type.
Variable write : cbid -> jsval -> Ext -> Ext.
Variable read : Behavior -> Ext -> jsval.

(** A subscriber that changes the outside state only. *)
Definition writer (cb : cbid) (a : jsval) (w : World Ext) : World Ext :=
  mkWorld (streams w) (write cb a (ext w)).

(** A behavior whose value is read from the outside state. *)
Definition reader (b : Behavior) (w : World Ext) : jsval := read b (ext w).

(** A stream (object 0, of any class), [snapshotWith(fn, b, s)]
    (object 1), and a subscriber [cb] of [s] attached after the snapshot
    stream. *)
Definition sampling_network (k : Class) (last0 : jsval)
    (fn : jsval -> jsval -> jsval) (b : Behavior) (cb : cbid) (e : Ext) : World Ext :=
  let w0 := mkWorld [mkStream last0 [] [] k] e in
  let w1 := snd (snapshotWith fn b 0 w0) in
  subscribe cb 0 w1.

Definition sampling_network_at (k : Class) (fn : jsval -> jsval -> jsval)
    (b : Behavior) (cb : cbid) (l0 l1 : jsval) (e : Ext) : World Ext :=
  mkWorld [mkStream l0 [1] [cb] k; mkStream l1 [] [] (SnapshotWithStream fn b)] e.

(** For the occurrences [occs]: [fn] applied to each occurrence and to
    the value the behavior has once the subscriber has been called with
    that occurrence. *)
Fixpoint sampled (fn : jsval -> jsval -> jsval) (b : Behavior) (cb : cbid) (e : Ext)
    (occs : list jsval) : list jsval :=
  match occs with
  | [] => []
  | a :: rest =>
      fn a (read b (write cb a e)) :: sampled fn b cb (write cb a e) rest
  end.

End Sampling.

Arguments writer {Ext} write cb a w.
Arguments reader {Ext} read b w.
Arguments sampling_network {Ext} k last0 fn b cb e.
Arguments sampling_network_at {Ext} k fn b cb l0 l1 e.
Arguments sampled {Ext} write read fn b cb e occs.

End StreamExtra.

(** * Stream.ts: the listener arrays as shared objects, and the setter [def] *)

Module StreamDef.

Import StreamTs.

(** An array object. *)
Definition aref : Type := nat.

(** A stream object. Its fields [eventListeners] and [cbListeners] hold
    references to arrays; the setter [def] makes two streams hold the same
    arrays. *)
Record Stream : Type := mkStream {
  last : jsval;
  eventListeners : aref;
  cbListeners : aref;
  class : Class
}.

Section World.

Variable Ext : Type.

(** The stream objects, the arrays of event listeners, the arrays of
    callbacks, and the state outside the streams. *)
Record World : Type := mkWorld {
  streams : list Stream;
  evArrays : list (list ref);
  cbArrays : list (list cbid);
  ext : Ext
}.

Inductive Result : Type :=
| Done (w : World) (trace : list Event)
| Throw (w : World) (trace : list Event)
| OutOfFuel.

Definition get (s : ref) (w : World) : option Stream := nth_error (streams w) s.

Fixpoint update {A : Type} (i : nat) (f : A -> A) (l : list A) : list A :=
  match l, i with
  | [], _ => []
  | x :: l', O => f x :: l'
  | x :: l', S i' => x :: update i' f l'
  end.

(** [s.cbListeners] and [s.eventListeners], read through the reference. *)
Definition cbs_of (s : ref) (w : World) : option (list cbid) :=
  match get s w with
  | Some st => nth_error (cbArrays w) (cbListeners st)
  | None => None
  end.

Definition evs_of (s : ref) (w : World) : option (list ref) :=
  match get s w with
  | Some st => nth_error (evArrays w) (eventListeners st)
  | None => None
  end.

(** [this.last = a] *)
Definition set_last (s : ref) (a : jsval) (w : World) : World :=
  mkWorld
    (update s (fun x => mkStream a (eventListeners x) (cbListeners x) (class x))
       (streams w))
    (evArrays w) (cbArrays w) (ext w).

(** [arr.push(...items)] on an array of callbacks, of event listeners. *)
Definition push_cbs (arr : aref) (items : list cbid) (w : World) : World :=
  mkWorld (streams w) (evArrays w)
    (update arr (fun l => l ++ items) (cbArrays w)) (ext w).

Definition push_evs (arr : aref) (items : list ref) (w : World) : World :=
  mkWorld (streams w)
    (update arr (fun l => l ++ items) (evArrays w)) (cbArrays w) (ext w).

(** [subscribe(fn)]: [this.cbListeners.push(fn)] *)
Definition subscribe (fn : cbid) (s : ref) (w : World) : World :=
  match get s w with
  | Some st => push_cbs (cbListeners st) [fn] w
  | None => w
  end.

(** [s.eventListeners.push(e)] *)
Definition add_eventListener (s e : ref) (w : World) : World :=
  match get s w with
  | Some st => push_evs (eventListeners st) [e] w
  | None => w
  end.

(** [new C(...)]: a new object with two new empty arrays
    ([eventListeners = []], [cbListeners = []]). *)
Definition new_Stream (c : Class) (last0 : jsval) (w : World) : ref * World :=
  (length (streams w),
   mkWorld
     (streams w ++ [mkStream last0 (length (evArrays w)) (length (cbArrays w)) c])
     (evArrays w ++ [[]]) (cbArrays w ++ [[]]) (ext w)).

(** [map(fn)]: [const e = new MapStream(fn); this.eventListeners.push(e);
    return e;] *)
Definition map (fn : jsval -> jsval) (s : ref) (w : World) : ref * World :=
  let (e, w1) := new_Stream (MapStream fn) VUndefined w in
  (e, add_eventListener s e w1).

(** [this.def = stream]:
    [stream.cbListeners.push(...this.cbListeners);
     stream.eventListeners.push(...this.eventListeners);
     this.cbListeners = stream.cbListeners;
     this.eventListeners = stream.eventListeners;]
    The elements spread into a call are read before [push] runs. *)
Definition set_def (this stream : ref) (w : World) : World :=
  match get this w, get stream w with
  | Some t, Some st =>
      let w1 :=
        match nth_error (cbArrays w) (cbListeners t) with
        | Some items => push_cbs (cbListeners st) items w
        | None => w
        end in
      let w2 :=
        match nth_error (evArrays w1) (eventListeners t) with
        | Some items => push_evs (eventListeners st) items w1
        | None => w1
        end in
      mkWorld
        (update this
           (fun x => mkStream (last x) (eventListeners st) (cbListeners st) (class x))
           (streams w2))
        (evArrays w2) (cbArrays w2) (ext w2)
  | _, _ => w
  end.

(** What a callback listener does when called: any change of the world. *)
Variable run_cb : cbid -> jsval -> World -> World.

(** Modelled from the spec: [at] of the module [./Behavior], which is not
    among the sources: "returns the current value of a Behavior". *)
Variable at_ : Behavior -> World -> jsval.

(** [for (; i < l; i++) { this.cbListeners[i](a); }] with [n = l - i]
    iterations to go; the field and the array are read at every
    iteration. *)
Fixpoint cb_loop (s : ref) (a : jsval) (n i : nat) (w : World) (tr : list Event)
  : Result :=
  match n with
  | O => Done w tr
  | S n' =>
      match cbs_of s w with
      | None => Throw w tr
      | Some arr =>
          match nth_error arr i with
          | None => Throw w tr
          | Some cb =>
              cb_loop s a n' (S i) (run_cb cb a w) (tr ++ [ECallback s i cb a])
          end
      end
  end.

Section Publish.

Variable push' : ref -> jsval -> World -> Result.

(** [for (; i < l; i++) { this.eventListeners[i].push(a); }] *)
Fixpoint ev_loop (s : ref) (a : jsval) (n i : nat) (w : World) (tr : list Event)
  : Result :=
  match n with
  | O => Done w tr
  | S n' =>
      match evs_of s w with
      | None => Throw w tr
      | Some arr =>
          match nth_error arr i with
          | None => Throw w tr
          | Some e =>
              match push' e a w with
              | Done w' inner => ev_loop s a n' (S i) w' (tr ++ [EPush s i e a inner])
              | Throw w' inner => Throw w' (tr ++ [EPush s i e a inner])
              | OutOfFuel => OutOfFuel
              end
          end
      end
  end.

(** [publish(a)] *)
Definition publish_with (s : ref) (a : jsval) (w : World) : Result :=
  let w1 := set_last s a w in
  match cbs_of s w1 with
  | None => Throw w []
  | Some cbs =>
      match cb_loop s a (length cbs) 0 w1 [EPublish s a] with
      | Done w2 tr =>
          match evs_of s w2 with
          | None => Throw w2 tr
          | Some evs => ev_loop s a (length evs) 0 w2 tr
          end
      | r => r
      end
  end.

End Publish.

(** [push(a)], by the class of the object. *)
Fixpoint push (fuel : nat) (s : ref) (a : jsval) (w : World) : Result :=
  match fuel with
  | O => OutOfFuel
  | S fuel' =>
      match get s w with
      | None => Throw w []
      | Some st =>
          match class st with
          | SinkStream => publish_with (push fuel') s a w
          | MapStream fn => publish_with (push fuel') s (fn a) w
          | FilterStream fn =>
              if truthy (fn a) then publish_with (push fuel') s a w else Done w []
          | ScanStream fn => publish_with (push fuel') s (fn a (last st)) w
          | SnapshotStream behavior =>
              publish_with (push fuel') s (VArr [a; at_ behavior w]) w
          | SnapshotWithStream fn behavior =>
              publish_with (push fuel') s (fn a (at_ behavior w)) w
          end
      end
  end.

Definition publish (fuel : nat) : ref -> jsval -> World -> Result :=
  publish_with (push fuel).

(** Successive [publish] calls, each on the stream it names. *)
Fixpoint publish_each (fuel : nat) (occs : list (ref * jsval)) (w : World)
    (tr : list Event) : Result :=
  match occs with
  | [] => Done w tr
  | (s, a) :: rest =>
      match publish fuel s a w with
      | Done w' tr' => publish_each fuel rest w' (tr ++ tr')
      | Throw w' tr' => Throw w' (tr ++ tr')
      | OutOfFuel => OutOfFuel
      end
  end.

End World.

Arguments Done {Ext} w trace.
Arguments Throw {Ext} w trace.
Arguments OutOfFuel {Ext}.
Arguments mkWorld {Ext} streams evArrays cbArrays ext.
Arguments streams {Ext} w.
Arguments evArrays {Ext} w.
Arguments cbArrays {Ext} w.
Arguments ext {Ext} w.
Arguments get {Ext} s w.
Arguments cbs_of {Ext} s w.
Arguments evs_of {Ext} s w.
Arguments set_last {Ext} s a w.
Arguments push_cbs {Ext} arr items w.
Arguments push_evs {Ext} arr items w.
Arguments subscribe {Ext} fn s w.
Arguments add_eventListener {Ext} s e w.
Arguments new_Stream {Ext} c last0 w.
Arguments map {Ext} fn s w.
Arguments set_def {Ext} this stream w.
Arguments cb_loop {Ext} run_cb s a n i w tr.
Arguments ev_loop {Ext} push' s a n i w tr.
Arguments publish_with {Ext} run_cb push' s a w.
Arguments push {Ext} run_cb at_ fuel s a w.
Arguments publish {Ext} run_cb at_ fuel s a w.
Arguments publish_each {Ext} run_cb at_ fuel occs w tr.

(** A callback that records what it is called with and leaves the stream
    objects alone (a spy). *)
Definition spy (cb : cbid) (v : jsval) (w : World (list (cbid * jsval)))
  : World (list (cbid * jsval)) :=
  mkWorld (streams w) (evArrays w) (cbArrays w) (ext w ++ [(cb, v)]).

(** A placeholder stream [p] (object 0) and a stream [s] (object 1), of
    any classes, each with a spy subscribed; [m = map(f, p)] (object 2)
    with a spy subscribed; then [p.def = s]. *)
Definition def_network (kp ks : Class) (f : jsval -> jsval) (cbP cbS cbM : cbid)
  : World (list (cbid * jsval)) :=
  let w0 := mkWorld [] [] [] [] in
  let w1 := snd (new_Stream kp VUndefined w0) in
  let w2 := snd (new_Stream ks VUndefined w1) in
  let w3 := subscribe cbP 0 w2 in
  let w4 := subscribe cbS 1 w3 in
  let w5 := snd (map f 0 w4) in
  let w6 := subscribe cbM 2 w5 in
  set_def 0 1 w6.

(** The network of [def_network] with any values in the fields [last] and
    any record of calls. *)
Definition def_network_at (kp ks : Class) (f : jsval -> jsval) (cbP cbS cbM : cbid)
    (l0 l1 l2 : jsval) (log : list (cbid * jsval)) : World (list (cbid * jsval)) :=
  mkWorld [mkStream l0 1 1 kp; mkStream l1 1 1 ks; mkStream l2 2 2 (MapStream f)]
    [[2]; [2]; []] [[cbP]; [cbS; cbP]; [cbM]] log.

(** What the three spies record for one occurrence [a] of either stream. *)
Definition def_calls (f : jsval -> jsval) (cbP cbS cbM : cbid) (a : jsval)
  : list (cbid * jsval) :=
  [(cbS, a); (cbP, a); (cbM, f a)].

End StreamDef.

(** * future.ts: the semantic representation of [lift] and [flatMap] *)

Module FutureSemanticsExtra.

Import FutureSemantics.
Open Scope Z_scope.

(** A number that is a time: a tick of the clock, [-Infinity] or
    [Infinity]. *)
Inductive Num : Type :=
| NegInf
| Fin (t : Z)
| PosInf.

(** [Math.max(a, b)] *)
Definition max2 (a b : Num) : Num :=
  match a, b with
  | PosInf, _ => PosInf
  | _, PosInf => PosInf
  | NegInf, y => y
  | x, NegInf => x
  | Fin x, Fin y => Fin (Z.max x y)
  end.

(** [Math.max(...xs)]; without arguments it is [-Infinity]. *)
Definition Math_max (xs : list Num) : Num := fold_right max2 NegInf xs.

(** [doesOccur(s) ? s.time : Infinity] *)
Definition occ_time (s : SemanticFuture) : Num :=
  match time s with
  | NegInfinity => NegInf
  | Tick t => Fin t
  | InfinityString => PosInf
  end.

(** [time !== Infinity ? { time, value } : neverOccurringFuture] *)
Definition occurrence (n : Num) (v : jsval) : SemanticFuture :=
  match n with
  | NegInf => mkSem NegInfinity v
  | Fin t => mkSem (Tick t) v
  | PosInf => neverOccurringFuture
  end.

(** The futures of [FutureSemantics] with [LiftFuture] and
    [FlatMapFuture]. *)
Inductive Future : Type :=
| TestFuture (time : Z) (value : jsval)
| OfFuture (value : jsval)
| NeverFuture
| SinkFuture
| CombineFuture (future1 future2 : Future)
| MapFuture (f : jsval -> jsval) (parent : Future)
| MapToFuture (value : jsval) (parent : Future)
| LiftFuture (f : list jsval -> jsval) (futures : list Future)
| FlatMapFuture (f : jsval -> Future) (parent : Future).

(** [xs.map(g)] for a [g] that may throw. *)
Fixpoint traverse {A B : Type} (g : A -> option B) (xs : list A) : option (list B) :=
  match xs with
  | [] => Some []
  | x :: rest =>
      match g x with
      | None => None
      | Some y =>
          match traverse g rest with
          | None => None
          | Some ys => Some (y :: ys)
          end
      end
  end.

(** [semantic()]; [None] when it throws. In [FlatMapFuture] both times
    are numbers other than [Infinity] where [Math.max] is reached. *)
Fixpoint semantic (f : Future) : option SemanticFuture :=
  match f with
  | TestFuture t v => Some (mkSem (Tick t) v)
  | OfFuture v => Some (mkSem NegInfinity v)
  | NeverFuture => Some neverOccurringFuture
  | SinkFuture => None
  | CombineFuture future1 future2 =>
      match semantic future1 with
      | None => None
      | Some a =>
          match semantic future2 with
          | None => None
          | Some b => Some (if time_le (time a) (time b) then a else b)
          end
      end
  | MapFuture fn parent =>
      match semantic parent with
      | None => None
      | Some p =>
          Some (if doesOccur p then mkSem (time p) (fn (value p))
                else neverOccurringFuture)
      end
  | MapToFuture v parent =>
      match semantic parent with
      | None => None
      | Some p =>
          Some (if doesOccur p then mkSem (time p) v else neverOccurringFuture)
      end
  | LiftFuture fn futures =>
      match
        (fix sems (fs : list Future) : option (list SemanticFuture) :=
           match fs with
           | [] => Some []
           | x :: rest =>
               match semantic x with
               | None => None
               | Some y =>
                   match sems rest with
                   | None => None
                   | Some ys => Some (y :: ys)
                   end
               end
           end) futures
      with
      | None => None
      | Some sems =>
          Some (occurrence (Math_max (List.map occ_time sems))
                  (fn (List.map value sems)))
      end
  | FlatMapFuture fn parent =>
      match semantic parent with
      | None => None
      | Some a =>
          if doesOccur a then
            match semantic (fn (value a)) with
            | None => None
            | Some b =>
                Some (if doesOccur b
                      then occurrence (max2 (occ_time a) (occ_time b)) (value b)
                      else neverOccurringFuture)
            end
          else Some neverOccurringFuture
      end
  end.

(** The futures of [FutureSemantics] among these. *)
Fixpoint embed (f : FutureSemantics.Future) : Future :=
  match f with
  | FutureSemantics.TestFuture t v => TestFuture t v
  | FutureSemantics.OfFuture v => OfFuture v
  | FutureSemantics.NeverFuture => NeverFuture
  | FutureSemantics.SinkFuture => SinkFuture
  | FutureSemantics.CombineFuture a b => CombineFuture (embed a) (embed b)
  | FutureSemantics.MapFuture fn p => MapFuture fn (embed p)
  | FutureSemantics.MapToFuture v p => MapToFuture v (embed p)
  end.

(** [lift(f, ...args)]:
    [args.length === 1 ? new MapFuture(f, args[0]) : new LiftFuture(f, args)];
    [f] takes the list of its arguments. *)
Definition lift (f : list jsval -> jsval) (args : list Future) : Future :=
  match args with
  | [x] => MapFuture (fun v => f [v]) x
  | _ => LiftFuture f args
  end.

(** [flatMap(f)], [map(f)], [mapTo(b)], [combine(future)], [of(b)] *)
Definition flatMap (f : jsval -> Future) (this : Future) : Future := FlatMapFuture f this.
Definition map (f : jsval -> jsval) (this : Future) : Future := MapFuture f this.
Definition mapTo (b : jsval) (this : Future) : Future := MapToFuture b this.
Definition combine (this future : Future) : Future := CombineFuture this future.
Definition of_ (b : jsval) : Future := OfFuture b.
Definition never : Future := NeverFuture.

End FutureSemanticsExtra.

(** * Properties of the reactive base *)

Module FrpCommonFacts.

Import FrpCommon.
Open Scope Z_scope.

(** The three branches of [addListener], by the count before the call. *)
Lemma addListener_first activate c r :
  nrOfListeners r = 0 ->
  addListener activate c r =
  Normal (activate (mkReactive (Obs c) 1 (state r)), [Activate]).
Proof.
  intros E. unfold addListener, set_child, set_nr; cbn. rewrite E. reflexivity.
Qed.

Lemma addListener_second activate c r :
  nrOfListeners r = 1 ->
  addListener activate c r =
  Normal (mkReactive (MultiObserver [child r; Obs c]) 2 (state r), []).
Proof.
  intros E. unfold addListener, set_child, set_nr; cbn. rewrite E. reflexivity.
Qed.

Lemma addListener_later activate c r :
  nrOfListeners r <> 0 -> nrOfListeners r <> 1 ->
  addListener activate c r =
  match child r with
  | MultiObserver l =>
      Normal (mkReactive (MultiObserver (l ++ [Obs c])) (nrOfListeners r + 1) (state r), [])
  | _ => TypeError (mkReactive (child r) (nrOfListeners r + 1) (state r))
  end.
Proof.
  intros E0 E1. unfold addListener, set_child, set_nr; cbn.
  destruct (nrOfListeners r + 1 =? 1) eqn:F1; [apply Z.eqb_eq in F1; lia | ].
  destruct (nrOfListeners r + 1 =? 2) eqn:F2; [apply Z.eqb_eq in F2; lia | ].
  destruct (child r); reflexivity.
Qed.

(** The three branches of [removeListener]. *)
Lemma removeListener_last deactivate c r :
  nrOfListeners r = 1 ->
  removeListener deactivate c r =
  Normal (deactivate (mkReactive Undefined 0 (state r)), [Deactivate]).
Proof.
  intros E. unfold removeListener, set_child, set_nr; cbn. rewrite E. reflexivity.
Qed.

Lemma removeListener_two deactivate c r :
  nrOfListeners r = 2 ->
  removeListener deactivate c r =
  match child r with
  | MultiObserver l =>
      Normal (mkReactive
                (nth (if is_listener (nth 0 l Undefined) c then 1 else 0)%nat l Undefined)
                1 (state r), [])
  | _ => TypeError (mkReactive (child r) 1 (state r))
  end.
Proof.
  intros E. unfold removeListener, set_child, set_nr; cbn. rewrite E. cbn.
  destruct (child r); reflexivity.
Qed.

Lemma removeListener_other deactivate c r :
  nrOfListeners r <> 1 -> nrOfListeners r <> 2 ->
  removeListener deactivate c r =
  match child r with
  | MultiObserver l =>
      Normal (mkReactive (MultiObserver (remove_from_array l c))
                (nrOfListeners r - 1) (state r), [])
  | _ => TypeError (mkReactive (child r) (nrOfListeners r - 1) (state r))
  end.
Proof.
  intros E1 E2. unfold removeListener, set_child, set_nr; cbn.
  destruct (nrOfListeners r - 1 =? 0) eqn:F1; [apply Z.eqb_eq in F1; lia | ].
  destruct (nrOfListeners r - 1 =? 1) eqn:F2; [apply Z.eqb_eq in F2; lia | ].
  destruct (child r); reflexivity.
Qed.

Lemma edge_hooks_add count c :
  edge_hooks count [Add c] = if count =? 0 then [Activate] else [].
Proof. cbn. apply app_nil_r. Qed.

Lemma edge_hooks_remove count c :
  edge_hooks count [Remove c] = if count =? 1 then [Deactivate] else [].
Proof. cbn. apply app_nil_r. Qed.

(** One call that returns keeps the shape of [child], moves the count by
    one and runs exactly the hook of an edge. *)
Lemma call_normal activate deactivate k r r' hs :
  hooks_contract activate deactivate ->
  child_ok r ->
  call activate deactivate k r = Normal (r', hs) ->
  child_ok r' /\
  nrOfListeners r' = count_after (nrOfListeners r) [k] /\
  hs = edge_hooks (nrOfListeners r) [k].
Proof.
  intros [Hact Hdeact] (Hnn & Hzero & Hmulti & Hstate) Hcall.
  destruct k as [c | c]; cbn [call count_after] in *.
  - rewrite edge_hooks_add.
    destruct (Z.eq_dec (nrOfListeners r) 0) as [E0 | E0].
    + rewrite (addListener_first activate _ _ E0) in Hcall.
      injection Hcall as <- <-.
      destruct (Hact (mkReactive (Obs c) 1 (state r))) as (Hc & Hn & Hs).
      cbn in Hc, Hn. rewrite E0. cbn.
      split; [ | split; [exact Hn | reflexivity]].
      unfold child_ok. rewrite Hn, Hc.
      split; [lia | ]. split; [lia | ]. split; [lia | ].
      split; [intros Hi; contradiction | lia].
    + destruct (Z.eq_dec (nrOfListeners r) 1) as [E1 | E1].
      * rewrite (addListener_second activate _ _ E1) in Hcall.
        injection Hcall as <- <-. rewrite E1. cbn.
        split; [ | split; reflexivity].
        unfold child_ok; cbn.
        split; [lia | ]. split; [lia | ].
        split; [intros _; eexists; reflexivity | ].
        split; [intros Hi; apply Hstate in Hi; lia | lia].
      * rewrite (addListener_later activate _ _ E0 E1) in Hcall.
        destruct (child r) as [ | o | l]; try discriminate.
        injection Hcall as <- <-.
        apply Z.eqb_neq in E0. rewrite E0. apply Z.eqb_neq in E0. cbn.
        split; [ | split; reflexivity].
        unfold child_ok; cbn.
        split; [lia | ]. split; [lia | ].
        split; [intros _; eexists; reflexivity | ].
        split; [intros Hi; apply Hstate in Hi; lia | lia].
  - rewrite edge_hooks_remove.
    destruct (Z.eq_dec (nrOfListeners r) 1) as [E1 | E1].
    + rewrite (removeListener_last deactivate _ _ E1) in Hcall.
      injection Hcall as <- <-.
      destruct (Hdeact (mkReactive Undefined 0 (state r))) as (Hc & Hn & Hs).
      cbn in Hc, Hn. rewrite E1. cbn.
      split; [ | split; [exact Hn | reflexivity]].
      unfold child_ok. rewrite Hn, Hc.
      split; [lia | ]. split; [reflexivity | ]. split; [lia | ].
      split; [reflexivity | intros _; exact Hs].
    + apply Z.eqb_neq in E1. rewrite E1. apply Z.eqb_neq in E1.
      destruct (Z.eq_dec (nrOfListeners r) 2) as [E2 | E2].
      * rewrite (removeListener_two deactivate _ _ E2) in Hcall.
        destruct (child r) as [ | o | l]; try discriminate.
        injection Hcall as <- <-. rewrite E2. cbn.
        split; [ | split; reflexivity].
        unfold child_ok; cbn.
        split; [lia | ]. split; [lia | ]. split; [lia | ].
        split; [intros Hi; apply Hstate in Hi; lia | lia].
      * rewrite (removeListener_other deactivate _ _ E1 E2) in Hcall.
        destruct (child r) as [ | o | l] eqn:Ec; try discriminate.
        injection Hcall as <- <-.
        assert (3 <= nrOfListeners r) as Hge.
        { destruct (Z.eq_dec (nrOfListeners r) 0) as [E0 | E0];
            [apply Hzero in E0; congruence | lia]. }
        cbn.
        split; [ | split; reflexivity].
        unfold child_ok; cbn.
        split; [lia | ]. split; [lia | ].
        split; [intros _; eexists; reflexivity | ].
        split; [intros Hi; apply Hstate in Hi; lia | lia].
Qed.

Lemma count_after_cons n k rest :
  count_after n (k :: rest) = count_after (count_after n [k]) rest.
Proof. destruct k; reflexivity. Qed.

Lemma edge_hooks_cons n k rest :
  edge_hooks n (k :: rest) =
  edge_hooks n [k] ++ edge_hooks (count_after n [k]) rest.
Proof. destruct k; cbn; rewrite app_nil_r; reflexivity. Qed.

Lemma new_Reactive_ok : child_ok new_Reactive.
Proof.
  unfold child_ok, new_Reactive; cbn.
  split; [lia | ]. split; [reflexivity | ]. split; [lia | ].
  split; reflexivity.
Qed.

(** A sequence of calls that returns keeps the invariant and runs the
    hooks of the edges, in order. *)
Lemma run_normal activate deactivate calls :
  hooks_contract activate deactivate ->
  forall r log r' log',
    child_ok r ->
    run activate deactivate calls r log = Normal (r', log') ->
    child_ok r' /\
    nrOfListeners r' = count_after (nrOfListeners r) calls /\
    log' = log ++ edge_hooks (nrOfListeners r) calls.
Proof.
  intros Hc. induction calls as [ | k rest IH]; intros r log r' log' Hok Hrun.
  - cbn in Hrun. injection Hrun as <- <-. cbn. rewrite app_nil_r. auto.
  - cbn [run] in Hrun.
    destruct (call activate deactivate k r) as [[r1 hs] | r1] eqn:Hk;
      [ | discriminate].
    destruct (call_normal _ _ _ _ _ _ Hc Hok Hk) as (Hok1 & Hn1 & Hhs).
    destruct (IH _ _ _ _ Hok1 Hrun) as (Hok' & Hn' & Hlog).
    split; [exact Hok' | ].
    rewrite count_after_cons, edge_hooks_cons, <- Hn1, <- Hhs.
    split; [exact Hn' | ].
    rewrite Hlog. rewrite app_assoc. reflexivity.
Qed.

(** A call returns unless it is a [removeListener] at count zero. *)
Lemma call_returns activate deactivate k r :
  child_ok r ->
  balanced (nrOfListeners r) [k] = true ->
  exists r' hs, call activate deactivate k r = Normal (r', hs).
Proof.
  intros (Hnn & Hzero & Hmulti & Hstate) Hb.
  destruct k as [c | c]; cbn [call balanced] in *.
  - destruct (Z.eq_dec (nrOfListeners r) 0) as [E0 | E0];
      [rewrite (addListener_first activate _ _ E0); eauto | ].
    destruct (Z.eq_dec (nrOfListeners r) 1) as [E1 | E1];
      [rewrite (addListener_second activate _ _ E1); eauto | ].
    rewrite (addListener_later activate _ _ E0 E1).
    destruct Hmulti as [l Hl]; [lia | ]. rewrite Hl. eauto.
  - rewrite andb_true_r in Hb. apply Z.ltb_lt in Hb.
    destruct (Z.eq_dec (nrOfListeners r) 1) as [E1 | E1];
      [rewrite (removeListener_last deactivate _ _ E1); eauto | ].
    destruct Hmulti as [l Hl]; [lia | ].
    destruct (Z.eq_dec (nrOfListeners r) 2) as [E2 | E2].
    + rewrite (removeListener_two deactivate _ _ E2), Hl. eauto.
    + rewrite (removeListener_other deactivate _ _ E1 E2), Hl. eauto.
Qed.

(** [removeListener] at count zero throws, after the count was
    decremented. *)
Lemma removeListener_at_zero_throws deactivate c r :
  child_ok r -> nrOfListeners r = 0 ->
  removeListener deactivate c r = TypeError (mkReactive Undefined (-1) (state r)).
Proof.
  intros (Hnn & Hzero & _) E0.
  rewrite removeListener_other by lia.
  rewrite (Hzero E0), E0. reflexivity.
Qed.

Lemma balanced_cons n k rest :
  balanced n (k :: rest) = balanced n [k] && balanced (count_after n [k]) rest.
Proof. destruct k; cbn; rewrite ?andb_true_r; reflexivity. Qed.

Lemma run_returns activate deactivate calls :
  hooks_contract activate deactivate ->
  forall r log,
    child_ok r ->
    balanced (nrOfListeners r) calls = true ->
    exists r' log', run activate deactivate calls r log = Normal (r', log').
Proof.
  intros Hc. induction calls as [ | k rest IH]; intros r log Hok Hb.
  - cbn. eauto.
  - rewrite balanced_cons in Hb. apply andb_true_iff in Hb as [Hk Hrest].
    destruct (call_returns activate deactivate k r Hok Hk) as (r1 & hs & Hcall).
    cbn [run]. rewrite Hcall.
    destruct (call_normal _ _ _ _ _ _ Hc Hok Hcall) as (Hok1 & Hn1 & _).
    apply IH; [exact Hok1 | rewrite Hn1; exact Hrest].
Qed.

(** Conversely a sequence that returns never removed at count zero. *)
Lemma run_normal_balanced activate deactivate calls :
  hooks_contract activate deactivate ->
  forall r log r' log',
    child_ok r ->
    run activate deactivate calls r log = Normal (r', log') ->
    balanced (nrOfListeners r) calls = true.
Proof.
  intros Hc. induction calls as [ | k rest IH]; intros r log r' log' Hok Hrun.
  - reflexivity.
  - cbn [run] in Hrun.
    destruct (call activate deactivate k r) as [[r1 hs] | r1] eqn:Hk;
      [ | discriminate].
    destruct (call_normal _ _ _ _ _ _ Hc Hok Hk) as (Hok1 & Hn1 & _).
    rewrite balanced_cons, <- Hn1, (IH _ _ _ _ Hok1 Hrun), andb_true_r.
    destruct k as [c | c]; [reflexivity | ].
    cbn. rewrite andb_true_r. apply Z.ltb_lt.
    destruct (Z.eq_dec (nrOfListeners r) 0) as [E0 | E0];
      [ | destruct Hok as (Hnn & _); lia].
    cbn [call] in Hk.
    rewrite (removeListener_at_zero_throws deactivate c r Hok E0) in Hk.
    discriminate.
Qed.

(** C5. For a reactive that is not always active and every sequence of
    addListener / removeListener calls issued on a new reactive: the
    sequence returns whenever no removeListener is issued at count zero,
    and when it returns the reactive is Inactive if and only if
    nrOfListeners = 0, the count is the number of adds minus the number of
    removes, and the hooks that ran are exactly one [Activate] for every
    rise 0 -> 1 and one [Deactivate] for every fall 1 -> 0, in order. *)
Theorem C5_activation_discipline activate deactivate calls :
  hooks_contract activate deactivate ->
  (balanced 0 calls = true ->
   exists r log, run activate deactivate calls new_Reactive [] = Normal (r, log)) /\
  (forall r log,
     run activate deactivate calls new_Reactive [] = Normal (r, log) ->
     (state r = Inactive <-> nrOfListeners r = 0) /\
     nrOfListeners r = count_after 0 calls /\
     log = edge_hooks 0 calls).
Proof.
  intros Hc. split.
  - intros Hb.
    apply (run_returns activate deactivate calls Hc new_Reactive []);
      [exact new_Reactive_ok | exact Hb].
  - intros r log Hrun.
    destruct (run_normal activate deactivate calls Hc _ _ _ _ new_Reactive_ok Hrun)
      as ((_ & _ & _ & Hstate) & Hn & Hlog).
    split; [exact Hstate | ]. split; [exact Hn | exact Hlog].
Qed.

(** Hooks of a reactive that pushes once active. *)
Lemma push_hooks_contract :
  hooks_contract (set_state Push) (set_state Inactive).
Proof.
  split; intros r; cbn; repeat split; discriminate.
Qed.

Lemma C5_activation_discipline_witness :
  exists r log,
    run (set_state Push) (set_state Inactive)
      [Add 1%nat; Add 2%nat; Remove 1%nat; Remove 2%nat; Add 3%nat]
      new_Reactive [] = Normal (r, log) /\
    (state r = Inactive <-> nrOfListeners r = 0) /\
    nrOfListeners r = 1 /\
    log = [Activate; Deactivate; Activate].
Proof.
  destruct (C5_activation_discipline (set_state Push) (set_state Inactive)
              [Add 1%nat; Add 2%nat; Remove 1%nat; Remove 2%nat; Add 3%nat]
              push_hooks_contract) as [Hret Hinv].
  destruct (Hret eq_refl) as (r & log & Hrun).
  exists r, log.
  destruct (Hinv r log Hrun) as (Hs & Hn & Hl).
  split; [exact Hrun | ]. split; [exact Hs | ]. split; [exact Hn | exact Hl].
Defined.

(** *** The order in which a push visits the listeners *)

Lemma nth_middle_Obs pre o post :
  nth (length pre) (map Obs (pre ++ o :: post)) Undefined = Obs o.
Proof. induction pre as [ | x pre IH]; [reflexivity | exact IH]. Qed.

Lemma MultiObserver_push_S observer_push fuel i ls a visited :
  MultiObserver_push observer_push (S fuel) i ls a visited =
  if (i <? length ls)%nat then
    match nth i ls Undefined with
    | Undefined => PushTypeError
    | Obs o =>
        MultiObserver_push observer_push fuel (S i) (observer_push o a ls) a
          (visited ++ [(o, a)])
    | MultiObserver inner =>
        match MultiObserver_push observer_push fuel 0 inner a visited with
        | Pushed inner' visited' =>
            MultiObserver_push observer_push fuel (S i)
              (set_index i (MultiObserver inner') ls) a visited'
        | e => e
        end
    end
  else Pushed ls visited.
Proof. reflexivity. Qed.

(** With observers that leave the array alone, the loop of
    [MultiObserver.push] visits the slots in index order and ends. *)
Lemma MultiObserver_push_quiet a os :
  forall pre visited,
    MultiObserver_push quiet (S (length os)) (length pre)
      (map Obs (pre ++ os)) a visited =
    Pushed (map Obs (pre ++ os)) (visited ++ map (fun o => (o, a)) os).
Proof.
  induction os as [ | o os IH]; intros pre visited;
    rewrite MultiObserver_push_S, length_map, length_app.
  - cbn [length]. rewrite Nat.add_0_r, Nat.ltb_irrefl.
    cbn [map]. rewrite !app_nil_r. reflexivity.
  - cbn [length].
    replace (length pre <? length pre + S (length os))%nat with true
      by (symmetry; apply Nat.ltb_lt; lia).
    rewrite nth_middle_Obs.
    change (quiet o a (map Obs (pre ++ o :: os))) with (map Obs (pre ++ o :: os)).
    replace (pre ++ o :: os) with ((pre ++ [o]) ++ os)
      by (rewrite <- app_assoc; reflexivity).
    replace (S (length pre)) with (length (pre ++ [o]))
      by (rewrite length_app; cbn; lia).
    rewrite IH. cbn [map]. rewrite <- !app_assoc. reflexivity.
Qed.

Lemma push_child_quiet r os a :
  holds r os ->
  push_child quiet (S (length os)) r a =
  Pushed (match os with [] | [_] => [] | _ => map Obs os end)
         (map (fun o => (o, a)) os).
Proof.
  intros [_ Hc]. unfold push_child.
  destruct os as [ | o [ | o' os]]; rewrite Hc; try reflexivity.
  apply (MultiObserver_push_quiet a (o :: o' :: os) [] []).
Qed.

(** A listener appended while [MultiObserver.push] runs is visited by
    that same push: the loop reads the length at every iteration. *)
Lemma MultiObserver_push_visits_appended :
  MultiObserver_push appender 5 0 [Obs 1%nat; Obs 2%nat; Obs 3%nat] (VNum 5) [] =
  Pushed [Obs 1%nat; Obs 2%nat; Obs 3%nat; Obs 9%nat]
    [(1%nat, VNum 5); (2%nat, VNum 5); (3%nat, VNum 5); (9%nat, VNum 5)].
Proof. reflexivity. Qed.

(** *** What [addListener] and [removeListener] do to the storage *)

Lemma addListener_holds activate deactivate c r os :
  hooks_contract activate deactivate ->
  holds r os ->
  exists r' hs,
    addListener activate c r = Normal (r', hs) /\ holds r' (os ++ [c]).
Proof.
  intros [Hact _] [Hn Hc].
  destruct os as [ | o [ | o' os]]; cbn [length] in Hn.
  - rewrite (addListener_first activate c r) by lia.
    destruct (Hact (mkReactive (Obs c) 1 (state r))) as (Hc' & Hn' & _).
    cbn in Hc', Hn'.
    do 2 eexists; split; [reflexivity | ].
    split; [rewrite Hn'; reflexivity | rewrite Hc'; reflexivity].
  - rewrite (addListener_second activate c r) by lia.
    do 2 eexists; split; [reflexivity | ].
    split; cbn; [reflexivity | rewrite Hc; reflexivity].
  - rewrite (addListener_later activate c r) by lia.
    rewrite Hc.
    do 2 eexists; split; [reflexivity | ].
    split; cbn [nrOfListeners child].
    + rewrite Hn, length_app. cbn [length]. lia.
    + cbn [app map]. rewrite map_app. reflexivity.
Qed.

Lemma first_occurrence (c : Observer) os :
  In c os -> exists pre post, os = pre ++ c :: post /\ ~ In c pre.
Proof.
  induction os as [ | x os IH]; intros Hin; [destruct Hin | ].
  destruct (Nat.eq_dec x c) as [-> | Hne].
  - exists [], os. split; [reflexivity | intros []].
  - destruct Hin as [Heq | Hin]; [contradiction | ].
    destruct (IH Hin) as (pre & post & -> & Hpre).
    exists (x :: pre), post. split; [reflexivity | ].
    intros [Hx | Hx]; [contradiction | exact (Hpre Hx)].
Qed.

Lemma indexOf_first c pre post :
  ~ In c pre -> indexOf (map Obs (pre ++ c :: post)) c = Some (length pre).
Proof.
  induction pre as [ | x pre IH]; intros Hpre; cbn.
  - rewrite Nat.eqb_refl. reflexivity.
  - destruct (Nat.eqb x c) eqn:E.
    + apply Nat.eqb_eq in E. exfalso. apply Hpre. left. exact E.
    + rewrite IH; [reflexivity | ].
      intros Hin. apply Hpre. right. exact Hin.
Qed.

Lemma set_index_middle pre x y post :
  set_index (length pre) (Obs y) (map Obs (pre ++ x :: post)) =
  map Obs (pre ++ y :: post).
Proof.
  induction pre as [ | p pre IH]; cbn; [reflexivity | rewrite IH; reflexivity].
Qed.

Lemma nth_last_Obs l z :
  nth (length (map Obs (l ++ [z])) - 1) (map Obs (l ++ [z])) Undefined = Obs z.
Proof.
  rewrite length_map, length_app. cbn [length].
  replace (length l + 1 - 1)%nat with (length l) by lia.
  apply nth_middle_Obs.
Qed.

(** Removing from an array of three or more: the other listeners stay,
    the last one takes the freed slot. *)
Lemma remove_from_array_perm c os :
  In c os ->
  exists os',
    remove_from_array (map Obs os) c = map Obs os' /\
    Permutation os (c :: os') /\
    length os = S (length os').
Proof.
  intros Hin.
  destruct (first_occurrence c os Hin) as (pre & post & -> & Hpre).
  unfold remove_from_array. rewrite (indexOf_first c pre post Hpre).
  destruct (exists_last (l := c :: post)) as (l' & z & Hlast);
    [discriminate | ].
  destruct l' as [ | c' l'].
  - (* the listener is the last one *)
    cbn in Hlast. injection Hlast as -> ->.
    exists pre.
    rewrite length_map, length_app. cbn [length].
    replace (length pre + 1 - 1)%nat with (length pre) by lia.
    rewrite Nat.eqb_refl, map_app. cbn [map].
    rewrite removelast_last.
    split; [reflexivity | ].
    split; [ | rewrite Nat.add_comm; reflexivity].
    rewrite Permutation_app_comm. reflexivity.
  - cbn in Hlast. injection Hlast as <- ->.
    exists (pre ++ z :: l').
    replace (pre ++ c :: l' ++ [z]) with ((pre ++ c :: l') ++ [z])
      by (rewrite <- app_assoc; reflexivity).
    rewrite nth_last_Obs.
    rewrite length_map, !length_app. cbn [length].
    replace (length pre =? length pre + S (length l') + 1 - 1)%nat with false
      by (symmetry; apply Nat.eqb_neq; lia).
    rewrite <- app_assoc. cbn [app].
    rewrite set_index_middle.
    replace (pre ++ z :: l' ++ [z]) with ((pre ++ z :: l') ++ [z])
      by (rewrite <- app_assoc; reflexivity).
    rewrite map_app. cbn [map]. rewrite removelast_last.
    split; [reflexivity | ].
    split; [ | rewrite ?length_app; cbn [length]; lia].
    rewrite <- Permutation_middle. apply perm_skip.
    apply Permutation_app_head.
    rewrite <- Permutation_middle. apply perm_skip.
    rewrite app_nil_r. reflexivity.
Qed.

Lemma removeListener_holds activate deactivate c r os :
  hooks_contract activate deactivate ->
  holds r os ->
  In c os ->
  exists r' hs os',
    removeListener deactivate c r = Normal (r', hs) /\
    holds r' os' /\
    Permutation os (c :: os').
Proof.
  intros [_ Hdeact] [Hn Hc] Hin.
  destruct os as [ | o [ | o' [ | o'' os]]]; cbn [length] in Hn.
  - destruct Hin.
  - destruct Hin as [-> | []].
    rewrite (removeListener_last deactivate c r) by lia.
    destruct (Hdeact (mkReactive Undefined 0 (state r))) as (Hc' & Hn' & _).
    cbn in Hc', Hn'.
    do 2 eexists; exists []; split; [reflexivity | ].
    split; [ | reflexivity].
    split; [rewrite Hn'; reflexivity | rewrite Hc'; reflexivity].
  - rewrite (removeListener_two deactivate c r) by lia.
    rewrite Hc. cbn [map nth is_listener].
    destruct (Nat.eqb o c) eqn:E.
    + apply Nat.eqb_eq in E. subst o.
      do 2 eexists; exists [o']; split; [reflexivity | ].
      split; [split; reflexivity | reflexivity].
    + apply Nat.eqb_neq in E.
      destruct Hin as [-> | [-> | []]]; [contradiction | ].
      do 2 eexists; exists [o]; split; [reflexivity | ].
      split; [split; reflexivity | apply perm_swap].
  - rewrite (removeListener_other deactivate c r) by lia.
    rewrite Hc.
    destruct (remove_from_array_perm c (o :: o' :: o'' :: os) Hin)
      as (os' & Hrm & Hperm & Hlen).
    rewrite Hrm.
    do 2 eexists; exists os'; split; [reflexivity | ].
    split; [ | exact Hperm].
    split; cbn [nrOfListeners child].
    + rewrite Hn. cbn [length] in Hlen. lia.
    + destruct os' as [ | p [ | p' os']]; cbn [length] in Hlen;
        [discriminate | lia | reflexivity].
Qed.

Lemma remove_first_perm c L : In c L -> Permutation L (c :: remove_first c L).
Proof.
  induction L as [ | x L IH]; intros Hin; [destruct Hin | ].
  cbn. destruct (Nat.eqb x c) eqn:E.
  - apply Nat.eqb_eq in E. subst x. reflexivity.
  - apply Nat.eqb_neq in E.
    destruct Hin as [Heq | Hin]; [contradiction | ].
    rewrite perm_swap. apply perm_skip. exact (IH Hin).
Qed.

Lemma existsb_eqb_In c L : existsb (Nat.eqb c) L = true -> In c L.
Proof.
  intros H. apply existsb_exists in H as (x & Hin & E).
  apply Nat.eqb_eq in E. subst x. exact Hin.
Qed.

Lemma new_Reactive_holds : holds new_Reactive [].
Proof. split; reflexivity. Qed.

(** A sequence of calls whose removals name attached observers returns,
    and the storage holds a permutation of the insertion order (the
    insertion order itself while nothing was removed). *)
Lemma run_targeted activate deactivate calls :
  hooks_contract activate deactivate ->
  forall r log os L,
    holds r os -> Permutation os L -> targeted calls L = true ->
    exists r' log' os',
      run activate deactivate calls r log = Normal (r', log') /\
      holds r' os' /\
      Permutation os' (insertion_order calls L) /\
      (no_removes calls = true -> os = L -> os' = insertion_order calls L).
Proof.
  intros Hc. induction calls as [ | k rest IH]; intros r log os L Hh Hp Ht.
  - exists r, log, os. cbn.
    split; [reflexivity | ]. split; [exact Hh | ].
    split; [exact Hp | intros _ E; exact E].
  - destruct k as [c | c]; cbn [targeted insertion_order no_removes run call] in *.
    + destruct (addListener_holds activate deactivate c r os Hc Hh)
        as (r1 & hs & Hadd & Hh1).
      rewrite Hadd.
      destruct (IH r1 (log ++ hs) (os ++ [c]) (L ++ [c]) Hh1
                  (Permutation_app_tail [c] Hp) Ht)
        as (r' & log' & os' & Hrun & Hh' & Hp' & Heq).
      exists r', log', os'.
      split; [exact Hrun | ]. split; [exact Hh' | ]. split; [exact Hp' | ].
      intros Hnr ->. apply Heq; [exact Hnr | reflexivity].
    + apply andb_true_iff in Ht as [Hin Ht].
      apply existsb_eqb_In in Hin.
      assert (In c os) as Hin' by (apply (Permutation_in c (Permutation_sym Hp)); exact Hin).
      destruct (removeListener_holds activate deactivate c r os Hc Hh Hin')
        as (r1 & hs & os1 & Hrm & Hh1 & Hp1).
      rewrite Hrm.
      assert (Permutation os1 (remove_first c L)) as Hp2.
      { apply (Permutation_cons_inv (a := c)).
        rewrite <- Hp1, Hp. apply remove_first_perm. exact Hin. }
      destruct (IH r1 (log ++ hs) os1 (remove_first c L) Hh1 Hp2 Ht)
        as (r' & log' & os' & Hrun & Hh' & Hp' & _).
      exists r', log', os'.
      split; [exact Hrun | ]. split; [exact Hh' | ]. split; [exact Hp' | ].
      intros Hnr; discriminate.
Qed.

(** C8 (as amended). For every reactive and every push: the attached
    listeners are visited in the index order of the listener storage and
    the whole fan-out ends before the push returns; that order is the
    insertion order as long as only addListener was called; after
    removeListener calls (each naming an attached listener) it is a
    permutation of the insertion order. *)
Theorem C8_listener_order activate deactivate calls a :
  hooks_contract activate deactivate ->
  targeted calls [] = true ->
  exists r log os,
    run activate deactivate calls new_Reactive [] = Normal (r, log) /\
    holds r os /\
    visited_observers (push_child quiet (S (length os)) r a) = Some os /\
    Permutation os (insertion_order calls []) /\
    (no_removes calls = true -> os = insertion_order calls []).
Proof.
  intros Hc Ht.
  destruct (run_targeted activate deactivate calls Hc new_Reactive [] [] []
              new_Reactive_holds (Permutation_refl _) Ht)
    as (r & log & os & Hrun & Hh & Hp & Heq).
  exists r, log, os.
  split; [exact Hrun | ]. split; [exact Hh | ].
  split; [ | split; [exact Hp | intros Hnr; apply Heq; [exact Hnr | reflexivity]]].
  rewrite (push_child_quiet r os a Hh). cbn [visited_observers].
  rewrite map_map. cbn [fst]. rewrite map_id. reflexivity.
Qed.

Lemma C8_listener_order_witness :
  exists r log os,
    run (set_state Push) (set_state Inactive)
      [Add 1%nat; Add 2%nat; Add 3%nat; Add 4%nat; Remove 2%nat]
      new_Reactive [] = Normal (r, log) /\
    holds r os /\
    visited_observers (push_child quiet (S (length os)) r (VNum 7)) = Some os /\
    Permutation os [1; 3; 4]%nat.
Proof.
  destruct (C8_listener_order (set_state Push) (set_state Inactive)
              [Add 1%nat; Add 2%nat; Add 3%nat; Add 4%nat; Remove 2%nat]
              (VNum 7) push_hooks_contract eq_refl)
    as (r & log & os & Hrun & Hh & Hv & Hp & _).
  exists r, log, os.
  split; [exact Hrun | ]. split; [exact Hh | ]. split; [exact Hv | exact Hp].
Defined.

(** C8 as stated fails: after adding 1, 2, 3 and removing 1 the push
    visits 3 before 2, while 2 was inserted before 3. *)
Lemma C8_insertion_order_counterexample :
  run (set_state Push) (set_state Inactive)
    [Add 1%nat; Add 2%nat; Add 3%nat; Remove 1%nat] new_Reactive [] =
  Normal (mkReactive (MultiObserver [Obs 3%nat; Obs 2%nat]) 2 Push, [Activate]) /\
  visited_observers
    (push_child quiet 3
       (mkReactive (MultiObserver [Obs 3%nat; Obs 2%nat]) 2 Push) (VNum 7)) =
  Some [3; 2]%nat /\
  insertion_order [Add 1%nat; Add 2%nat; Add 3%nat; Remove 1%nat] [] = [2; 3]%nat.
Proof. repeat split. Qed.

End FrpCommonFacts.

(** * Properties of [Stream.publish] *)

Module StreamFacts.

Import StreamTs.

Lemma nth_error_update s f l x :
  nth_error l s = Some x -> nth_error (update s f l) s = Some (f x).
Proof.
  revert s; induction l as [ | y l IH]; intros [ | s] H; cbn in *;
    try discriminate.
  - injection H as ->. reflexivity.
  - apply IH. exact H.
Qed.

Lemma get_set_last {Ext} s a (w : World Ext) st :
  get s w = Some st ->
  get s (set_last s a w) =
  Some (mkStream a (eventListeners st) (cbListeners st) (class st)).
Proof.
  unfold get, set_last; cbn. intros H.
  rewrite (nth_error_update _ _ _ _ H). reflexivity.
Qed.

(** The accumulated trace is only extended. *)
Lemma cb_loop_acc {Ext} run_cb s a n :
  forall i (w : World Ext) tr,
    cb_loop run_cb s a n i w tr =
    match cb_loop run_cb s a n i w [] with
    | Done w2 t => Done w2 (tr ++ t)
    | Throw w2 t => Throw w2 (tr ++ t)
    | OutOfFuel => OutOfFuel
    end.
Proof.
  induction n as [ | n IH]; intros i w tr; cbn [cb_loop].
  - rewrite app_nil_r. reflexivity.
  - destruct (get s w) as [st | ]; [ | rewrite app_nil_r; reflexivity].
    destruct (nth_error (cbListeners st) i) as [cb | ];
      [ | rewrite app_nil_r; reflexivity].
    rewrite (IH (S i) _ (tr ++ [ECallback s i cb a])).
    rewrite (IH (S i) _ ([] ++ [ECallback s i cb a])).
    destruct (cb_loop run_cb s a n (S i) (run_cb cb a w) []);
      cbn [app]; rewrite <- ?app_assoc; reflexivity.
Qed.

(** The callback loop calls the callbacks at the indices [i, i + n) and
    nothing else, whatever the callbacks do to the array. *)
Lemma cb_loop_indices {Ext} run_cb s a n :
  forall i (w w2 : World Ext) cbs,
    cb_loop run_cb s a n i w [] = Done w2 cbs ->
    List.map (callback_index s) cbs = List.map Some (seq i n).
Proof.
  induction n as [ | n IH]; intros i w w2 cbs H; cbn [cb_loop] in H.
  - injection H as <- <-. reflexivity.
  - destruct (get s w) as [st | ]; [ | discriminate].
    destruct (nth_error (cbListeners st) i) as [cb | ]; [ | discriminate].
    rewrite cb_loop_acc in H.
    destruct (cb_loop run_cb s a n (S i) (run_cb cb a w) []) as [w3 t | | ] eqn:E;
      try discriminate.
    injection H as <- <-.
    cbn. rewrite Nat.eqb_refl, (IH _ _ _ _ E). reflexivity.
Qed.

Lemma ev_loop_acc {Ext} push' s a n :
  forall i (w : World Ext) tr,
    ev_loop push' s a n i w tr =
    match ev_loop push' s a n i w [] with
    | Done w2 t => Done w2 (tr ++ t)
    | Throw w2 t => Throw w2 (tr ++ t)
    | OutOfFuel => OutOfFuel
    end.
Proof.
  induction n as [ | n IH]; intros i w tr; cbn [ev_loop].
  - rewrite app_nil_r. reflexivity.
  - destruct (get s w) as [st | ]; [ | rewrite app_nil_r; reflexivity].
    destruct (nth_error (eventListeners st) i) as [e | ];
      [ | rewrite app_nil_r; reflexivity].
    destruct (push' e a w) as [w' inner | w' inner | ]; try reflexivity.
    rewrite (IH (S i) _ (tr ++ [EPush s i e a inner])).
    rewrite (IH (S i) _ ([] ++ [EPush s i e a inner])).
    destruct (ev_loop push' s a n (S i) w' []);
      cbn [app]; rewrite <- ?app_assoc; reflexivity.
Qed.

(** The event-listener loop calls [push] on the listeners at the indices
    [i, i + n) and on nothing else. *)
Lemma ev_loop_indices {Ext} push' s a n :
  forall i (w w2 : World Ext) evs,
    ev_loop push' s a n i w [] = Done w2 evs ->
    List.map (push_index s) evs = List.map Some (seq i n).
Proof.
  induction n as [ | n IH]; intros i w w2 evs H; cbn [ev_loop] in H.
  - injection H as <- <-. reflexivity.
  - destruct (get s w) as [st | ]; [ | discriminate].
    destruct (nth_error (eventListeners st) i) as [e | ]; [ | discriminate].
    destruct (push' e a w) as [w' inner | w' inner | ]; try discriminate.
    rewrite ev_loop_acc in H.
    destruct (ev_loop push' s a n (S i) w' []) as [w3 t | | ] eqn:E;
      try discriminate.
    injection H as <- <-.
    cbn. rewrite Nat.eqb_refl, (IH _ _ _ _ E). reflexivity.
Qed.

(** C3 (as amended). A listener appended to the array that [publish] is
    iterating is not called in that publish: the callback loop calls
    exactly the callbacks at the indices below the length read before the
    first callback ran, and the event-listener loop calls [push] exactly at
    the indices below the length read when the callback loop had ended (so
    an event listener added by a callback is called in the same publish,
    one added by an event listener is not). *)
Theorem C3_publish_loop_bounds {Ext} run_cb push' s a (w w' : World Ext) st tr :
  get s w = Some st ->
  publish_with run_cb push' s a w = Done w' tr ->
  exists w2 st2 cbs evs,
    cb_loop run_cb s a (length (cbListeners st)) 0 (set_last s a w) [] = Done w2 cbs /\
    get s w2 = Some st2 /\
    ev_loop push' s a (length (eventListeners st2)) 0 w2 [] = Done w' evs /\
    tr = EPublish s a :: cbs ++ evs /\
    List.map (callback_index s) cbs =
      List.map Some (seq 0 (length (cbListeners st))) /\
    List.map (push_index s) evs =
      List.map Some (seq 0 (length (eventListeners st2))).
Proof.
  intros Hget Hpub. unfold publish_with in Hpub. rewrite Hget in Hpub.
  rewrite cb_loop_acc in Hpub.
  destruct (cb_loop run_cb s a (length (cbListeners st)) 0 (set_last s a w) [])
    as [w2 cbs | | ] eqn:Hcb; try discriminate.
  destruct (get s w2) as [st2 | ] eqn:Hget2; [ | discriminate].
  rewrite ev_loop_acc in Hpub.
  destruct (ev_loop push' s a (length (eventListeners st2)) 0 w2 [])
    as [w3 evs | | ] eqn:Hev; try discriminate.
  injection Hpub as <- <-.
  exists w2, st2, cbs, evs.
  split; [reflexivity | ]. split; [exact Hget2 | ]. split; [exact Hev | ].
  split; [reflexivity | ].
  split; [exact (cb_loop_indices _ _ _ _ _ _ _ _ Hcb)
         | exact (ev_loop_indices _ _ _ _ _ _ _ _ Hev)].
Qed.

Lemma C3_publish_loop_bounds_witness :
  exists w2 st2 cbs evs,
    cb_loop (mapper 0) 0 (VNum 5) 1 0
      (set_last 0 (VNum 5) (mkWorld [mkStream VUndefined [] [0] SinkStream] tt)) [] =
      Done w2 cbs /\
    get 0 w2 = Some st2 /\
    ev_loop (push (mapper 0) (fun _ _ => VUndefined) 1) 0 (VNum 5)
      (length (eventListeners st2)) 0 w2 [] =
      Done (mkWorld [mkStream (VNum 5) [1] [0] SinkStream;
                     mkStream (VNum 5) [] [] (MapStream (fun x => x))] tt) evs /\
    [EPublish 0 (VNum 5); ECallback 0 0 0 (VNum 5);
     EPush 0 0 1 (VNum 5) [EPublish 1 (VNum 5)]] =
      EPublish 0 (VNum 5) :: cbs ++ evs /\
    List.map (callback_index 0) cbs = List.map Some (seq 0 1) /\
    List.map (push_index 0) evs =
      List.map Some (seq 0 (length (eventListeners st2))).
Proof.
  exact (C3_publish_loop_bounds (mapper 0)
           (push (mapper 0) (fun _ _ => VUndefined) 1) 0 (VNum 5)
           (mkWorld [mkStream VUndefined [] [0] SinkStream] tt)
           (mkWorld [mkStream (VNum 5) [1] [0] SinkStream;
                     mkStream (VNum 5) [] [] (MapStream (fun x => x))] tt)
           (mkStream VUndefined [] [0] SinkStream)
           [EPublish 0 (VNum 5); ECallback 0 0 0 (VNum 5);
            EPush 0 0 1 (VNum 5) [EPublish 1 (VNum 5)]]
           eq_refl eq_refl).
Defined.

(** C3 as stated fails: stream 0 has one callback, which calls
    [s.map(x => x)]; the stream has no event listener when [publish(5)]
    starts, and the map stream added during the publish is pushed the 5 of
    that same publish. *)
Lemma C3_added_listener_counterexample :
  option_map eventListeners
    (get 0 (mkWorld [mkStream VUndefined [] [0] SinkStream] tt)) = Some [] /\
  publish (mapper 0) (fun _ _ => VUndefined) 1 0 (VNum 5)
    (mkWorld [mkStream VUndefined [] [0] SinkStream] tt) =
  Done (mkWorld [mkStream (VNum 5) [1] [0] SinkStream;
                 mkStream (VNum 5) [] [] (MapStream (fun x => x))] tt)
       [EPublish 0 (VNum 5); ECallback 0 0 0 (VNum 5);
        EPush 0 0 1 (VNum 5) [EPublish 1 (VNum 5)]].
Proof. split; reflexivity. Qed.

(** *** The field [last] *)

(** Callbacks that do not write to the stream are all called, in array
    order, and the stream object is as before; [P] is what is known of the
    worlds the listeners run in. *)
Lemma cb_loop_observers {Ext} (P : World Ext -> Prop)
    (run_cb : cbid -> jsval -> World Ext -> World Ext) s a st :
  (forall cb v w', P w' -> P (run_cb cb v w') /\ get s (run_cb cb v w') = get s w') ->
  forall rest pre (w : World Ext),
    P w ->
    get s w = Some st ->
    cbListeners st = pre ++ rest ->
    exists w2,
      cb_loop run_cb s a (length rest) (length pre) w [] =
        Done w2 (callback_events s a (length pre) rest) /\
      P w2 /\ get s w2 = Some st.
Proof.
  intros Hobs. induction rest as [ | cb rest IH]; intros pre w HP Hget Hcbs.
  - exists w. split; [reflexivity | split; [exact HP | exact Hget]].
  - cbn [length cb_loop callback_events]. rewrite Hget, Hcbs.
    rewrite nth_error_app2, Nat.sub_diag by lia. cbn [nth_error].
    rewrite cb_loop_acc.
    destruct (Hobs cb a w HP) as [HP1 Hg1].
    destruct (IH (pre ++ [cb]) (run_cb cb a w) HP1) as (w2 & Hloop & HP2 & Hs).
    + rewrite Hg1. exact Hget.
    + rewrite <- app_assoc. exact Hcbs.
    + rewrite length_app, Nat.add_comm in Hloop. cbn [length Nat.add] in Hloop.
      rewrite Hloop. exists w2. cbn [app].
      split; [reflexivity | split; [exact HP2 | exact Hs]].
Qed.






(** *** [snapshot] *)

(** [SnapshotStream.push(a)] is [publish([a, at(behavior)])]. *)
Lemma push_SnapshotStream {Ext} run_cb at_ fuel s a (w : World Ext) st b :
  get s w = Some st ->
  class st = SnapshotStream b ->
  push run_cb at_ (S fuel) s a w =
  publish run_cb at_ fuel s (VArr [a; at_ b w]) w.
Proof. intros Hget Hc. cbn [push]. rewrite Hget, Hc. reflexivity. Qed.

(** The network of [snapshot_network]: an occurrence [a] of the sink makes
    the snapshot stream publish the pair, and the subscriber receives it. *)
Lemma publish_snapshot_network (b : Behavior) (cb : cbid) (a v : jsval) :
  publish spy (fun _ _ => v) 1 0 a (snapshot_network b cb []) =
  Done (mkWorld [mkStream a [1] [] SinkStream;
                 mkStream (VArr [a; v]) [] [cb] (SnapshotStream b)]
          [(cb, VArr [a; v])])
       [EPublish 0 a;
        EPush 0 0 1 a [EPublish 1 (VArr [a; v]); ECallback 1 0 cb (VArr [a; v])]].
Proof. reflexivity. Qed.

(** C2. What the code does for [snapshot(b, s)]: in every world the
    [push] of the snapshot stream publishes the pair [[a, at(b)]] for the
    occurrence [a] of [s]; with a subscriber on the snapshot stream, every
    occurrence [a] of [s] calls the subscriber with that pair, not with
    the sampled value [at(b)] alone. *)
Theorem C2_snapshot_publishes_pair :
  (forall Ext run_cb at_ fuel s a (w : World Ext) st b,
     get s w = Some st ->
     class st = SnapshotStream b ->
     push run_cb at_ (S fuel) s a w =
     publish run_cb at_ fuel s (VArr [a; at_ b w]) w) /\
  (forall (b : Behavior) (cb : cbid) (a v : jsval),
     publish spy (fun _ _ => v) 1 0 a (snapshot_network b cb []) =
     Done (mkWorld [mkStream a [1] [] SinkStream;
                    mkStream (VArr [a; v]) [] [cb] (SnapshotStream b)]
             [(cb, VArr [a; v])])
          [EPublish 0 a;
           EPush 0 0 1 a
             [EPublish 1 (VArr [a; v]); ECallback 1 0 cb (VArr [a; v])]]).
Proof.
  split.
  - intros Ext run_cb at_ fuel s a w st b.
    apply push_SnapshotStream.
  - exact publish_snapshot_network.
Qed.

Lemma C2_snapshot_publishes_pair_witness :
  push spy (fun _ _ => VNum 7) 1 1 (VNum 1) (snapshot_network 0 0 []) =
  publish spy (fun _ _ => VNum 7) 0 1 (VArr [VNum 1; VNum 7])
    (snapshot_network 0 0 []).
Proof.
  exact (proj1 C2_snapshot_publishes_pair _ spy (fun _ _ => VNum 7) 0 1 (VNum 1)
           (snapshot_network 0 0 [])
           (mkStream VUndefined [] [0] (SnapshotStream 0)) 0 eq_refl eq_refl).
Defined.

(** The test "snapshot" of the repository: [Behavior.of(7)], [s.push(1)],
    and the subscriber is expected to receive 7. *)
Lemma snapshot_test_input :
  push spy (fun _ _ => VNum 7) 2 0 (VNum 1) (snapshot_network 0 0 []) =
  Done (mkWorld [mkStream (VNum 1) [1] [] SinkStream;
                 mkStream (VArr [VNum 1; VNum 7]) [] [0] (SnapshotStream 0)]
          [(0, VArr [VNum 1; VNum 7])])
       [EPublish 0 (VNum 1);
        EPush 0 0 1 (VNum 1)
          [EPublish 1 (VArr [VNum 1; VNum 7]);
           ECallback 1 0 0 (VArr [VNum 1; VNum 7])]].
Proof. reflexivity. Qed.

(** *** [map] *)

Lemma published_by_app s t1 t2 :
  published_by s (t1 ++ t2) = published_by s t1 ++ published_by s t2.
Proof. unfold published_by. apply flat_map_app. Qed.

(** [MapStream.push(a)] is [publish(fn(a))]. *)
Lemma push_MapStream {Ext} run_cb at_ fuel m a (w : World Ext) x fn :
  get m w = Some x ->
  class x = MapStream fn ->
  push run_cb at_ (S fuel) m a w = publish run_cb at_ fuel m (fn a) w.
Proof. intros Hget Hc. cbn [push]. rewrite Hget, Hc. reflexivity. Qed.

Lemma get_streams {Ext} (w : World Ext) ss s :
  streams w = ss -> get s w = nth_error ss s.
Proof. intros <-. reflexivity. Qed.

Lemma update_id s (f : Stream -> Stream) l :
  (forall x, f x = x) -> update s f l = l.
Proof.
  intros Hf. revert s; induction l as [ | y l IH]; intros [ | s]; cbn;
    rewrite ?Hf, ?IH; reflexivity.
Qed.

Lemma update_twice s (f g : Stream -> Stream) l :
  update s f (update s g l) = update s (fun x => f (g x)) l.
Proof.
  revert s; induction l as [ | y l IH]; intros [ | s]; cbn;
    rewrite ?IH; reflexivity.
Qed.

Lemma update_ext s (f g : Stream -> Stream) l :
  (forall x, f x = g x) -> update s f l = update s g l.
Proof.
  intros Hf. revert s; induction l as [ | y l IH]; intros [ | s]; cbn;
    rewrite ?Hf, ?(IH s); reflexivity.
Qed.

(** Subscribing the callbacks [cbs] appends them to the callbacks of the
    stream. *)
Lemma streams_subscribe_all {Ext} cbs s :
  forall w : World Ext,
    streams (subscribe_all cbs s w) =
    update s
      (fun x => mkStream (last x) (eventListeners x) (cbListeners x ++ cbs) (class x))
      (streams w).
Proof.
  induction cbs as [ | cb cbs IH]; intros w.
  - cbn. symmetry. apply update_id. intros [l e c k]. cbn.
    rewrite app_nil_r. reflexivity.
  - cbn [subscribe_all fold_left]. fold (subscribe_all cbs s (subscribe cb s w)).
    rewrite IH. cbn [subscribe streams]. rewrite update_twice.
    apply update_ext. intros x. cbn. rewrite <- app_assoc. reflexivity.
Qed.

Lemma subscribed_map_network_streams {Ext} k last0 f g cbs0 cbs1 cbs2 cbs3 cbs4
    (e0 : Ext) :
  streams (subscribed_map_network k last0 f g cbs0 cbs1 cbs2 cbs3 cbs4 e0) =
  map_network_streams k f g cbs0 cbs1 cbs2 cbs3 cbs4
    last0 VUndefined VUndefined VUndefined VUndefined.
Proof.
  unfold subscribed_map_network. rewrite !streams_subscribe_all. reflexivity.
Qed.

(** With callbacks that leave the streams alone, [publish] sets [last],
    calls the callbacks in order and goes on to the event listeners in a
    world that holds the same stream objects. *)
Lemma publish_with_inert {Ext} run_cb push' s a (w : World Ext) st :
  inert run_cb ->
  get s w = Some st ->
  exists w2,
    streams w2 = streams (set_last s a w) /\
    publish_with run_cb push' s a w =
    ev_loop push' s a (length (eventListeners st)) 0 w2
      (EPublish s a :: callback_events s a 0 (cbListeners st)).
Proof.
  intros Hinert Hget.
  pose proof (get_set_last s a w st Hget) as Hget1.
  destruct (cb_loop_observers
              (fun w' => streams w' = streams (set_last s a w)) run_cb s a
              (mkStream a (eventListeners st) (cbListeners st) (class st)))
    with (rest := cbListeners st) (pre := @nil cbid) (w := set_last s a w)
    as (w2 & Hloop & HP2 & Hs); try reflexivity.
  - intros cb v w' HP. split.
    + rewrite Hinert. exact HP.
    + unfold get. rewrite Hinert. reflexivity.
  - exact Hget1.
  - exists w2. split; [exact HP2 | ].
    unfold publish_with. rewrite Hget.
    cbn [length] in Hloop.
    rewrite cb_loop_acc, Hloop, Hs. reflexivity.
Qed.

(** A stream without event listeners. *)
Lemma publish_with_inert_leaf {Ext} run_cb push' s a (w : World Ext) st :
  inert run_cb ->
  get s w = Some st ->
  eventListeners st = [] ->
  exists w2,
    streams w2 = streams (set_last s a w) /\
    publish_with run_cb push' s a w =
    Done w2 (EPublish s a :: callback_events s a 0 (cbListeners st)).
Proof.
  intros Hinert Hget Hev.
  destruct (publish_with_inert run_cb push' s a w st Hinert Hget)
    as (w2 & Hs & Hpub).
  exists w2. split; [exact Hs | ]. rewrite Hpub, Hev. reflexivity.
Qed.

Lemma published_by_callback_events s s' a i cbs :
  published_by s (callback_events s' a i cbs) = [].
Proof.
  revert i; induction cbs as [ | cb cbs IH]; intros i; [reflexivity | ].
  cbn. apply IH.
Qed.

Lemma published_by_EPublish s s' a tr :
  published_by s (EPublish s' a :: tr) =
  (if Nat.eqb s' s then [a] else []) ++ published_by s tr.
Proof. reflexivity. Qed.

Lemma published_by_EPush s s' i e a inner tr :
  published_by s (EPush s' i e a inner :: tr) =
  published_by s inner ++ published_by s tr.
Proof. reflexivity. Qed.

Lemma published_by_nil s : published_by s [] = [].
Proof. reflexivity. Qed.

Ltac published_events :=
  repeat (rewrite published_by_app || rewrite published_by_EPublish
          || rewrite published_by_EPush || rewrite published_by_callback_events
          || rewrite published_by_nil);
  cbn [Nat.eqb app]; rewrite ?app_nil_r; try reflexivity.

Lemma ev_loop_O {Ext} push' s a i (w : World Ext) tr :
  ev_loop push' s a 0 i w tr = Done w tr.
Proof. reflexivity. Qed.

Lemma ev_loop_S {Ext} push' s a n i (w : World Ext) tr st e :
  get s w = Some st ->
  nth_error (eventListeners st) i = Some e ->
  ev_loop push' s a (S n) i w tr =
  match push' e a w with
  | Done w' inner => ev_loop push' s a n (S i) w' (tr ++ [EPush s i e a inner])
  | Throw w' inner => Throw w' (tr ++ [EPush s i e a inner])
  | OutOfFuel => OutOfFuel
  end.
Proof. intros Hget Hnth. cbn [ev_loop]. rewrite Hget, Hnth. reflexivity. Qed.

(** The push of a map stream without event listeners. *)
Lemma push_MapStream_leaf {Ext} run_cb at_ fuel m a (w : World Ext) x fn :
  inert run_cb ->
  get m w = Some x ->
  class x = MapStream fn ->
  eventListeners x = [] ->
  exists w2,
    streams w2 = streams (set_last m (fn a) w) /\
    push run_cb at_ (S fuel) m a w =
    Done w2 (EPublish m (fn a) :: callback_events m (fn a) 0 (cbListeners x)).
Proof.
  intros Hinert Hget Hc Hev.
  rewrite (push_MapStream run_cb at_ fuel m a w x fn Hget Hc).
  exact (publish_with_inert_leaf run_cb _ m (fn a) w x Hinert Hget Hev).
Qed.

Ltac streams_of H Hw :=
  unfold set_last in H; cbn [streams] in H; rewrite Hw in H;
  cbn [update eventListeners cbListeners class last] in H.

Lemma publish_map_network_inert {Ext} run_cb at_ fuel k f g cbs0 cbs1 cbs2 cbs3 cbs4
    l0 l1 l2 l3 l4 a (w : World Ext) :
  inert run_cb ->
  streams w = map_network_streams k f g cbs0 cbs1 cbs2 cbs3 cbs4 l0 l1 l2 l3 l4 ->
  exists w' t,
    publish run_cb at_ (S (S fuel)) 0 a w = Done w' t /\
    streams w' =
      map_network_streams k f g cbs0 cbs1 cbs2 cbs3 cbs4
        a (f a) (g (f a)) (g (f a)) a /\
    published_by 0 t = [a] /\
    published_by 2 t = [g (f a)] /\
    published_by 3 t = [g (f a)] /\
    published_by 4 t = [a].
Proof.
  intros Hinert Hw. unfold map_network_streams in Hw.
  unfold publish.
  edestruct (publish_with_inert run_cb (push run_cb at_ (S (S fuel))) 0 a w)
    as (w1 & Hs1 & ->);
    [exact Hinert | rewrite (get_streams w _ 0 Hw); reflexivity | ].
  streams_of Hs1 Hw. cbn [eventListeners cbListeners length].
  (* the push of map(f, s), which pushes map(g, map(f, s)) *)
  erewrite ev_loop_S; [ | rewrite (get_streams w1 _ 0 Hs1); reflexivity | reflexivity].
  erewrite push_MapStream;
    [ | rewrite (get_streams w1 _ 1 Hs1); reflexivity | reflexivity].
  unfold publish at 1.
  edestruct (publish_with_inert run_cb (push run_cb at_ (S fuel)) 1 (f a) w1)
    as (w2 & Hs2 & ->);
    [exact Hinert | rewrite (get_streams w1 _ 1 Hs1); reflexivity | ].
  streams_of Hs2 Hs1. cbn [eventListeners cbListeners length].
  erewrite ev_loop_S; [ | rewrite (get_streams w2 _ 1 Hs2); reflexivity | reflexivity].
  edestruct (push_MapStream_leaf run_cb at_ fuel 2 (f a) w2)
    as (w3 & Hs3 & ->);
    [exact Hinert | rewrite (get_streams w2 _ 2 Hs2); reflexivity
     | reflexivity | reflexivity | ].
  streams_of Hs3 Hs2. cbn [cbListeners]. rewrite ?ev_loop_O. cbv beta iota.
  (* the push of map(x => g(f(x)), s) *)
  erewrite ev_loop_S; [ | rewrite (get_streams w3 _ 0 Hs3); reflexivity | reflexivity].
  edestruct (push_MapStream_leaf run_cb at_ (S fuel) 3 a w3)
    as (w4 & Hs4 & ->);
    [exact Hinert | rewrite (get_streams w3 _ 3 Hs3); reflexivity
     | reflexivity | reflexivity | ].
  streams_of Hs4 Hs3. cbn [cbListeners].
  (* the push of map(x => x, s) *)
  erewrite ev_loop_S; [ | rewrite (get_streams w4 _ 0 Hs4); reflexivity | reflexivity].
  edestruct (push_MapStream_leaf run_cb at_ (S fuel) 4 a w4)
    as (w5 & Hs5 & ->);
    [exact Hinert | rewrite (get_streams w4 _ 4 Hs4); reflexivity
     | reflexivity | reflexivity | ].
  streams_of Hs5 Hs4. cbn [cbListeners]. rewrite ?ev_loop_O. cbv beta iota.
  exists w5. eexists. split; [reflexivity | ].
  split; [exact Hs5 | ].
  repeat split; published_events.
Qed.

Lemma publish_all_map_network_inert {Ext} run_cb at_ fuel k f g
    cbs0 cbs1 cbs2 cbs3 cbs4 occs :
  inert run_cb ->
  forall l0 l1 l2 l3 l4 (w : World Ext) tr,
    streams w = map_network_streams k f g cbs0 cbs1 cbs2 cbs3 cbs4 l0 l1 l2 l3 l4 ->
    exists w' t,
      publish_all run_cb at_ (S (S fuel)) 0 occs w tr = Done w' (tr ++ t) /\
      published_by 0 t = occs /\
      published_by 2 t = List.map (fun x => g (f x)) occs /\
      published_by 3 t = List.map (fun x => g (f x)) occs /\
      published_by 4 t = occs.
Proof.
  intros Hinert.
  induction occs as [ | a occs IH]; intros l0 l1 l2 l3 l4 w tr Hw.
  - exists w, []. cbn. rewrite app_nil_r. repeat split.
  - cbn [publish_all].
    destruct (publish_map_network_inert run_cb at_ fuel k f g
                cbs0 cbs1 cbs2 cbs3 cbs4 l0 l1 l2 l3 l4 a w Hinert Hw)
      as (w1 & t1 & -> & Hw1 & H0 & H2 & H3 & H4).
    destruct (IH _ _ _ _ _ w1 (tr ++ t1) Hw1)
      as (w' & t & Hrun & I0 & I2 & I3 & I4).
    exists w', (t1 ++ t).
    split; [rewrite Hrun, <- app_assoc; reflexivity | ].
    rewrite !published_by_app, H0, H2, H3, H4, I0, I2, I3, I4.
    repeat split.
Qed.

(** C7 (as amended). For a stream s of any class and the streams
    map(x => x, s), map(g, map(f, s)) and map(x => g(f(x)), s) built over
    it, with any subscribers on each of the five streams, when the
    subscribers leave the stream objects alone while they are called (none
    publishes, subscribes or attaches a stream): for every sequence of
    occurrences published on s, map(x => x, s) publishes the same sequence
    as s, and map(g, map(f, s)) the same sequence as map(x => g(f(x)), s),
    which is g(f(a)) for each occurrence a. *)
Theorem C7_map_laws {Ext} run_cb at_ :
  inert run_cb ->
  forall (k : Class) (last0 : jsval) (f g : jsval -> jsval)
         (cbs0 cbs1 cbs2 cbs3 cbs4 : list cbid) (e0 : Ext) (fuel : nat)
         (occs : list jsval),
  exists w' tr,
    publish_all run_cb at_ (S (S fuel)) 0 occs
      (subscribed_map_network k last0 f g cbs0 cbs1 cbs2 cbs3 cbs4 e0) [] =
      Done w' tr /\
    published_by 0 tr = occs /\
    published_by 4 tr = published_by 0 tr /\
    published_by 2 tr = published_by 3 tr /\
    published_by 3 tr = List.map (fun x => g (f x)) occs.
Proof.
  intros Hinert k last0 f g cbs0 cbs1 cbs2 cbs3 cbs4 e0 fuel occs.
  destruct (publish_all_map_network_inert run_cb at_ fuel k f g
              cbs0 cbs1 cbs2 cbs3 cbs4 occs Hinert _ _ _ _ _ _ []
              (subscribed_map_network_streams k last0 f g
                 cbs0 cbs1 cbs2 cbs3 cbs4 e0))
    as (w' & t & Hrun & H0 & H2 & H3 & H4).
  exists w', t. cbn [app] in Hrun.
  split; [exact Hrun | ]. rewrite H0, H2, H3, H4. repeat split.
Qed.

Lemma spy_inert : inert spy.
Proof. intros cb v w. reflexivity. Qed.

(** A sink with a spy, and spies on three of the map streams. *)
Lemma C7_map_laws_witness :
  exists w' tr,
    publish_all spy (fun _ _ => VUndefined) 2 0 [VNum 1; VNum 2]
      (subscribed_map_network SinkStream VUndefined
         (fun x => VArr [x]) (fun y => VArr [y; y]) [7] [] [8] [9] [10] []) [] =
      Done w' tr /\
    published_by 0 tr = [VNum 1; VNum 2] /\
    published_by 4 tr = published_by 0 tr /\
    published_by 2 tr = published_by 3 tr /\
    published_by 3 tr =
      List.map (fun x => VArr [VArr [x]; VArr [x]]) [VNum 1; VNum 2].
Proof.
  exact (C7_map_laws spy (fun _ _ => VUndefined) spy_inert SinkStream VUndefined
           (fun x => VArr [x]) (fun y => VArr [y; y]) [7] [] [8] [9] [10] [] 0
           [VNum 1; VNum 2]).
Defined.

(** C7 as stated fails: a subscriber of s that publishes 2 on s when it is
    called with 1. The subscriber of s is called with 1 and then 2, the
    subscriber of map(x => x, s) with 2 and then 1: the nested publish
    reaches the map stream before the publish that caused it. *)
Lemma C7_reentrant_subscriber_counterexample :
  exists w' tr,
    publish republisher (fun _ _ => VUndefined) 1 0 (VNum 1) reentrant_network =
      Done w' tr /\
    ext w' = [(7, VNum 1); (7, VNum 2); (8, VNum 2); (8, VNum 1)] /\
    List.map snd (List.filter (fun c => Nat.eqb (fst c) 7) (ext w')) =
      [VNum 1; VNum 2] /\
    List.map snd (List.filter (fun c => Nat.eqb (fst c) 8) (ext w')) =
      [VNum 2; VNum 1].
Proof. do 2 eexists. repeat split. Qed.

End StreamFacts.

(** * Properties of the futures *)

Module FutureFacts.

Import FutureTs.

Lemma nth_error_update_future f g l x :
  nth_error l f = Some x -> nth_error (update f g l) f = Some (g x).
Proof.
  revert f; induction l as [ | y l IH]; intros [ | f] H; cbn in *;
    try discriminate.
  - injection H as ->. reflexivity.
  - apply IH. exact H.
Qed.

Lemma update_same f g l x :
  nth_error l f = Some x -> g x = x -> update f g l = l.
Proof.
  revert f; induction l as [ | y l IH]; intros [ | f] H Hg; cbn in *;
    try discriminate.
  - injection H as ->. rewrite Hg. reflexivity.
  - rewrite (IH f H Hg). reflexivity.
Qed.

Lemma get_modify f g w x :
  get f w = Some x -> get f (modify f g w) = Some (g x).
Proof. unfold get, modify; cbn. apply nth_error_update_future. Qed.

Lemma modify_same f g w x :
  get f w = Some x -> g x = x -> modify f g w = w.
Proof.
  unfold get, modify. intros H Hg. rewrite (update_same f g _ x H Hg).
  destruct w; reflexivity.
Qed.

Lemma get_log f e w : get f (log e w) = get f w.
Proof. reflexivity. Qed.

(** Subscribers are called in the order of the list, each with the value;
    the objects stay as they are. *)
Lemma foreach_subscribers fuel t val :
  forall nodes cbs w,
    List.map node_value nodes = List.map LSubscriber cbs ->
    foreach (fun child => exec (S fuel) (PushS (node_value child) t val)) nodes w =
    Ok RVoid
      (mkWorld (heap w) (next_node w)
         (trace w ++ List.map (fun cb => ECallback cb val) cbs)).
Proof.
  induction nodes as [ | n nodes IH]; intros [ | cb cbs] w H; cbn in H;
    try discriminate.
  - cbn. rewrite app_nil_r. destruct w; reflexivity.
  - injection H as Hn Hrest.
    cbn [foreach]. rewrite Hn.
    change (exec (S fuel) (PushS (LSubscriber cb) t val) w)
      with (Ok RVoid (log (ECallback cb val) w)).
    cbn [bind]. rewrite (IH cbs _ Hrest).
    cbn [log heap next_node trace List.map].
    rewrite <- app_assoc. reflexivity.
Qed.

(** C4. For every future in state Done with stored value v, addListener
    calls [pushS] of the new listener with v at once and returns Done,
    and does nothing else (the node is not linked); a subscriber's
    callback is called with v. *)
Theorem C4_addListener_done fuel f x node t w id cb :
  get f w = Some x ->
  state x = Done ->
  exec (S fuel) (AddListener f node t) w =
    match exec fuel (PushS (node_value node) t (value x)) w with
    | Ok _ w' => Ok (RState Done) w'
    | e => e
    end /\
  exec (S (S fuel)) (AddListener f (mkNode id (LSubscriber cb)) t) w =
    Ok (RState Done) (log (ECallback cb (value x)) w).
Proof.
  intros Hget Hdone. split.
  - cbn [exec]. unfold addListener. rewrite Hget, Hdone. reflexivity.
  - cbn [exec]. unfold addListener at 1.
    rewrite Hget, Hdone. reflexivity.
Qed.

Lemma C4_addListener_done_witness :
  exec 6 (AddListener 0 (mkNode 0 (LFuture 1)) 5%Z)
    (snd (combine 0 0 (snd (of_ (VNum 3) empty_World)))) =
    match exec 5 (PushS (LFuture 1) 5%Z (VNum 3))
            (snd (combine 0 0 (snd (of_ (VNum 3) empty_World)))) with
    | Ok _ w' => Ok (RState Done) w'
    | e => e
    end /\
  exec 7 (AddListener 0 (mkNode 4 (LSubscriber 7)) 5%Z)
    (snd (combine 0 0 (snd (of_ (VNum 3) empty_World)))) =
    Ok (RState Done)
      (log (ECallback 7 (VNum 3))
         (snd (combine 0 0 (snd (of_ (VNum 3) empty_World))))).
Proof.
  exact (C4_addListener_done 5 0 (mkFuture Done (VNum 3) [] [] [] OfFuture)
           (mkNode 0 (LFuture 1)) 5%Z
           (snd (combine 0 0 (snd (of_ (VNum 3) empty_World)))) 4 7
           eq_refl eq_refl).
Defined.

(** C1 (as amended). For every future f that is Done (and so unsubscribed
    from its parents) and whose remaining listeners are subscribers: a
    second call resolve(v2) leaves the state Done, but it stores v2 as the
    value of f and calls every listener still attached again, with v2. *)
Theorem C1_second_resolve fuel f x cbs v2 t2 w :
  get f w = Some x ->
  state x = Done ->
  listenerNodes x = [] ->
  List.map node_value (children x) = List.map LSubscriber cbs ->
  exists w',
    exec (S (S fuel)) (Resolve f v2 t2) w = Ok RVoid w' /\
    get f w' = Some (set_value v2 x) /\
    state_of f w' = Some Done /\
    trace w' =
      trace w ++ EResolve f v2 t2 :: List.map (fun cb => ECallback cb v2) cbs.
Proof.
  intros Hget Hdone Hnodes Hsubs.
  cbn [exec]. unfold resolve.
  unfold deactivate at 1. rewrite Hget, Hnodes. cbn [foreach bind].
  rewrite (modify_same f _ w x Hget)
    by (destruct x; cbn in *; subst; reflexivity).
  unfold pushSToChildren.
  rewrite get_log, (get_modify f _ w x Hget). cbn [set_value children].
  rewrite (foreach_subscribers fuel t2 v2 _ cbs _ Hsubs).
  eexists. split; [reflexivity | ].
  split; [exact (get_modify f _ w x Hget) | ].
  split.
  - unfold state_of.
    change (get f (mkWorld _ _ _)) with (get f (modify f (set_value v2) w)).
    rewrite (get_modify f _ w x Hget). cbn. rewrite Hdone. reflexivity.
  - cbn. rewrite <- app_assoc. reflexivity.
Qed.

Lemma C1_second_resolve_witness :
  exists w',
    exec 2 (Resolve 0 (VNum 2) 7%Z)
      (mkWorld [mkFuture Done (VNum 1) [mkNode 0 (LSubscriber 5)] [] [] SinkFuture]
         1 [EResolve 0 (VNum 1) 6%Z; ECallback 5 (VNum 1)]) = Ok RVoid w' /\
    get 0 w' =
      Some (mkFuture Done (VNum 2) [mkNode 0 (LSubscriber 5)] [] [] SinkFuture) /\
    state_of 0 w' = Some Done /\
    trace w' =
      [EResolve 0 (VNum 1) 6%Z; ECallback 5 (VNum 1);
       EResolve 0 (VNum 2) 7%Z; ECallback 5 (VNum 2)].
Proof.
  exact (C1_second_resolve 0 0
           (mkFuture Done (VNum 1) [mkNode 0 (LSubscriber 5)] [] [] SinkFuture)
           [5] (VNum 2) 7%Z
           (mkWorld [mkFuture Done (VNum 1) [mkNode 0 (LSubscriber 5)] [] [] SinkFuture]
              1 [EResolve 0 (VNum 1) 6%Z; ECallback 5 (VNum 1)])
           eq_refl eq_refl eq_refl eq_refl).
Defined.

(** C1 as stated fails: a sink future with one subscriber is resolved with
    1, which makes it Done; the second call resolve(2) replaces the stored
    value 1 by 2 and calls the subscriber a second time. *)
Lemma C1_double_resolve_counterexample :
  sink_network 5 0%Z =
    Ok (RState Push)
      (mkWorld [mkFuture Push VUndefined [mkNode 0 (LSubscriber 5)] [] [] SinkFuture]
         1 []) /\
  exec 10 (Resolve 0 (VNum 1) 6%Z)
    (mkWorld [mkFuture Push VUndefined [mkNode 0 (LSubscriber 5)] [] [] SinkFuture]
       1 []) =
    Ok RVoid
      (mkWorld [mkFuture Done (VNum 1) [mkNode 0 (LSubscriber 5)] [] [] SinkFuture]
         1 [EResolve 0 (VNum 1) 6%Z; ECallback 5 (VNum 1)]) /\
  exec 10 (Resolve 0 (VNum 2) 7%Z)
    (mkWorld [mkFuture Done (VNum 1) [mkNode 0 (LSubscriber 5)] [] [] SinkFuture]
       1 [EResolve 0 (VNum 1) 6%Z; ECallback 5 (VNum 1)]) =
    Ok RVoid
      (mkWorld [mkFuture Done (VNum 2) [mkNode 0 (LSubscriber 5)] [] [] SinkFuture]
         1 [EResolve 0 (VNum 1) 6%Z; ECallback 5 (VNum 1);
            EResolve 0 (VNum 2) 7%Z; ECallback 5 (VNum 2)]).
Proof. repeat split. Qed.

(** *** [combine] *)





Lemma trace_modify f g w : trace (modify f g w) = trace w.
Proof. reflexivity. Qed.


Lemma unlink_not_in node l n :
  In n (unlink node l) -> node_id n <> node_id node.
Proof.
  unfold unlink. intros H. apply filter_In in H as [_ H].
  apply negb_true_iff, Nat.eqb_neq in H. exact H.
Qed.




Lemma combine_network_world : combine_network 9 0%Z = Ok (RState Push) combine_world.
Proof. reflexivity. Qed.



End FutureFacts.

(** * Properties of the semantic representation *)

Module FutureSemanticsFacts.

Import FutureSemantics.
Open Scope Z_scope.

Lemma time_le_refl t : time_le t t = true.
Proof. destruct t; cbn; [reflexivity | apply Z.leb_refl | reflexivity]. Qed.

(** C10. For futures f1 and f2 whose semantic occurrences have the same
    time, the semantic result of combine(f1, f2) is the occurrence of f1:
    the first argument wins ties. *)
Theorem C10_combine_semantic_tie f1 f2 a b :
  semantic f1 = Some a ->
  semantic f2 = Some b ->
  doesOccur a = true ->
  time a = time b ->
  semantic (CombineFuture f1 f2) = Some a.
Proof.
  intros Ha Hb _ Ht. cbn [semantic]. rewrite Ha, Hb, Ht, time_le_refl.
  reflexivity.
Qed.

Lemma C10_combine_semantic_tie_witness :
  semantic (CombineFuture (TestFuture 3 (VStr "a")) (TestFuture 3 (VStr "b"))) =
  Some (mkSem (Tick 3) (VStr "a")).
Proof.
  exact (C10_combine_semantic_tie
           (TestFuture 3 (VStr "a")) (TestFuture 3 (VStr "b"))
           (mkSem (Tick 3) (VStr "a")) (mkSem (Tick 3) (VStr "b"))
           eq_refl eq_refl eq_refl eq_refl).
Defined.

End FutureSemanticsFacts.

(** * More properties of the reactive base *)

Module FrpCommonExtraFacts.

Import FrpCommon FrpCommonExtra FrpCommonFacts.
Open Scope Z_scope.

Lemma indexOf_absent c os : ~ In c os -> indexOf (map Obs os) c = None.
Proof.
  induction os as [ | x os IH]; intros Hn; cbn; [reflexivity | ].
  destruct (Nat.eqb x c) eqn:E.
  - apply Nat.eqb_eq in E. exfalso. apply Hn. left. exact E.
  - rewrite IH; [reflexivity | ]. intros Hin. apply Hn. right. exact Hin.
Qed.

(** Removing the listener in the last slot only shortens the array. *)
Lemma remove_from_array_last c pre :
  ~ In c pre -> remove_from_array (map Obs (pre ++ [c])) c = map Obs pre.
Proof.
  intros Hpre. unfold remove_from_array.
  rewrite (indexOf_first c pre [] Hpre).
  rewrite length_map, length_app. cbn [length].
  replace (length pre + 1 - 1)%nat with (length pre) by lia.
  rewrite Nat.eqb_refl, map_app. cbn [map]. apply removelast_last.
Qed.

(** Removing a listener from another slot moves the last listener there. *)
Lemma remove_from_array_swap c pre mid z :
  ~ In c pre ->
  remove_from_array (map Obs (pre ++ c :: mid ++ [z])) c =
  map Obs (pre ++ z :: mid).
Proof.
  intros Hpre. unfold remove_from_array.
  rewrite (indexOf_first c pre (mid ++ [z]) Hpre).
  replace (pre ++ c :: mid ++ [z]) with ((pre ++ c :: mid) ++ [z])
    by (rewrite <- app_assoc; reflexivity).
  rewrite nth_last_Obs.
  rewrite length_map, !length_app. cbn [length].
  replace (length pre =? length pre + S (length mid) + 1 - 1)%nat with false
    by (symmetry; apply Nat.eqb_neq; lia).
  rewrite <- app_assoc. cbn [app].
  rewrite set_index_middle.
  replace (pre ++ z :: mid ++ [z]) with ((pre ++ z :: mid) ++ [z])
    by (rewrite <- app_assoc; reflexivity).
  rewrite map_app. cbn [map]. apply removelast_last.
Qed.

(** Appending a listener and removing it again gives the array back, also
    when the listener was in the array before. *)
Lemma remove_appended c os :
  remove_from_array (map Obs (os ++ [c])) c = map Obs os.
Proof.
  destruct (in_dec Nat.eq_dec c os) as [Hin | Hout].
  - destruct (first_occurrence c os Hin) as (pre & post & -> & Hpre).
    rewrite <- app_assoc. cbn [app].
    apply (remove_from_array_swap c pre post c Hpre).
  - apply remove_from_array_last. exact Hout.
Qed.

(** X1. Subscribing an observer and unsubscribing it again is a round
    trip: for every reactive and every observer c (attached before or
    not), addListener(c) followed by removeListener(c) returns, gives back
    the listener storage and the count, and runs the hooks only when the
    reactive had no listener (activate, then deactivate). *)
Theorem add_remove_round_trip activate deactivate c r os :
  hooks_contract activate deactivate ->
  holds r os ->
  exists r1 h1 r2 h2,
    addListener activate c r = Normal (r1, h1) /\
    removeListener deactivate c r1 = Normal (r2, h2) /\
    child r2 = child r /\
    nrOfListeners r2 = nrOfListeners r /\
    h1 ++ h2 = match os with [] => [Activate; Deactivate] | _ => [] end.
Proof.
  intros [Hact Hdeact] [Hn Hc].
  destruct os as [ | o [ | o' os]]; cbn [length] in Hn.
  - rewrite (addListener_first activate c r) by lia.
    destruct (Hact (mkReactive (Obs c) 1 (state r))) as (_ & Hn1 & _).
    cbn in Hn1.
    destruct (Hdeact (mkReactive Undefined 0
                        (state (activate (mkReactive (Obs c) 1 (state r))))))
      as (Hc2 & Hn2 & _).
    cbn in Hc2, Hn2.
    do 4 eexists. split; [reflexivity | ].
    split; [apply (removeListener_last deactivate c _ Hn1) | ].
    rewrite Hc2, Hn2, Hc, Hn. repeat split.
  - rewrite (addListener_second activate c r) by lia.
    do 4 eexists. split; [reflexivity | ].
    split; [rewrite removeListener_two by reflexivity; reflexivity | ].
    cbn [child state nrOfListeners app]. rewrite Hc. cbn [nth is_listener].
    split; [ | split; [lia | reflexivity]].
    destruct (Nat.eqb o c) eqn:E; [ | reflexivity].
    apply Nat.eqb_eq in E. subst o. reflexivity.
  - rewrite (addListener_later activate c r) by lia.
    rewrite Hc.
    do 4 eexists. split; [reflexivity | ].
    split; [rewrite removeListener_other by (cbn [nrOfListeners]; lia);
            reflexivity | ].
    cbn [child state nrOfListeners app].
    change (map Obs (o :: o' :: os) ++ [Obs c])
      with (map Obs (o :: o' :: os) ++ map Obs [c]).
    rewrite <- map_app, remove_appended.
    split; [reflexivity | split; [lia | reflexivity]].
Qed.

Lemma add_remove_round_trip_witness :
  exists r1 h1 r2 h2,
    addListener (set_state Push) 2%nat
      (mkReactive (MultiObserver [Obs 2%nat; Obs 5%nat]) 2 Push) = Normal (r1, h1) /\
    removeListener (set_state Inactive) 2%nat r1 = Normal (r2, h2) /\
    child r2 = MultiObserver [Obs 2%nat; Obs 5%nat] /\
    nrOfListeners r2 = 2 /\
    h1 ++ h2 = [].
Proof.
  exact (add_remove_round_trip (set_state Push) (set_state Inactive) 2%nat
           (mkReactive (MultiObserver [Obs 2%nat; Obs 5%nat]) 2 Push)
           [2%nat; 5%nat] push_hooks_contract (conj eq_refl eq_refl)).
Defined.

(** X2. removeListener does not check that its argument is attached. For
    a reactive with listeners os and an observer c that is not among them:
    with one listener, that listener is detached and deactivate runs; with
    two listeners, the second one is detached; with three or more, no
    listener is detached but the count still goes down by one. *)
Theorem removeListener_unattached deactivate r c os :
  holds r os ->
  os <> [] ->
  ~ In c os ->
  removeListener deactivate c r =
  Normal
    (match os with
     | [_] => deactivate (mkReactive Undefined 0 (state r))
     | [a; _] => mkReactive (Obs a) 1 (state r)
     | _ => mkReactive (MultiObserver (map Obs os)) (nrOfListeners r - 1) (state r)
     end,
     match os with
     | [_] => [Deactivate]
     | _ => []
     end).
Proof.
  intros [Hn Hc] Hne Hout.
  destruct os as [ | a [ | b [ | b' os]]]; cbn [length] in Hn.
  - contradiction.
  - apply removeListener_last. lia.
  - rewrite removeListener_two by lia. rewrite Hc. cbn [map nth is_listener].
    destruct (Nat.eqb a c) eqn:E; [ | reflexivity].
    apply Nat.eqb_eq in E. exfalso. apply Hout. left. exact E.
  - rewrite removeListener_other by lia. rewrite Hc.
    unfold remove_from_array. rewrite (indexOf_absent c _ Hout). reflexivity.
Qed.

Lemma removeListener_unattached_witness :
  removeListener (set_state Inactive) 9%nat
    (mkReactive (MultiObserver [Obs 1%nat; Obs 2%nat]) 2 Push) =
  Normal (mkReactive (Obs 1%nat) 1 Push, []).
Proof.
  apply (removeListener_unattached (set_state Inactive)
           (mkReactive (MultiObserver [Obs 1%nat; Obs 2%nat]) 2 Push)
           9%nat [1%nat; 2%nat] (conj eq_refl eq_refl)).
  - discriminate.
  - intros [H | [H | []]]; discriminate.
Defined.

(** The loop of [MultiObserver.push] over observers whose [push] leaves
    the array alone. *)
Lemma MultiObserver_push_inert observer_push a os1 :
  forall done rest fuel visited,
    (forall o ls, In o os1 -> observer_push o a ls = ls) ->
    MultiObserver_push observer_push (length os1 + fuel) (length done)
      (map Obs (done ++ os1 ++ rest)) a visited =
    MultiObserver_push observer_push fuel (length done + length os1)
      (map Obs (done ++ os1 ++ rest)) a (visited ++ pushes a os1).
Proof.
  induction os1 as [ | o os1 IH]; intros done rest fuel visited Hinert.
  - cbn [length Nat.add pushes map]. rewrite Nat.add_0_r, app_nil_r. reflexivity.
  - cbn [length Nat.add]. rewrite MultiObserver_push_S.
    rewrite length_map, !length_app. cbn [length app].
    match goal with
    | |- context [(?x <? ?y)%nat] =>
        replace (x <? y)%nat with true by (symmetry; apply Nat.ltb_lt; lia)
    end.
    rewrite nth_middle_Obs.
    rewrite (Hinert o _ (or_introl eq_refl)).
    replace (done ++ o :: os1 ++ rest) with ((done ++ [o]) ++ os1 ++ rest)
      by (rewrite <- app_assoc; reflexivity).
    replace (S (length done)) with (length (done ++ [o]))
      by (rewrite length_app; cbn; lia).
    rewrite IH by (intros o' ls Hin; apply Hinert; right; exact Hin).
    rewrite length_app. cbn [length pushes map].
    replace (length done + 1 + length os1)%nat
      with (length done + S (length os1))%nat by lia.
    rewrite <- !app_assoc. reflexivity.
Qed.

Lemma self_remover_other c o a ls : o <> c -> self_remover c o a ls = ls.
Proof.
  intros Hne. unfold self_remover.
  destruct (Nat.eqb o c) eqn:E; [ | reflexivity].
  apply Nat.eqb_eq in E. contradiction.
Qed.

(** X3. A listener that unsubscribes itself while it is pushed makes the
    last listener miss that push. With three or more listeners
    [pre ++ c :: mid ++ [z]] of which only c changes the array, by
    removing itself, [MultiObserver.push] calls the listeners before c, c
    and those of mid, and ends without calling z, which now sits in the
    slot of c. *)
Theorem push_self_removal_skips_last c pre mid z a :
  pre ++ mid <> [] ->
  ~ In c (pre ++ mid ++ [z]) ->
  MultiObserver_push (self_remover c) (length pre + S (length mid + 1)) 0
    (map Obs (pre ++ c :: mid ++ [z])) a [] =
  Pushed (map Obs (pre ++ z :: mid)) (pushes a (pre ++ c :: mid)).
Proof.
  intros _ Hout.
  assert (~ In c pre) as Hpre
    by (intros H; apply Hout; apply in_or_app; left; exact H).
  assert (~ In c mid) as Hmid
    by (intros H; apply Hout; apply in_or_app; right;
        apply in_or_app; left; exact H).
  pose proof (MultiObserver_push_inert (self_remover c) a pre [] (c :: mid ++ [z])
                (S (length mid + 1)) []) as Hprefix.
  cbn [length app Nat.add] in Hprefix.
  rewrite Hprefix
    by (intros o ls Hin; apply self_remover_other; intros ->; contradiction).
  clear Hprefix.
  rewrite MultiObserver_push_S.
  rewrite length_map, !length_app. cbn [length].
  match goal with
  | |- context [(?x <? ?y)%nat] =>
      replace (x <? y)%nat with true by (symmetry; apply Nat.ltb_lt; lia)
  end.
  rewrite nth_middle_Obs.
  unfold self_remover at 2. rewrite Nat.eqb_refl.
  rewrite (remove_from_array_swap c pre mid z Hpre).
  replace (pre ++ z :: mid) with ((pre ++ [z]) ++ mid ++ [])
    by (rewrite app_nil_r, <- app_assoc; reflexivity).
  replace (S (length pre)) with (length (pre ++ [z]))
    by (rewrite length_app; cbn; lia).
  rewrite (MultiObserver_push_inert (self_remover c) a mid (pre ++ [z]) [] 1 _)
    by (intros o ls Hin; apply self_remover_other; intros ->; contradiction).
  rewrite MultiObserver_push_S.
  rewrite length_map, !length_app. cbn [length].
  rewrite Nat.add_0_r, Nat.ltb_irrefl.
  unfold pushes. rewrite !map_app. cbn [map app].
  rewrite <- !app_assoc. reflexivity.
Qed.

Lemma push_self_removal_skips_last_witness :
  MultiObserver_push (self_remover 1%nat) 4%nat 0%nat
    [Obs 1%nat; Obs 2%nat; Obs 3%nat] (VNum 5) [] =
  Pushed [Obs 3%nat; Obs 2%nat] [(1%nat, VNum 5); (2%nat, VNum 5)].
Proof.
  apply (push_self_removal_skips_last 1%nat [] [2%nat] 3%nat (VNum 5)).
  - discriminate.
  - intros [H | [H | []]]; discriminate.
Defined.

Lemma subscriber_of_other c d o a ls : o <> c -> subscriber_of c d o a ls = ls.
Proof.
  intros Hne. unfold subscriber_of.
  destruct (Nat.eqb o c) eqn:E; [ | reflexivity].
  apply Nat.eqb_eq in E. contradiction.
Qed.

(** X4. A listener subscribed while a push is under way, to a source that
    holds two or more listeners, is called in that same push. With
    listeners [pre ++ c :: post] of which only c changes the array, by
    subscribing the observer d, [MultiObserver.push] calls all of them and
    then d, with the value being pushed. *)
Theorem push_visits_subscribed_during c d pre post a :
  pre ++ post <> [] ->
  ~ In c (pre ++ post) ->
  d <> c ->
  MultiObserver_push (subscriber_of c d) (length pre + S (length post + 2)) 0
    (map Obs (pre ++ c :: post)) a [] =
  Pushed (map Obs (pre ++ c :: post ++ [d])) (pushes a (pre ++ c :: post ++ [d])).
Proof.
  intros _ Hout Hd.
  assert (~ In c pre) as Hpre
    by (intros H; apply Hout; apply in_or_app; left; exact H).
  assert (~ In c post) as Hpost
    by (intros H; apply Hout; apply in_or_app; right; exact H).
  pose proof (MultiObserver_push_inert (subscriber_of c d) a pre [] (c :: post)
                (S (length post + 2)) []) as Hprefix.
  cbn [length app Nat.add] in Hprefix.
  rewrite Hprefix
    by (intros o ls Hin; apply subscriber_of_other; intros ->; contradiction).
  clear Hprefix.
  rewrite MultiObserver_push_S.
  rewrite length_map, !length_app. cbn [length].
  match goal with
  | |- context [(?x <? ?y)%nat] =>
      replace (x <? y)%nat with true by (symmetry; apply Nat.ltb_lt; lia)
  end.
  rewrite nth_middle_Obs.
  unfold subscriber_of at 2. rewrite Nat.eqb_refl.
  change [Obs d] with (map Obs [d]). rewrite <- map_app.
  replace ((pre ++ c :: post) ++ [d]) with ((pre ++ [c]) ++ (post ++ [d]) ++ [])
    by (rewrite app_nil_r, <- !app_assoc; reflexivity).
  replace (S (length pre)) with (length (pre ++ [c]))
    by (rewrite length_app; cbn; lia).
  replace (length post + 2)%nat with (length (post ++ [d]) + 1)%nat
    by (rewrite length_app; cbn; lia).
  rewrite (MultiObserver_push_inert (subscriber_of c d) a (post ++ [d])
             (pre ++ [c]) [] 1 _).
  - rewrite MultiObserver_push_S.
    rewrite length_map, !length_app. cbn [length].
    rewrite Nat.add_0_r, Nat.ltb_irrefl.
    unfold pushes. rewrite !map_app. cbn [map app].
    rewrite ?map_app, ?app_nil_r, <- ?app_assoc. reflexivity.
  - intros o ls Hin. apply subscriber_of_other. intros ->.
    apply in_app_or in Hin as [Hin | [Hin | []]]; [contradiction | ].
    apply Hd. exact Hin.
Qed.

Lemma push_visits_subscribed_during_witness :
  MultiObserver_push (subscriber_of 1%nat 9%nat) 5%nat 0%nat
    [Obs 1%nat; Obs 2%nat] (VNum 5) [] =
  Pushed [Obs 1%nat; Obs 2%nat; Obs 9%nat]
    [(1%nat, VNum 5); (2%nat, VNum 5); (9%nat, VNum 5)].
Proof.
  apply (push_visits_subscribed_during 1%nat 9%nat [] [2%nat] (VNum 5)).
  - discriminate.
  - intros [H | []]; discriminate.
  - discriminate.
Defined.

End FrpCommonExtraFacts.

(** * More properties of the streams *)

Module StreamExtraFacts.

Import StreamTs StreamExtra StreamFacts.

Lemma push_FilterStream {Ext} run_cb at_ fuel m a (w : World Ext) x fn :
  get m w = Some x ->
  class x = FilterStream fn ->
  push run_cb at_ (S fuel) m a w =
  if truthy (fn a) then publish run_cb at_ fuel m a w else Done w [].
Proof. intros Hget Hc. cbn [push]. rewrite Hget, Hc. reflexivity. Qed.

Lemma push_ScanStream {Ext} run_cb at_ fuel m a (w : World Ext) x fn :
  get m w = Some x ->
  class x = ScanStream fn ->
  push run_cb at_ (S fuel) m a w = publish run_cb at_ fuel m (fn a (last x)) w.
Proof. intros Hget Hc. cbn [push]. rewrite Hget, Hc. reflexivity. Qed.

Lemma push_SinkStream {Ext} run_cb at_ fuel m a (w : World Ext) x :
  get m w = Some x ->
  class x = SinkStream ->
  push run_cb at_ (S fuel) m a w = publish run_cb at_ fuel m a w.
Proof. intros Hget Hc. cbn [push]. rewrite Hget, Hc. reflexivity. Qed.

Lemma filter_network_is {Ext} k last0 p cbs0 cbs1 (e0 : Ext) :
  streams (filter_network k last0 p cbs0 cbs1 e0) =
  filter_network_streams k p cbs0 cbs1 last0 VUndefined.
Proof. unfold filter_network. rewrite !streams_subscribe_all. reflexivity. Qed.

Lemma publish_filter_network_inert {Ext} run_cb at_ fuel k p cbs0 cbs1 l0 l1 a
    (w : World Ext) :
  inert run_cb ->
  streams w = filter_network_streams k p cbs0 cbs1 l0 l1 ->
  exists w' t,
    publish run_cb at_ (S fuel) 0 a w = Done w' t /\
    streams w' =
      filter_network_streams k p cbs0 cbs1 a (if truthy (p a) then a else l1) /\
    published_by 0 t = [a] /\
    published_by 1 t = (if truthy (p a) then [a] else []).
Proof.
  intros Hinert Hw. unfold filter_network_streams in Hw.
  unfold publish.
  edestruct (publish_with_inert run_cb (push run_cb at_ (S fuel)) 0 a w)
    as (w1 & Hs1 & ->);
    [exact Hinert | rewrite (get_streams w _ 0 Hw); reflexivity | ].
  streams_of Hs1 Hw. cbn [eventListeners cbListeners length].
  erewrite ev_loop_S; [ | rewrite (get_streams w1 _ 0 Hs1); reflexivity | reflexivity].
  erewrite push_FilterStream;
    [ | rewrite (get_streams w1 _ 1 Hs1); reflexivity | reflexivity].
  destruct (truthy (p a)).
  - unfold publish.
    edestruct (publish_with_inert_leaf run_cb (push run_cb at_ fuel) 1 a w1)
      as (w2 & Hs2 & ->);
      [exact Hinert | rewrite (get_streams w1 _ 1 Hs1); reflexivity
       | reflexivity | ].
    streams_of Hs2 Hs1. cbn [cbListeners]. rewrite ?ev_loop_O.
    exists w2. eexists. split; [reflexivity | ]. split; [exact Hs2 | ].
    split; published_events.
  - rewrite ?ev_loop_O.
    exists w1. eexists. split; [reflexivity | ]. split; [exact Hs1 | ].
    split; published_events.
Qed.

(** X5. For a stream s and [filter(p, s)], with any subscribers on both
    that leave the stream objects alone while they are called (so none
    publishes on s from within a callback): for every sequence of
    occurrences published on s, [filter(p, s)] publishes exactly the
    occurrences for which [p] returns a truthy value, in the order in which
    s published them, and the run of publishes returns. *)
Theorem filter_keeps_matching {Ext} run_cb at_ fuel k last0 p cbs0 cbs1 (e0 : Ext)
    occs :
  inert run_cb ->
  exists w' tr,
    publish_all run_cb at_ (S fuel) 0 occs (filter_network k last0 p cbs0 cbs1 e0) [] =
      Done w' tr /\
    published_by 0 tr = occs /\
    published_by 1 tr = List.filter (fun a => truthy (p a)) occs.
Proof.
  intros Hinert.
  assert (forall occs l0 l1 (w : World Ext) tr,
            streams w = filter_network_streams k p cbs0 cbs1 l0 l1 ->
            exists w' t,
              publish_all run_cb at_ (S fuel) 0 occs w tr = Done w' (tr ++ t) /\
              published_by 0 t = occs /\
              published_by 1 t = List.filter (fun a => truthy (p a)) occs) as Hall.
  { clear occs. induction occs as [ | a occs IH]; intros l0 l1 w tr Hw.
    - exists w, []. cbn. rewrite app_nil_r. repeat split.
    - cbn [publish_all].
      destruct (publish_filter_network_inert run_cb at_ fuel k p cbs0 cbs1
                  l0 l1 a w Hinert Hw) as (w1 & t1 & -> & Hw1 & H0 & H1).
      destruct (IH _ _ w1 (tr ++ t1) Hw1) as (w' & t & Hrun & I0 & I1).
      exists w', (t1 ++ t).
      split; [rewrite Hrun, <- app_assoc; reflexivity | ].
      rewrite !published_by_app, H0, H1, I0, I1. cbn [List.filter].
      destruct (truthy (p a)); split; reflexivity. }
  destruct (Hall occs _ _ _ [] (filter_network_is k last0 p cbs0 cbs1 e0))
    as (w' & t & Hrun & H0 & H1).
  exists w', t. split; [exact Hrun | ]. split; [exact H0 | exact H1].
Qed.

Lemma filter_keeps_matching_witness :
  exists w' tr,
    publish_all spy (fun _ _ => VUndefined) 1 0 [VNum 0; VNum 3; VNum 0; VNum 4]
      (filter_network SinkStream VUndefined (fun x => x) [7] [8] []) [] =
      Done w' tr /\
    published_by 0 tr = [VNum 0; VNum 3; VNum 0; VNum 4] /\
    published_by 1 tr = [VNum 3; VNum 4].
Proof.
  exact (filter_keeps_matching spy (fun _ _ => VUndefined) 0 SinkStream VUndefined
           (fun x => x) [7] [8] [] [VNum 0; VNum 3; VNum 0; VNum 4] spy_inert).
Defined.

Lemma scan_network_is {Ext} k last0 fn init cbs0 cbs1 (e0 : Ext) :
  streams (scan_network k last0 fn init cbs0 cbs1 e0) =
  scan_network_streams k fn cbs0 cbs1 last0 init.
Proof. unfold scan_network. rewrite !streams_subscribe_all. reflexivity. Qed.

Lemma publish_scan_network_inert {Ext} run_cb at_ fuel k fn cbs0 cbs1 l0 l1 a
    (w : World Ext) :
  inert run_cb ->
  streams w = scan_network_streams k fn cbs0 cbs1 l0 l1 ->
  exists w' t,
    publish run_cb at_ (S fuel) 0 a w = Done w' t /\
    streams w' = scan_network_streams k fn cbs0 cbs1 a (fn a l1) /\
    published_by 0 t = [a] /\
    published_by 1 t = [fn a l1].
Proof.
  intros Hinert Hw. unfold scan_network_streams in Hw.
  unfold publish.
  edestruct (publish_with_inert run_cb (push run_cb at_ (S fuel)) 0 a w)
    as (w1 & Hs1 & ->);
    [exact Hinert | rewrite (get_streams w _ 0 Hw); reflexivity | ].
  streams_of Hs1 Hw. cbn [eventListeners cbListeners length].
  erewrite ev_loop_S; [ | rewrite (get_streams w1 _ 0 Hs1); reflexivity | reflexivity].
  erewrite push_ScanStream;
    [ | rewrite (get_streams w1 _ 1 Hs1); reflexivity | reflexivity].
  cbn [last]. unfold publish.
  edestruct (publish_with_inert_leaf run_cb (push run_cb at_ fuel) 1 (fn a l1) w1)
    as (w2 & Hs2 & ->);
    [exact Hinert | rewrite (get_streams w1 _ 1 Hs1); reflexivity
     | reflexivity | ].
  streams_of Hs2 Hs1. cbn [cbListeners]. rewrite ?ev_loop_O.
  exists w2. eexists. split; [reflexivity | ]. split; [exact Hs2 | ].
  split; published_events.
Qed.

(** X6. For a stream s and [scan(fn, startingValue, s)], with any
    subscribers on both that leave the stream objects alone while they are
    called: for the occurrences a1, a2, ... published on s the scan stream
    publishes the accumulators fn(a1, startingValue),
    fn(a2, fn(a1, startingValue)), ...; each occurrence is combined with
    the value published before it, which the scan stream keeps in its field
    [last], and after the occurrences that field holds the left fold of
    [fn] over them. *)
Theorem scan_publishes_accumulators {Ext} run_cb at_ fuel k last0 fn startingValue
    cbs0 cbs1 (e0 : Ext) occs :
  inert run_cb ->
  exists w' tr,
    publish_all run_cb at_ (S fuel) 0 occs
      (scan_network k last0 fn startingValue cbs0 cbs1 e0) [] = Done w' tr /\
    published_by 0 tr = occs /\
    published_by 1 tr = scan_values fn startingValue occs /\
    option_map last (get 1 w') =
      Some (fold_left (fun acc a => fn a acc) occs startingValue).
Proof.
  intros Hinert.
  assert (forall occs l0 l1 (w : World Ext) tr,
            streams w = scan_network_streams k fn cbs0 cbs1 l0 l1 ->
            exists w' t,
              publish_all run_cb at_ (S fuel) 0 occs w tr = Done w' (tr ++ t) /\
              published_by 0 t = occs /\
              published_by 1 t = scan_values fn l1 occs /\
              option_map last (get 1 w') =
                Some (fold_left (fun acc a => fn a acc) occs l1)) as Hall.
  { clear occs. induction occs as [ | a occs IH]; intros l0 l1 w tr Hw.
    - exists w, []. cbn [publish_all]. rewrite app_nil_r.
      rewrite (get_streams w _ 1 Hw). repeat split.
    - cbn [publish_all].
      destruct (publish_scan_network_inert run_cb at_ fuel k fn cbs0 cbs1
                  l0 l1 a w Hinert Hw) as (w1 & t1 & -> & Hw1 & H0 & H1).
      destruct (IH _ _ w1 (tr ++ t1) Hw1) as (w' & t & Hrun & I0 & I1 & Il).
      exists w', (t1 ++ t).
      split; [rewrite Hrun, <- app_assoc; reflexivity | ].
      rewrite !published_by_app, H0, H1, I0, I1.
      repeat split. exact Il. }
  destruct (Hall occs _ _ _ [] (scan_network_is k last0 fn startingValue cbs0 cbs1 e0))
    as (w' & t & Hrun & H0 & H1 & Hl).
  exists w', t. split; [exact Hrun | ].
  split; [exact H0 | split; [exact H1 | exact Hl]].
Qed.

Lemma scan_publishes_accumulators_witness :
  exists w' tr,
    publish_all spy (fun _ _ => VUndefined) 1 0 [VNum 1; VNum 2; VNum 3]
      (scan_network SinkStream VUndefined (fun a acc => VArr [a; acc]) (VNum 0)
         [7] [8] []) [] = Done w' tr /\
    published_by 0 tr = [VNum 1; VNum 2; VNum 3] /\
    published_by 1 tr =
      [VArr [VNum 1; VNum 0];
       VArr [VNum 2; VArr [VNum 1; VNum 0]];
       VArr [VNum 3; VArr [VNum 2; VArr [VNum 1; VNum 0]]]] /\
    option_map last (get 1 w') =
      Some (VArr [VNum 3; VArr [VNum 2; VArr [VNum 1; VNum 0]]]).
Proof.
  exact (scan_publishes_accumulators spy (fun _ _ => VUndefined) 0 SinkStream
           VUndefined (fun a acc => VArr [a; acc]) (VNum 0) [7] [8] []
           [VNum 1; VNum 2; VNum 3] spy_inert).
Defined.

Lemma merge_network_is {Ext} k0 k1 last0 last1 cbs0 cbs1 cbs2 (e0 : Ext) :
  streams (merge_network k0 k1 last0 last1 cbs0 cbs1 cbs2 e0) =
  merge_network_streams k0 k1 cbs0 cbs1 cbs2 last0 last1 VUndefined.
Proof. unfold merge_network. rewrite !streams_subscribe_all. reflexivity. Qed.

Lemma publish_merge_network_inert {Ext} run_cb at_ fuel k0 k1 cbs0 cbs1 cbs2
    l0 l1 l2 s a (w : World Ext) :
  inert run_cb ->
  s = 0 \/ s = 1 ->
  streams w = merge_network_streams k0 k1 cbs0 cbs1 cbs2 l0 l1 l2 ->
  exists w' t,
    publish run_cb at_ (S fuel) s a w = Done w' t /\
    streams w' =
      merge_network_streams k0 k1 cbs0 cbs1 cbs2
        (if Nat.eqb s 0 then a else l0) (if Nat.eqb s 0 then l1 else a) a /\
    published_by 2 t = [a].
Proof.
  intros Hinert Hs Hw. unfold merge_network_streams in Hw.
  unfold publish.
  destruct Hs as [-> | ->].
  - edestruct (publish_with_inert run_cb (push run_cb at_ (S fuel)) 0 a w)
      as (w1 & Hs1 & ->);
      [exact Hinert | rewrite (get_streams w _ 0 Hw); reflexivity | ].
    streams_of Hs1 Hw. cbn [eventListeners cbListeners length].
    erewrite ev_loop_S;
      [ | rewrite (get_streams w1 _ 0 Hs1); reflexivity | reflexivity].
    erewrite push_SinkStream;
      [ | rewrite (get_streams w1 _ 2 Hs1); reflexivity | reflexivity].
    unfold publish.
    edestruct (publish_with_inert_leaf run_cb (push run_cb at_ fuel) 2 a w1)
      as (w2 & Hs2 & ->);
      [exact Hinert | rewrite (get_streams w1 _ 2 Hs1); reflexivity
       | reflexivity | ].
    streams_of Hs2 Hs1. cbn [cbListeners]. rewrite ?ev_loop_O.
    exists w2. eexists. split; [reflexivity | ]. split; [exact Hs2 | ].
    published_events.
  - edestruct (publish_with_inert run_cb (push run_cb at_ (S fuel)) 1 a w)
      as (w1 & Hs1 & ->);
      [exact Hinert | rewrite (get_streams w _ 1 Hw); reflexivity | ].
    streams_of Hs1 Hw. cbn [eventListeners cbListeners length].
    erewrite ev_loop_S;
      [ | rewrite (get_streams w1 _ 1 Hs1); reflexivity | reflexivity].
    erewrite push_SinkStream;
      [ | rewrite (get_streams w1 _ 2 Hs1); reflexivity | reflexivity].
    unfold publish.
    edestruct (publish_with_inert_leaf run_cb (push run_cb at_ fuel) 2 a w1)
      as (w2 & Hs2 & ->);
      [exact Hinert | rewrite (get_streams w1 _ 2 Hs1); reflexivity
       | reflexivity | ].
    streams_of Hs2 Hs1. cbn [cbListeners]. rewrite ?ev_loop_O.
    exists w2. eexists. split; [reflexivity | ]. split; [exact Hs2 | ].
    published_events.
Qed.

(** X7. For two streams s0 and s1 neither of which is derived from the
    other (the merged stream is the only event listener of each), with any
    subscribers on the three streams that leave the stream objects alone
    while they are called: for any interleaving of publishes on s0 and s1,
    [merge(s0, s1)] publishes the same values in the same order. *)
Theorem merge_interleaves {Ext} run_cb at_ fuel k0 k1 last0 last1 cbs0 cbs1 cbs2
    (e0 : Ext) occs :
  inert run_cb ->
  Forall (fun o => fst o = 0 \/ fst o = 1) occs ->
  exists w' tr,
    publish_each run_cb at_ (S fuel) occs
      (merge_network k0 k1 last0 last1 cbs0 cbs1 cbs2 e0) [] = Done w' tr /\
    published_by 2 tr = List.map snd occs.
Proof.
  intros Hinert Hocc.
  assert (forall l0 l1 l2 (w : World Ext) tr,
            streams w = merge_network_streams k0 k1 cbs0 cbs1 cbs2 l0 l1 l2 ->
            exists w' t,
              publish_each run_cb at_ (S fuel) occs w tr = Done w' (tr ++ t) /\
              published_by 2 t = List.map snd occs) as Hall.
  { induction Hocc as [ | [s a] occs Hs _ IH]; intros l0 l1 l2 w tr Hw.
    - exists w, []. cbn. rewrite app_nil_r. repeat split.
    - cbn [publish_each]. cbn [fst] in Hs.
      destruct (publish_merge_network_inert run_cb at_ fuel k0 k1 cbs0 cbs1 cbs2
                  l0 l1 l2 s a w Hinert Hs Hw) as (w1 & t1 & -> & Hw1 & H2).
      destruct (IH _ _ _ w1 (tr ++ t1) Hw1) as (w' & t & Hrun & I2).
      exists w', (t1 ++ t).
      split; [rewrite Hrun, <- app_assoc; reflexivity | ].
      rewrite published_by_app, H2, I2. reflexivity. }
  destruct (Hall _ _ _ _ [] (merge_network_is k0 k1 last0 last1 cbs0 cbs1 cbs2 e0))
    as (w' & t & Hrun & H2).
  exists w', t. split; [exact Hrun | exact H2].
Qed.

Lemma merge_interleaves_witness :
  exists w' tr,
    publish_each spy (fun _ _ => VUndefined) 1
      [(0, VNum 1); (1, VNum 2); (0, VNum 3)]
      (merge_network SinkStream SinkStream VUndefined VUndefined [6] [] [7] []) [] =
      Done w' tr /\
    published_by 2 tr = [VNum 1; VNum 2; VNum 3].
Proof.
  apply (merge_interleaves spy (fun _ _ => VUndefined) 0 SinkStream SinkStream
           VUndefined VUndefined [6] [] [7] []
           [(0, VNum 1); (1, VNum 2); (0, VNum 3)] spy_inert).
  repeat (apply Forall_cons; [cbn; auto | ]). apply Forall_nil.
Defined.

Lemma merge_self_network_eq k last0 cb :
  merge_self_network k last0 cb = merge_self_network_at k cb last0 VUndefined [].
Proof. reflexivity. Qed.

Lemma publish_merge_self_network at_ fuel k cb l0 l1 log a :
  publish spy at_ (S fuel) 0 a (merge_self_network_at k cb l0 l1 log) =
  Done (merge_self_network_at k cb a a (log ++ [(cb, a); (cb, a)]))
    [EPublish 0 a;
     EPush 0 0 1 a [EPublish 1 a; ECallback 1 0 cb a];
     EPush 0 1 1 a [EPublish 1 a; ECallback 1 0 cb a]].
Proof.
  unfold publish, publish_with, merge_self_network_at. cbn.
  unfold spy. cbn. rewrite <- ?app_assoc. reflexivity.
Qed.

Lemma publish_all_merge_self_network at_ fuel k cb occs :
  forall l0 l1 log tr,
  exists w' t,
    publish_all spy at_ (S fuel) 0 occs (merge_self_network_at k cb l0 l1 log) tr =
      Done w' (tr ++ t) /\
    published_by 1 t = flat_map (fun a => [a; a]) occs /\
    ext w' = log ++ calls cb (flat_map (fun a => [a; a]) occs).
Proof.
  induction occs as [ | a occs IH]; intros l0 l1 log tr.
  - eexists _, []. cbn. rewrite !app_nil_r. repeat split.
  - cbn [publish_all]. rewrite publish_merge_self_network.
    match goal with
    | |- context [publish_all _ _ _ _ _ _ (tr ++ ?t1)] =>
        destruct (IH a a (log ++ [(cb, a); (cb, a)]) (tr ++ t1))
          as (w' & t & Hrun & H1 & Hlog);
        exists w', (t1 ++ t)
    end.
    split; [rewrite Hrun, <- app_assoc; reflexivity | ].
    rewrite published_by_app, H1, Hlog.
    cbn. rewrite <- ?app_assoc. split; reflexivity.
Qed.

(** X8. Merging a stream with itself registers the merged stream twice
    on it: [merge(s, s)] publishes every occurrence of [s] twice in a row
    and its subscriber is called twice with each. *)
Theorem merge_self_duplicates at_ fuel k last0 cb occs :
  exists w' tr,
    publish_all spy at_ (S fuel) 0 occs (merge_self_network k last0 cb) [] =
      Done w' tr /\
    published_by 1 tr = flat_map (fun a => [a; a]) occs /\
    ext w' = calls cb (flat_map (fun a => [a; a]) occs).
Proof.
  rewrite merge_self_network_eq.
  destruct (publish_all_merge_self_network at_ fuel k cb occs last0 VUndefined [] [])
    as (w' & t & Hrun & H1 & Hlog).
  exists w', t. split; [exact Hrun | ]. split; [exact H1 | exact Hlog].
Qed.

Lemma publish_sampling_network {Ext}
    (write : cbid -> jsval -> Ext -> Ext) (read : Behavior -> Ext -> jsval)
    fuel k fn b cb l0 l1 (e : Ext) a :
  publish (writer write) (reader read) (S fuel) 0 a
    (sampling_network_at k fn b cb l0 l1 e) =
  Done (sampling_network_at k fn b cb a (fn a (read b (write cb a e))) (write cb a e))
    [EPublish 0 a; ECallback 0 0 cb a;
     EPush 0 0 1 a [EPublish 1 (fn a (read b (write cb a e)))]].
Proof. reflexivity. Qed.

Lemma publish_all_sampling_network {Ext}
    (write : cbid -> jsval -> Ext -> Ext) (read : Behavior -> Ext -> jsval)
    fuel k fn b cb occs :
  forall l0 l1 (e : Ext) tr,
  exists w' t,
    publish_all (writer write) (reader read) (S fuel) 0 occs
      (sampling_network_at k fn b cb l0 l1 e) tr = Done w' (tr ++ t) /\
    published_by 1 t = sampled write read fn b cb e occs /\
    ext w' = fold_left (fun e' a => write cb a e') occs e.
Proof.
  induction occs as [ | a occs IH]; intros l0 l1 e tr.
  - eexists _, []. cbn. rewrite !app_nil_r. repeat split.
  - cbn [publish_all]. rewrite publish_sampling_network.
    match goal with
    | |- context [publish_all _ _ _ _ _ _ (tr ++ ?t1)] =>
        destruct (IH a (fn a (read b (write cb a e))) (write cb a e) (tr ++ t1))
          as (w' & t & Hrun & H1 & Hext);
        exists w', (t1 ++ t)
    end.
    split; [rewrite Hrun, <- app_assoc; reflexivity | ].
    rewrite published_by_app, H1, Hext. split; reflexivity.
Qed.

(** X9. The subscribers of a stream are called before the streams derived
    from it are pushed, whatever order they were attached in: when [s]
    publishes [a], a behavior sampled by [snapshotWith(fn, b, s)] already
    has the value that the subscriber of [s] gave it on being called with
    [a], and the snapshot stream publishes [fn(a, v)] for that value
    [v]. *)
Theorem snapshotWith_samples_after_subscribers {Ext}
    (write : cbid -> jsval -> Ext -> Ext) (read : Behavior -> Ext -> jsval)
    fuel k last0 fn b cb (e : Ext) occs :
  exists w' tr,
    publish_all (writer write) (reader read) (S fuel) 0 occs
      (sampling_network k last0 fn b cb e) [] = Done w' tr /\
    published_by 1 tr = sampled write read fn b cb e occs /\
    ext w' = fold_left (fun e' a => write cb a e') occs e.
Proof.
  change (sampling_network k last0 fn b cb e)
    with (sampling_network_at k fn b cb last0 VUndefined e).
  destruct (publish_all_sampling_network write read fuel k fn b cb occs
              last0 VUndefined e [])
    as (w' & t & Hrun & H1 & Hext).
  exists w', t. split; [exact Hrun | ]. split; [exact H1 | exact Hext].
Qed.

End StreamExtraFacts.

(** * Properties of the setter [def] *)

Module StreamDefFacts.

Import StreamTs StreamDef.

Lemma update_nth_error_same {A} (f : A -> A) l :
  forall i x, nth_error l i = Some x -> nth_error (update i f l) i = Some (f x).
Proof.
  induction l as [ | y l IH]; intros [ | i] x H; cbn in *; try discriminate.
  - injection H as ->. reflexivity.
  - apply IH. exact H.
Qed.

Lemma update_nth_error_other {A} (f : A -> A) l :
  forall i j, i <> j -> nth_error (update i f l) j = nth_error l j.
Proof.
  induction l as [ | y l IH]; intros [ | i] [ | j] H; cbn;
    try reflexivity; try contradiction.
  apply IH. intros E. apply H. rewrite E. reflexivity.
Qed.

(** X10. [this.def = stream] appends the listeners of [this] to those of
    [stream] and makes both streams hold the result: afterwards the
    callbacks (and the event listeners) of either stream are those of
    [stream] followed by those of [this], and the fields [last] are
    untouched. This holds also when the two streams already share their
    arrays ([s.def = s], or [p.def = s] a second time): every listener is
    then held twice. *)
Theorem def_merges_listeners {Ext} this stream (w : World Ext) t st
    cbs_t cbs_s evs_t evs_s :
  get this w = Some t ->
  get stream w = Some st ->
  cbs_of this w = Some cbs_t ->
  cbs_of stream w = Some cbs_s ->
  evs_of this w = Some evs_t ->
  evs_of stream w = Some evs_s ->
  cbs_of this (set_def this stream w) = Some (cbs_s ++ cbs_t) /\
  cbs_of stream (set_def this stream w) = Some (cbs_s ++ cbs_t) /\
  evs_of this (set_def this stream w) = Some (evs_s ++ evs_t) /\
  evs_of stream (set_def this stream w) = Some (evs_s ++ evs_t) /\
  option_map last (get this (set_def this stream w)) = Some (last t) /\
  option_map last (get stream (set_def this stream w)) = Some (last st).
Proof.
  intros Ht Hst Hct Hcs Het Hes.
  unfold cbs_of in Hct, Hcs. unfold evs_of in Het, Hes.
  rewrite Ht in Hct, Het. rewrite Hst in Hcs, Hes.
  unfold set_def. rewrite Ht, Hst, Hct.
  cbn [push_cbs evArrays]. rewrite Het.
  unfold cbs_of, evs_of, get, push_evs, push_cbs.
  cbn [streams evArrays cbArrays ext].
  unfold get in Ht, Hst.
  rewrite (update_nth_error_same _ _ _ _ Ht).
  cbn [cbListeners eventListeners last].
  rewrite (update_nth_error_same _ _ _ _ Hcs).
  rewrite (update_nth_error_same _ _ _ _ Hes).
  repeat (split; [reflexivity | ]).
  destruct (Nat.eq_dec this stream) as [E | E].
  - subst stream. rewrite (update_nth_error_same _ _ _ _ Ht).
    cbn [cbListeners eventListeners last].
    rewrite (update_nth_error_same _ _ _ _ Hcs).
    rewrite (update_nth_error_same _ _ _ _ Hes).
    rewrite Ht in Hst. injection Hst as ->.
    repeat split.
  - rewrite (update_nth_error_other _ _ _ _ E), Hst.
    rewrite (update_nth_error_same _ _ _ _ Hcs).
    rewrite (update_nth_error_same _ _ _ _ Hes).
    repeat split.
Qed.

Lemma def_merges_listeners_witness :
  cbs_of 0 (set_def 0 1
              (mkWorld [mkStream VUndefined 0 0 SinkStream;
                        mkStream (VNum 4) 1 1 SinkStream]
                 [[2]; [3]] [[7]; [8]] tt)) = Some [8; 7] /\
  cbs_of 1 (set_def 0 1
              (mkWorld [mkStream VUndefined 0 0 SinkStream;
                        mkStream (VNum 4) 1 1 SinkStream]
                 [[2]; [3]] [[7]; [8]] tt)) = Some [8; 7] /\
  evs_of 0 (set_def 0 1
              (mkWorld [mkStream VUndefined 0 0 SinkStream;
                        mkStream (VNum 4) 1 1 SinkStream]
                 [[2]; [3]] [[7]; [8]] tt)) = Some [3; 2] /\
  evs_of 1 (set_def 0 1
              (mkWorld [mkStream VUndefined 0 0 SinkStream;
                        mkStream (VNum 4) 1 1 SinkStream]
                 [[2]; [3]] [[7]; [8]] tt)) = Some [3; 2] /\
  option_map last
    (get 0 (set_def 0 1
              (mkWorld [mkStream VUndefined 0 0 SinkStream;
                        mkStream (VNum 4) 1 1 SinkStream]
                 [[2]; [3]] [[7]; [8]] tt))) = Some VUndefined /\
  option_map last
    (get 1 (set_def 0 1
              (mkWorld [mkStream VUndefined 0 0 SinkStream;
                        mkStream (VNum 4) 1 1 SinkStream]
                 [[2]; [3]] [[7]; [8]] tt))) = Some (VNum 4).
Proof.
  exact (def_merges_listeners 0 1
           (mkWorld [mkStream VUndefined 0 0 SinkStream;
                     mkStream (VNum 4) 1 1 SinkStream]
              [[2]; [3]] [[7]; [8]] tt)
           (mkStream VUndefined 0 0 SinkStream) (mkStream (VNum 4) 1 1 SinkStream)
           [7] [8] [2] [3] eq_refl eq_refl eq_refl eq_refl eq_refl eq_refl).
Defined.

Lemma streams_set_def {Ext} this stream (w : World Ext) t st :
  get this w = Some t ->
  get stream w = Some st ->
  streams (set_def this stream w) =
  update this
    (fun x => mkStream (last x) (eventListeners st) (cbListeners st) (class x))
    (streams w).
Proof.
  intros Ht Hst. unfold set_def. rewrite Ht, Hst.
  destruct (nth_error (cbArrays w) (cbListeners t)) as [items | ];
    cbn [push_cbs evArrays];
    destruct (nth_error (evArrays w) (eventListeners t)) as [items' | ];
    reflexivity.
Qed.

Lemma get_set_def {Ext} this stream (w : World Ext) t st :
  get this w = Some t ->
  get stream w = Some st ->
  get this (set_def this stream w) =
    Some (mkStream (last t) (eventListeners st) (cbListeners st) (class t)) /\
  get stream (set_def this stream w) =
    Some (mkStream (last st) (eventListeners st) (cbListeners st) (class st)).
Proof.
  intros Ht Hst. unfold get.
  rewrite (streams_set_def this stream w t st Ht Hst).
  unfold get in Ht, Hst.
  split; [exact (update_nth_error_same _ _ _ _ Ht) | ].
  destruct (Nat.eq_dec this stream) as [E | E].
  - subst stream. rewrite (update_nth_error_same _ _ _ _ Ht).
    rewrite Ht in Hst. injection Hst as ->. reflexivity.
  - rewrite (update_nth_error_other _ _ _ _ E), Hst.
    destruct st; reflexivity.
Qed.

(** X11. After [this.def = stream] the two streams share their listener
    arrays: a callback subscribed to either of them, and an event listener
    attached to either of them (by [map], [filter], [scan], [merge] or a
    snapshot), is from then on a listener of both. *)
Theorem def_shares_arrays {Ext} this stream (w : World Ext) t st cbs evs x fn e :
  get this w = Some t ->
  get stream w = Some st ->
  cbs_of stream (set_def this stream w) = Some cbs ->
  evs_of stream (set_def this stream w) = Some evs ->
  x = this \/ x = stream ->
  cbs_of this (subscribe fn x (set_def this stream w)) = Some (cbs ++ [fn]) /\
  cbs_of stream (subscribe fn x (set_def this stream w)) = Some (cbs ++ [fn]) /\
  evs_of this (add_eventListener x e (set_def this stream w)) = Some (evs ++ [e]) /\
  evs_of stream (add_eventListener x e (set_def this stream w)) = Some (evs ++ [e]).
Proof.
  intros Ht Hst Hcbs Hevs Hx.
  destruct (get_set_def this stream w t st Ht Hst) as [Hgt Hgs].
  unfold cbs_of in Hcbs. unfold evs_of in Hevs.
  rewrite Hgs in Hcbs, Hevs. cbn [cbListeners eventListeners] in Hcbs, Hevs.
  assert (subscribe fn x (set_def this stream w) =
          push_cbs (cbListeners st) [fn] (set_def this stream w)) as ->
    by (unfold subscribe; destruct Hx as [-> | ->];
        [rewrite Hgt | rewrite Hgs]; reflexivity).
  assert (add_eventListener x e (set_def this stream w) =
          push_evs (eventListeners st) [e] (set_def this stream w)) as ->
    by (unfold add_eventListener; destruct Hx as [-> | ->];
        [rewrite Hgt | rewrite Hgs]; reflexivity).
  unfold cbs_of, evs_of, get, push_cbs, push_evs.
  cbn [streams cbArrays evArrays].
  unfold get in Hgt, Hgs. rewrite Hgt, Hgs.
  cbn [cbListeners eventListeners].
  rewrite (update_nth_error_same _ _ _ _ Hcbs).
  rewrite (update_nth_error_same _ _ _ _ Hevs).
  repeat split.
Qed.

Lemma def_shares_arrays_witness :
  cbs_of 0 (subscribe 9 1
              (set_def 0 1
                 (mkWorld [mkStream VUndefined 0 0 SinkStream;
                           mkStream (VNum 4) 1 1 SinkStream]
                    [[2]; [3]] [[7]; [8]] tt))) = Some [8; 7; 9] /\
  cbs_of 1 (subscribe 9 1
              (set_def 0 1
                 (mkWorld [mkStream VUndefined 0 0 SinkStream;
                           mkStream (VNum 4) 1 1 SinkStream]
                    [[2]; [3]] [[7]; [8]] tt))) = Some [8; 7; 9] /\
  evs_of 0 (add_eventListener 1 5
              (set_def 0 1
                 (mkWorld [mkStream VUndefined 0 0 SinkStream;
                           mkStream (VNum 4) 1 1 SinkStream]
                    [[2]; [3]] [[7]; [8]] tt))) = Some [3; 2; 5] /\
  evs_of 1 (add_eventListener 1 5
              (set_def 0 1
                 (mkWorld [mkStream VUndefined 0 0 SinkStream;
                           mkStream (VNum 4) 1 1 SinkStream]
                    [[2]; [3]] [[7]; [8]] tt))) = Some [3; 2; 5].
Proof.
  exact (def_shares_arrays 0 1
           (mkWorld [mkStream VUndefined 0 0 SinkStream;
                     mkStream (VNum 4) 1 1 SinkStream]
              [[2]; [3]] [[7]; [8]] tt)
           (mkStream VUndefined 0 0 SinkStream) (mkStream (VNum 4) 1 1 SinkStream)
           [8; 7] [3; 2] 1 9 5 eq_refl eq_refl eq_refl eq_refl
           (or_intror eq_refl)).
Defined.

Lemma def_network_eq kp ks f cbP cbS cbM :
  def_network kp ks f cbP cbS cbM =
  def_network_at kp ks f cbP cbS cbM VUndefined VUndefined VUndefined [].
Proof. reflexivity. Qed.

Lemma publish_def_network_0 at_ fuel kp ks f cbP cbS cbM l0 l1 l2 log a :
  publish spy at_ (S fuel) 0 a (def_network_at kp ks f cbP cbS cbM l0 l1 l2 log) =
  Done (def_network_at kp ks f cbP cbS cbM a l1 (f a)
          (log ++ def_calls f cbP cbS cbM a))
    [EPublish 0 a; ECallback 0 0 cbS a; ECallback 0 1 cbP a;
     EPush 0 0 2 a [EPublish 2 (f a); ECallback 2 0 cbM (f a)]].
Proof.
  unfold publish, publish_with, def_network_at, def_calls. cbn.
  unfold spy. cbn. rewrite <- ?app_assoc. reflexivity.
Qed.

Lemma publish_def_network_1 at_ fuel kp ks f cbP cbS cbM l0 l1 l2 log a :
  publish spy at_ (S fuel) 1 a (def_network_at kp ks f cbP cbS cbM l0 l1 l2 log) =
  Done (def_network_at kp ks f cbP cbS cbM l0 a (f a)
          (log ++ def_calls f cbP cbS cbM a))
    [EPublish 1 a; ECallback 1 0 cbS a; ECallback 1 1 cbP a;
     EPush 1 0 2 a [EPublish 2 (f a); ECallback 2 0 cbM (f a)]].
Proof.
  unfold publish, publish_with, def_network_at, def_calls. cbn.
  unfold spy. cbn. rewrite <- ?app_assoc. reflexivity.
Qed.

Lemma publish_each_def_network at_ fuel kp ks f cbP cbS cbM occs :
  Forall (fun o => fst o = 0 \/ fst o = 1) occs ->
  forall l0 l1 l2 log tr,
  exists w' t,
    publish_each spy at_ (S fuel) occs
      (def_network_at kp ks f cbP cbS cbM l0 l1 l2 log) tr = Done w' (tr ++ t) /\
    published_by 2 t = List.map (fun o => f (snd o)) occs /\
    ext w' = log ++ flat_map (fun o => def_calls f cbP cbS cbM (snd o)) occs.
Proof.
  induction 1 as [ | [s a] occs Hs _ IH]; intros l0 l1 l2 log tr.
  - eexists _, []. cbn. rewrite !app_nil_r. repeat split.
  - cbn [publish_each]. cbn [fst] in Hs.
    destruct Hs as [-> | ->].
    + rewrite publish_def_network_0.
      match goal with
      | |- context [publish_each _ _ _ _ _ (tr ++ ?t1)] =>
          destruct (IH a l1 (f a) (log ++ def_calls f cbP cbS cbM a) (tr ++ t1))
            as (w' & t & Hrun & H2 & Hlog);
          exists w', (t1 ++ t)
      end.
      split; [rewrite Hrun, <- app_assoc; reflexivity | ].
      rewrite StreamFacts.published_by_app, H2, Hlog.
      cbn. rewrite <- ?app_assoc. split; reflexivity.
    + rewrite publish_def_network_1.
      match goal with
      | |- context [publish_each _ _ _ _ _ (tr ++ ?t1)] =>
          destruct (IH l0 a (f a) (log ++ def_calls f cbP cbS cbM a) (tr ++ t1))
            as (w' & t & Hrun & H2 & Hlog);
          exists w', (t1 ++ t)
      end.
      split; [rewrite Hrun, <- app_assoc; reflexivity | ].
      rewrite StreamFacts.published_by_app, H2, Hlog.
      cbn. rewrite <- ?app_assoc. split; reflexivity.
Qed.

(** X12. A placeholder stream [p] with a subscriber and a derived stream
    [map(f, p)], defined by [p.def = s]: from then on an occurrence
    published on [s] and one published on [p] do the same, each calls the
    subscriber of [s], then the subscriber of [p], and makes [map(f, p)]
    publish [f(a)] to its subscriber, for any interleaving of publishes on
    the two streams. *)
Theorem def_joins_streams at_ fuel kp ks f cbP cbS cbM occs :
  Forall (fun o => fst o = 0 \/ fst o = 1) occs ->
  exists w' tr,
    publish_each spy at_ (S fuel) occs (def_network kp ks f cbP cbS cbM) [] =
      Done w' tr /\
    published_by 2 tr = List.map (fun o => f (snd o)) occs /\
    ext w' = flat_map (fun o => def_calls f cbP cbS cbM (snd o)) occs.
Proof.
  intros Hocc. rewrite def_network_eq.
  destruct (publish_each_def_network at_ fuel kp ks f cbP cbS cbM occs Hocc
              VUndefined VUndefined VUndefined [] [])
    as (w' & t & Hrun & H2 & Hlog).
  exists w', t. split; [exact Hrun | ]. split; [exact H2 | exact Hlog].
Qed.

Lemma def_joins_streams_witness :
  exists w' tr,
    publish_each spy (fun _ _ => VUndefined) 1 [(1, VNum 1); (0, VNum 2)]
      (def_network SinkStream SinkStream (fun x => VArr [x]) 7 8 9) [] =
      Done w' tr /\
    published_by 2 tr = [VArr [VNum 1]; VArr [VNum 2]] /\
    ext w' = [(8, VNum 1); (7, VNum 1); (9, VArr [VNum 1]);
              (8, VNum 2); (7, VNum 2); (9, VArr [VNum 2])].
Proof.
  apply (def_joins_streams (fun _ _ => VUndefined) 0 SinkStream SinkStream
           (fun x => VArr [x]) 7 8 9 [(1, VNum 1); (0, VNum 2)]).
  repeat (apply Forall_cons; [cbn; auto | ]). apply Forall_nil.
Defined.

End StreamDefFacts.

(** * More properties of the semantic representation *)

Module FutureSemanticsExtraFacts.

Import FutureSemantics FutureSemanticsExtra.
Open Scope Z_scope.

Lemma semantic_LiftFuture fn futures :
  semantic (LiftFuture fn futures) =
  match traverse semantic futures with
  | None => None
  | Some sems =>
      Some (occurrence (Math_max (List.map occ_time sems)) (fn (List.map value sems)))
  end.
Proof.
  cbn [semantic].
  match goal with
  | |- match ?x with _ => _ end = _ =>
      replace x with (traverse semantic futures); [reflexivity | ]
  end.
  induction futures as [ | x rest IH]; [reflexivity | ].
  cbn [traverse]. rewrite IH. reflexivity.
Qed.

Section FutureInduction.

Variable P : Future -> Prop.
Hypothesis HTest : forall t v, P (TestFuture t v).
Hypothesis HOf : forall v, P (OfFuture v).
Hypothesis HNever : P NeverFuture.
Hypothesis HSink : P SinkFuture.
Hypothesis HCombine : forall a b, P a -> P b -> P (CombineFuture a b).
Hypothesis HMap : forall fn p, P p -> P (MapFuture fn p).
Hypothesis HMapTo : forall v p, P p -> P (MapToFuture v p).
Hypothesis HLift : forall fn fs, Forall P fs -> P (LiftFuture fn fs).
Hypothesis HFlatMap : forall fn p, (forall v, P (fn v)) -> P p -> P (FlatMapFuture fn p).

Lemma Future_induction : forall f, P f.
Proof.
  exact
    (fix go (f : Future) : P f :=
       match f with
       | TestFuture t v => HTest t v
       | OfFuture v => HOf v
       | NeverFuture => HNever
       | SinkFuture => HSink
       | CombineFuture a b => HCombine a b (go a) (go b)
       | MapFuture fn p => HMap fn p (go p)
       | MapToFuture v p => HMapTo v p (go p)
       | LiftFuture fn fs =>
           HLift fn fs
             ((fix all (l : list Future) : Forall P l :=
                 match l with
                 | [] => Forall_nil P
                 | x :: rest => Forall_cons x (go x) (all rest)
                 end) fs)
       | FlatMapFuture fn p => HFlatMap fn p (fun v => go (fn v)) (go p)
       end).
Qed.

End FutureInduction.

Lemma semantic_embed f : semantic (embed f) = FutureSemantics.semantic f.
Proof.
  induction f; cbn [embed semantic FutureSemantics.semantic];
    rewrite ?IHf, ?IHf1, ?IHf2; reflexivity.
Qed.

Lemma not_occur_never_time s :
  doesOccur s = false -> time s = InfinityString.
Proof. unfold doesOccur. destruct (time s); [discriminate | discriminate | reflexivity]. Qed.

Lemma occurrence_canonical n v :
  doesOccur (occurrence n v) = false -> occurrence n v = neverOccurringFuture.
Proof. destruct n; cbn; [discriminate | discriminate | reflexivity]. Qed.

(** A semantic representation that does not occur is [neverOccurringFuture]. *)
Lemma not_occurring_is_never f :
  forall s, semantic f = Some s -> doesOccur s = false -> s = neverOccurringFuture.
Proof.
  induction f using Future_induction; intros s Hs Hn.
  - injection Hs as <-. discriminate.
  - injection Hs as <-. discriminate.
  - injection Hs as <-. reflexivity.
  - discriminate.
  - cbn [semantic] in Hs.
    destruct (semantic f1) as [a | ]; [ | discriminate].
    destruct (semantic f2) as [b | ]; [ | discriminate].
    injection Hs as <-.
    destruct (time_le (time a) (time b)); [apply IHf1 | apply IHf2];
      auto.
  - cbn [semantic] in Hs.
    destruct (semantic f) as [p | ]; [ | discriminate].
    injection Hs as <-.
    destruct (doesOccur p) eqn:E; [ | reflexivity].
    unfold doesOccur in *. cbn [time] in Hn. rewrite E in Hn. discriminate.
  - cbn [semantic] in Hs.
    destruct (semantic f) as [p | ]; [ | discriminate].
    injection Hs as <-.
    destruct (doesOccur p) eqn:E; [ | reflexivity].
    unfold doesOccur in *. cbn [time] in Hn. rewrite E in Hn. discriminate.
  - rewrite semantic_LiftFuture in Hs.
    destruct (traverse semantic fs) as [sems | ]; [ | discriminate].
    injection Hs as <-. apply occurrence_canonical. exact Hn.
  - cbn [semantic] in Hs.
    destruct (semantic f) as [a | ]; [ | discriminate].
    destruct (doesOccur a); [ | injection Hs as <-; reflexivity].
    destruct (semantic (fn (value a))) as [b | ]; [ | discriminate].
    injection Hs as <-.
    destruct (doesOccur b); [ | reflexivity].
    apply occurrence_canonical. exact Hn.
Qed.

(** X13. Whatever future is built, its semantic representation is either
    an occurrence, with a time that is a number, or the object
    [neverOccurringFuture] itself: a time ["infinity"] never comes with a
    value. *)
Theorem semantic_never_canonical f s :
  semantic f = Some s ->
  (doesOccur s = true /\ time s <> InfinityString) \/ s = neverOccurringFuture.
Proof.
  intros Hs. destruct (doesOccur s) eqn:E.
  - left. split; [reflexivity | ].
    intros Ht. unfold doesOccur in E. rewrite Ht in E. discriminate.
  - right. exact (not_occurring_is_never f s Hs E).
Qed.

Lemma semantic_never_canonical_witness :
  (doesOccur (mkSem InfinityString VUndefined) = true /\
   time (mkSem InfinityString VUndefined) <> InfinityString) \/
  mkSem InfinityString VUndefined = neverOccurringFuture.
Proof.
  exact (semantic_never_canonical
           (FlatMapFuture (fun v => MapFuture (fun x => VArr [v; x]) NeverFuture)
              (TestFuture 3 (VNum 1)))
           (mkSem InfinityString VUndefined) eq_refl).
Defined.

Lemma time_le_never_r t : t <> InfinityString -> time_le t InfinityString = false.
Proof. destruct t; [reflexivity | reflexivity | contradiction]. Qed.

Lemma time_le_never_l t : t <> InfinityString -> time_le InfinityString t = false.
Proof. destruct t; [reflexivity | reflexivity | contradiction]. Qed.

(** X14. The semantic representation of [combine] is not symmetric in a
    future that never occurs: [a.time <= b.time] compares a number with
    the string ["infinity"], which is false either way round. So for a
    future [g] that never occurs, [combine(f, g)] never occurs, whatever
    [f] is, while [combine(g, f)] is [f]. *)
Theorem combine_never_semantic f g a b :
  semantic f = Some a ->
  semantic g = Some b ->
  doesOccur b = false ->
  semantic (combine f g) = Some neverOccurringFuture /\
  semantic (combine g f) = Some a.
Proof.
  intros Ha Hb Hn.
  pose proof (not_occurring_is_never g b Hb Hn) as ->.
  unfold combine. cbn [semantic]. rewrite Ha, Hb.
  cbn [time neverOccurringFuture].
  destruct (doesOccur a) eqn:Ea.
  - assert (time a <> InfinityString) as Hne
      by (intros E; unfold doesOccur in Ea; rewrite E in Ea; discriminate).
    rewrite (time_le_never_r _ Hne), (time_le_never_l _ Hne).
    split; reflexivity.
  - pose proof (not_occurring_is_never f a Ha Ea) as ->.
    split; reflexivity.
Qed.

Lemma combine_never_semantic_witness :
  semantic (combine (TestFuture 3 (VStr "a")) never) = Some neverOccurringFuture /\
  semantic (combine never (TestFuture 3 (VStr "a"))) = Some (mkSem (Tick 3) (VStr "a")).
Proof.
  exact (combine_never_semantic (TestFuture 3 (VStr "a")) never
           (mkSem (Tick 3) (VStr "a")) neverOccurringFuture
           eq_refl eq_refl eq_refl).
Defined.

Lemma time_le_total a b :
  a <> InfinityString -> b <> InfinityString ->
  time_le a b = false -> time_le b a = true.
Proof.
  destruct a, b; cbn; intros Ha Hb H; try reflexivity; try discriminate;
    try contradiction.
  apply Z.leb_le. apply Z.leb_gt in H. lia.
Qed.

Lemma time_le_trans a b c :
  time_le a b = true -> time_le b c = true -> time_le a c = true.
Proof.
  destruct a, b, c; cbn; intros H1 H2; try reflexivity; try discriminate.
  apply Z.leb_le. apply Z.leb_le in H1, H2. lia.
Qed.

Lemma time_le_false_trans a b c :
  a <> InfinityString -> b <> InfinityString -> c <> InfinityString ->
  time_le a b = false -> time_le b c = false -> time_le a c = false.
Proof.
  destruct a, b, c; cbn; intros Ha Hb Hc H1 H2; try reflexivity;
    try discriminate; try contradiction.
  apply Z.leb_gt. apply Z.leb_gt in H1, H2. lia.
Qed.

Lemma occurs_time s : doesOccur s = true -> time s <> InfinityString.
Proof. intros H E. unfold doesOccur in H. rewrite E in H. discriminate. Qed.

(** X15. For two futures that occur, the semantic representation of
    [combine] is the occurrence of one of them, no later than either: the
    earlier of the two, and the first when they occur at the same time. *)
Theorem combine_semantic_earliest f g a b :
  semantic f = Some a ->
  semantic g = Some b ->
  doesOccur a = true ->
  doesOccur b = true ->
  exists r,
    semantic (combine f g) = Some r /\
    (r = a \/ r = b) /\
    time_le (time r) (time a) = true /\
    time_le (time r) (time b) = true /\
    (time_le (time a) (time b) = true -> r = a).
Proof.
  intros Ha Hb Oa Ob. unfold combine. cbn [semantic]. rewrite Ha, Hb.
  destruct (time_le (time a) (time b)) eqn:E.
  - exists a. split; [reflexivity | ]. split; [left; reflexivity | ].
    split; [apply FutureSemanticsFacts.time_le_refl | ]. split; [exact E | reflexivity].
  - exists b. split; [reflexivity | ]. split; [right; reflexivity | ].
    split; [ | split; [apply FutureSemanticsFacts.time_le_refl | discriminate]].
    apply time_le_total; [apply occurs_time; exact Oa
                         | apply occurs_time; exact Ob | exact E].
Qed.

Lemma combine_semantic_earliest_witness :
  exists r,
    semantic (combine (TestFuture 5 (VStr "a")) (TestFuture 3 (VStr "b"))) = Some r /\
    (r = mkSem (Tick 5) (VStr "a") \/ r = mkSem (Tick 3) (VStr "b")) /\
    time_le (time r) (Tick 5) = true /\
    time_le (time r) (Tick 3) = true /\
    (time_le (Tick 5) (Tick 3) = true -> r = mkSem (Tick 5) (VStr "a")).
Proof.
  exact (combine_semantic_earliest (TestFuture 5 (VStr "a")) (TestFuture 3 (VStr "b"))
           (mkSem (Tick 5) (VStr "a")) (mkSem (Tick 3) (VStr "b"))
           eq_refl eq_refl eq_refl eq_refl).
Defined.

(** X16. On futures that occur, [combine] is associative in its semantic
    representation. *)
Theorem combine_semantic_assoc f g h a b c :
  semantic f = Some a ->
  semantic g = Some b ->
  semantic h = Some c ->
  doesOccur a = true ->
  doesOccur b = true ->
  doesOccur c = true ->
  semantic (combine (combine f g) h) = semantic (combine f (combine g h)).
Proof.
  intros Ha Hb Hc Oa Ob Oc. unfold combine. cbn [semantic].
  rewrite Ha, Hb, Hc.
  apply occurs_time in Oa, Ob, Oc.
  destruct (time_le (time a) (time b)) eqn:Eab;
    destruct (time_le (time b) (time c)) eqn:Ebc; cbv iota.
  - rewrite ?Eab, ?(time_le_trans _ _ _ Eab Ebc). reflexivity.
  - destruct (time_le (time a) (time c)) eqn:Eac; reflexivity.
  - rewrite ?Ebc, ?Eab. reflexivity.
  - rewrite ?Ebc, ?(time_le_false_trans _ _ _ Oa Ob Oc Eab Ebc). reflexivity.
Qed.

Lemma combine_semantic_assoc_witness :
  semantic (combine (combine (TestFuture 5 (VStr "a")) (TestFuture 3 (VStr "b")))
              (TestFuture 3 (VStr "c"))) =
  semantic (combine (TestFuture 5 (VStr "a"))
              (combine (TestFuture 3 (VStr "b")) (TestFuture 3 (VStr "c")))).
Proof.
  exact (combine_semantic_assoc
           (TestFuture 5 (VStr "a")) (TestFuture 3 (VStr "b")) (TestFuture 3 (VStr "c"))
           (mkSem (Tick 5) (VStr "a")) (mkSem (Tick 3) (VStr "b"))
           (mkSem (Tick 3) (VStr "c"))
           eq_refl eq_refl eq_refl eq_refl eq_refl eq_refl).
Defined.

(** X17. The functor laws of [map] in the semantic representation, for
    every future: [map(x => x)] changes nothing, [map(g)] after [map(f)]
    is [map(x => g(f(x)))], and [mapTo(b)] is [map(_ => b)]. *)
Theorem map_semantic_laws f0 (f g : jsval -> jsval) (b : jsval) :
  semantic (map (fun x => x) f0) = semantic f0 /\
  semantic (map g (map f f0)) = semantic (map (fun x => g (f x)) f0) /\
  semantic (mapTo b f0) = semantic (map (fun _ => b) f0).
Proof.
  unfold map, mapTo. cbn [semantic].
  destruct (semantic f0) as [p | ] eqn:Hp; [ | repeat split].
  destruct (doesOccur p) eqn:Op.
  - split; [destruct p; reflexivity | ].
    split; [ | reflexivity].
    unfold doesOccur in *. cbn [time value]. rewrite Op. reflexivity.
  - rewrite (not_occurring_is_never f0 p Hp Op). repeat split.
Qed.

Lemma max2_NegInf_l n : max2 NegInf n = n.
Proof. destruct n; reflexivity. Qed.

Lemma max2_NegInf_r n : max2 n NegInf = n.
Proof. destruct n; reflexivity. Qed.

Lemma max2_assoc a b c : max2 (max2 a b) c = max2 a (max2 b c).
Proof.
  destruct a, b, c; cbn; try reflexivity. rewrite Z.max_assoc. reflexivity.
Qed.

Lemma occurrence_occ_time s :
  doesOccur s = true -> occurrence (occ_time s) (value s) = s.
Proof.
  destruct s as [[ | t | ] v]; cbn; intros H; try reflexivity; discriminate.
Qed.

Lemma doesOccur_occurrence_true n v :
  n <> PosInf -> doesOccur (occurrence n v) = true.
Proof. destruct n; intros H; try reflexivity. contradiction. Qed.

Lemma occ_time_occurrence n v : occ_time (occurrence n v) = n.
Proof. destruct n; reflexivity. Qed.

Lemma value_occurrence n v : n <> PosInf -> value (occurrence n v) = v.
Proof. destruct n; intros H; try reflexivity. contradiction. Qed.

Lemma occ_time_occurs s : doesOccur s = true -> occ_time s <> PosInf.
Proof. destruct s as [[ | t | ] v]; cbn; intros H; discriminate. Qed.

Lemma max2_PosInf a b : a <> PosInf -> b <> PosInf -> max2 a b <> PosInf.
Proof. destruct a, b; cbn; intros Ha Hb; try discriminate; contradiction. Qed.

(** X18. The monad laws of [flatMap] in the semantic representation:
    [of(v).flatMap(f)] is [f(v)]; [m.flatMap(of)] is [m]; and
    [m.flatMap(f).flatMap(g)] is [m.flatMap(x => f(x).flatMap(g))], also
    where a future never occurs or has no semantic representation. *)
Theorem flatMap_semantic_laws (m : Future) (f g : jsval -> Future) (v : jsval) :
  semantic (flatMap f (of_ v)) = semantic (f v) /\
  semantic (flatMap of_ m) = semantic m /\
  semantic (flatMap g (flatMap f m)) =
    semantic (flatMap (fun x => flatMap g (f x)) m).
Proof.
  unfold flatMap, of_. split; [ | split].
  - cbn [semantic doesOccur time value].
    destruct (semantic (f v)) as [b | ] eqn:Hb; [ | reflexivity].
    destruct (doesOccur b) eqn:Ob.
    + change (occ_time (mkSem NegInfinity v)) with NegInf.
      rewrite max2_NegInf_l, (occurrence_occ_time b Ob). reflexivity.
    + rewrite (not_occurring_is_never (f v) b Hb Ob). reflexivity.
  - cbn [semantic].
    destruct (semantic m) as [a | ] eqn:Ha; [ | reflexivity].
    destruct (doesOccur a) eqn:Oa.
    + cbn [doesOccur time value].
      change (occ_time (mkSem NegInfinity (value a))) with NegInf.
      rewrite max2_NegInf_r, (occurrence_occ_time a Oa). reflexivity.
    + rewrite (not_occurring_is_never m a Ha Oa). reflexivity.
  - cbn [semantic].
    destruct (semantic m) as [a | ] eqn:Ha; [ | reflexivity].
    destruct (doesOccur a) eqn:Oa; [ | reflexivity].
    destruct (semantic (f (value a))) as [b | ] eqn:Hb; [ | reflexivity].
    destruct (doesOccur b) eqn:Ob; [ | reflexivity].
    pose proof (max2_PosInf _ _ (occ_time_occurs a Oa) (occ_time_occurs b Ob)) as Hab.
    rewrite (doesOccur_occurrence_true _ _ Hab), (value_occurrence _ _ Hab).
    destruct (semantic (g (value b))) as [c | ] eqn:Hc; [ | reflexivity].
    destruct (doesOccur c) eqn:Oc; [ | reflexivity].
    pose proof (max2_PosInf _ _ (occ_time_occurs b Ob) (occ_time_occurs c Oc)) as Hbc.
    rewrite (doesOccur_occurrence_true _ _ Hbc), !occ_time_occurrence.
    rewrite (value_occurrence _ _ Hbc), max2_assoc.
    reflexivity.
Qed.

Lemma traverse_single {A B} (g : A -> option B) x :
  traverse g [x] = option_map (fun y => [y]) (g x).
Proof. cbn. destruct (g x); reflexivity. Qed.

(** X19. [lift] with one argument builds a [MapFuture] instead of a
    [LiftFuture]; the two have the same semantic representation, so for
    every list of arguments [lift(f, ...args)] means what
    [new LiftFuture(f, args)] means. Without arguments it is [of(f())]. *)
Theorem lift_semantic f args :
  semantic (lift f args) = semantic (LiftFuture f args) /\
  semantic (lift f []) = semantic (of_ (f [])).
Proof.
  split; [ | reflexivity].
  destruct args as [ | x [ | y rest]]; try reflexivity.
  unfold lift. rewrite semantic_LiftFuture, traverse_single.
  cbn [semantic].
  destruct (semantic x) as [p | ] eqn:Hp; [ | reflexivity].
  cbn [option_map List.map Math_max fold_right].
  rewrite max2_NegInf_r.
  destruct p as [[ | t | ] v]; reflexivity.
Qed.

Lemma max2_PosInf_iff a b : max2 a b = PosInf <-> a = PosInf \/ b = PosInf.
Proof.
  destruct a, b; cbn; split; intros H; try discriminate; auto;
    destruct H; discriminate.
Qed.

Lemma Math_max_PosInf xs :
  Math_max xs = PosInf <-> Exists (fun n => n = PosInf) xs.
Proof.
  induction xs as [ | x xs IH].
  - split; [discriminate | intros H; inversion H].
  - change (Math_max (x :: xs)) with (max2 x (Math_max xs)).
    rewrite max2_PosInf_iff, IH. split.
    + intros [H | H]; [left | right]; exact H.
    + intros H. inversion H as [? ? Hx | ? ? Hx]; subst; [left | right];
        [reflexivity | exact Hx].
Qed.

Lemma traverse_Some {A B} (g : A -> option B) xs ys :
  traverse g xs = Some ys -> Forall2 (fun x y => g x = Some y) xs ys.
Proof.
  revert ys; induction xs as [ | x xs IH]; intros ys H; cbn in H.
  - injection H as <-. constructor.
  - destruct (g x) as [y | ] eqn:Hx; [ | discriminate].
    destruct (traverse g xs) as [ys' | ]; [ | discriminate].
    injection H as <-. constructor; [exact Hx | apply IH; reflexivity].
Qed.

(** X20. A lifted future occurs exactly when all its arguments occur:
    when every argument of [LiftFuture] has a semantic representation, the
    lifted future has one, it occurs if and only if every argument occurs,
    and then at the latest of their times with [f] applied to their
    values. *)
Theorem LiftFuture_semantic_all f futures sems :
  Forall2 (fun x s => semantic x = Some s) futures sems ->
  exists r,
    semantic (LiftFuture f futures) = Some r /\
    (doesOccur r = true <-> Forall (fun s => doesOccur s = true) sems) /\
    (doesOccur r = true ->
     occ_time r = Math_max (List.map occ_time sems) /\
     value r = f (List.map value sems)).
Proof.
  intros Hall.
  assert (traverse semantic futures = Some sems) as Htr.
  { induction Hall as [ | x s xs ss Hx _ IH]; [reflexivity | ].
    cbn [traverse]. rewrite Hx, IH. reflexivity. }
  rewrite semantic_LiftFuture, Htr.
  eexists. split; [reflexivity | ].
  split.
  - split.
    + intros H. apply Forall_forall. intros s Hs.
      destruct (doesOccur s) eqn:Os; [reflexivity | exfalso].
      assert (Math_max (List.map occ_time sems) = PosInf) as E.
      { apply Math_max_PosInf. apply Exists_exists.
        exists (occ_time s). split; [apply in_map; exact Hs | ].
        unfold occ_time. rewrite (not_occur_never_time s Os). reflexivity. }
      rewrite E in H. discriminate.
    + intros H.
      destruct (Math_max (List.map occ_time sems)) eqn:E; try reflexivity.
      exfalso. apply Math_max_PosInf in E. apply Exists_exists in E.
      destruct E as (n & Hin & ->). apply in_map_iff in Hin.
      destruct Hin as (s & Hs & Hin).
      rewrite Forall_forall in H. specialize (H s Hin).
      exact (occ_time_occurs s H Hs).
  - intros H.
    assert (Math_max (List.map occ_time sems) <> PosInf) as Hne
      by (intros E; rewrite E in H; discriminate).
    rewrite occ_time_occurrence, (value_occurrence _ _ Hne).
    split; reflexivity.
Qed.

Lemma LiftFuture_semantic_all_witness :
  exists r,
    semantic (LiftFuture (fun vs => VArr vs)
                [TestFuture 5 (VStr "a"); OfFuture (VNum 1); TestFuture 7 (VStr "b")]) =
      Some r /\
    (doesOccur r = true <->
     Forall (fun s => doesOccur s = true)
       [mkSem (Tick 5) (VStr "a"); mkSem NegInfinity (VNum 1);
        mkSem (Tick 7) (VStr "b")]) /\
    (doesOccur r = true ->
     occ_time r =
       Math_max (List.map occ_time
                   [mkSem (Tick 5) (VStr "a"); mkSem NegInfinity (VNum 1);
                    mkSem (Tick 7) (VStr "b")]) /\
     value r =
       VArr (List.map value
               [mkSem (Tick 5) (VStr "a"); mkSem NegInfinity (VNum 1);
                mkSem (Tick 7) (VStr "b")])).
Proof.
  apply (LiftFuture_semantic_all (fun vs => VArr vs)
           [TestFuture 5 (VStr "a"); OfFuture (VNum 1); TestFuture 7 (VStr "b")]
           [mkSem (Tick 5) (VStr "a"); mkSem NegInfinity (VNum 1);
            mkSem (Tick 7) (VStr "b")]).
  repeat constructor.
Defined.

End FutureSemanticsExtraFacts.
